(** * A shallow embedding of parts of mxml (DTD validator, DOM, serializer,
      UTF-8 decoding, XPath evaluation) and its specification. *)

From Stdlib Require Import String Ascii List Bool ZArith Lia Btauto.
From Stdlib Require QArith_base Qround.
Import ListNotations.
Set Warnings "-register-all".
Open Scope bool_scope.

(* ================================================================== *)
(** ** Text utilities (src/src/text.cxx).  A [std::string] is a list of
       bytes, each a [Z] in [0, 256). *)

Module Text.
Local Open Scope Z_scope.

Definition in_range (lo hi uc : Z) : bool := (lo <=? uc) && (uc <=? hi).

(** [is_name_start_char(char32_t)] *)
Definition is_name_start_char (uc : Z) : bool :=
  (uc =? 58) || in_range 65 90 uc || (uc =? 95) || in_range 97 122 uc ||
  in_range 192 214 uc || in_range 216 246 uc || in_range 248 767 uc ||
  in_range 880 893 uc || in_range 895 8191 uc || in_range 8204 8205 uc ||
  in_range 8304 8591 uc || in_range 11264 12271 uc || in_range 12289 55295 uc ||
  in_range 63744 64975 uc || in_range 65008 65533 uc || in_range 65536 983039 uc.

(** [is_name_char(char32_t)] *)
Definition is_name_char (uc : Z) : bool :=
  (uc =? 45) || (uc =? 46) || in_range 48 57 uc || (uc =? 183) ||
  is_name_start_char uc || in_range 768 879 uc || in_range 8255 8256 uc.

(** A (signed) [char] of a [std::string] passed as a [char32_t]: bytes
    from 0x80 on are negative chars and wrap around modulo 2^32. *)
Definition char_to_u32 (b : Z) : Z :=
  if b <? 128 then b else b - 256 + 2 ^ 32.

(** [std::string::operator==] *)
Fixpoint bytes_eqb (a b : list Z) : bool :=
  match a, b with
  | [], [] => true
  | x :: a', y :: b' => (x =? y) && bytes_eqb a' b'
  | _, _ => false
  end.

(** [std::isspace] in the "C" locale. *)
Definition isspace (b : Z) : bool := (b =? 32) || in_range 9 13 b.

Fixpoint drop_while {A} (p : A -> bool) (l : list A) : list A :=
  match l with
  | [] => []
  | x :: r => if p x then drop_while p r else l
  end.

(** [trim(std::string&)]: drop white space at the end, then at the start. *)
Definition trim (s : list Z) : list Z :=
  drop_while isspace (rev (drop_while isspace (rev s))).

(** A continuation byte [10xxxxxx]. *)
Definition is_continuation (c : Z) : bool := Z.land c 192 =? 128.

(** The number of continuation bytes [pop_front_char] reads after a lead
    byte of the form [110xxxxx], [1110xxxx] or [11110xxx] (0 otherwise). *)
Definition lead_length (b : Z) : nat :=
  if Z.land b 224 =? 192 then 1
  else if Z.land b 240 =? 224 then 2
  else if Z.land b 248 =? 240 then 3
  else 0.

(** [pop_front_char(ptr, end)]: decode one character from the range
    [ptr, end), written [b :: rest] (the source reads [*ptr] unconditionally;
    its callers pass a non-empty range).  [None] is the thrown
    [mxml::exception("Invalid utf-8")]; otherwise the code point and the
    range after the advanced [ptr]. *)
Definition pop_front_char (b : Z) (rest : list Z) : option (Z * list Z) :=
  let result := b in
  if result >? 127 then
    if Z.land result 224 =? 192 then
      match rest with
      | c0 :: rest' =>
          if negb (Z.land c0 192 =? 128) then None
          else Some (Z.lor (Z.shiftl (Z.land result 31) 6) (Z.land c0 63), rest')
      | _ => None
      end
    else if Z.land result 240 =? 224 then
      match rest with
      | c0 :: c1 :: rest' =>
          if negb (Z.land c0 192 =? 128) || negb (Z.land c1 192 =? 128) then None
          else Some (Z.lor (Z.lor (Z.shiftl (Z.land result 15) 12)
                                  (Z.shiftl (Z.land c0 63) 6)) (Z.land c1 63), rest')
      | _ => None
      end
    else if Z.land result 248 =? 240 then
      match rest with
      | c0 :: c1 :: c2 :: rest' =>
          if negb (Z.land c0 192 =? 128) || negb (Z.land c1 192 =? 128)
             || negb (Z.land c2 192 =? 128) then None
          else Some (Z.lor (Z.lor (Z.lor (Z.shiftl (Z.land result 7) 18)
                                         (Z.shiftl (Z.land c0 63) 12))
                                  (Z.shiftl (Z.land c1 63) 6)) (Z.land c2 63), rest')
      | _ => None
      end
    else Some (result, rest)
  else Some (result, rest).

(** Reference, not code of this library: a Unicode scalar value, a code
    point in [0, 0x10FFFF] outside the surrogates [0xD800, 0xDFFF]. *)
Definition is_scalar_value (uc : Z) : bool :=
  (0 <=? uc) && (uc <=? 1114111) && negb ((55296 <=? uc) && (uc <=? 57343)).

(** Reference, not code of this library: the UTF-8 encoding of a code
    point (Unicode, Table 3-6); the valid UTF-8 sequences are the
    encodings of the scalar values. *)
Definition utf8_encoding (uc : Z) : list Z :=
  if uc <? 128 then [uc]
  else if uc <? 2048 then [192 + uc / 64; 128 + uc mod 64]
  else if uc <? 65536 then [224 + uc / 4096; 128 + uc / 64 mod 64; 128 + uc mod 64]
  else [240 + uc / 262144; 128 + uc / 4096 mod 64; 128 + uc / 64 mod 64; 128 + uc mod 64].

End Text.

(* ================================================================== *)
(** ** Content-spec states of the DTD validator (src/src/doctype.cpp) *)

Module Doctype.

(** The repetition character of [content_spec_repeated]: ['?'], ['*'] or
    ['+']; [create_state] asserts on any other character. *)
Inductive repetition := QOpt | QStar | QPlus.

(** [content_spec_base] and its subclasses; a [Mixed] content spec is a
    [content_spec_choice] with [m_mixed] set. *)
Inductive content_spec :=
| CAny
| CEmpty
| CElement (name : string)
| CRepeated (allowed : content_spec) (q : repetition)
| CSeq (allowed : list content_spec)
| CChoice (allowed : list content_spec) (mixed : bool).

(** The runtime states ([state_base] and subclasses).  Mutable fields are
    explicit:
    - [SElement name m_done];
    - [SRepeated q m_sub m_state];
    - [SSeq prev rest m_state]: [m_states] is [prev ++ rest] and the
      iterator [m_next] points at the head of [rest];
    - [SChoice m_states m_mixed m_state m_sub]: [m_sub] shares one of
      [m_states]; it is kept as its index. *)
Inductive state :=
| SAny
| SEmpty
| SElement (name : string) (done : bool)
| SRepeated (q : repetition) (sub : state) (st : nat)
| SSeq (prev rest : list state) (st : nat)
| SChoice (states : list state) (mixed : bool) (st : nat) (sub : nat).

(** [content_spec_*::create_state] *)
Fixpoint create_state (c : content_spec) : state :=
  match c with
  | CAny => SAny
  | CEmpty => SEmpty
  | CElement n => SElement n false
  | CRepeated a q => SRepeated q (create_state a) 0
  | CSeq l => SSeq [] (map create_state l) 0
  | CChoice l m => SChoice (map create_state l) m 0 0
  end.

(** [state_base::reset] and its overrides.  [state_seq::reset] leaves
    [m_next] stale, but [m_state = Start] re-initialises it before any
    use, so the iterator is put back at the front here. *)
Fixpoint reset (s : state) : state :=
  match s with
  | SAny => SAny
  | SEmpty => SEmpty
  | SElement n _ => SElement n false
  | SRepeated q sub _ => SRepeated q (reset sub) 0
  | SSeq prev rest _ => SSeq [] (map reset prev ++ map reset rest) 0
  | SChoice l m _ i => SChoice (map reset l) m 0 i
  end.

(** [state_base::allow_empty] and its overrides. *)
Fixpoint allow_empty (s : state) : bool :=
  match s with
  | SAny => true
  | SEmpty => true
  | SElement _ _ => false
  | SRepeated QPlus sub _ => allow_empty sub
  | SRepeated _ _ _ => true
  | SSeq prev rest _ => forallb allow_empty prev && forallb allow_empty rest
  | SChoice l m _ _ => m || existsb allow_empty l
  end.

(** Nesting depth; [allow] recurses at most this deep. *)
Fixpoint depth (s : state) : nat :=
  match s with
  | SRepeated _ sub _ => S (depth sub)
  | SSeq prev rest _ => S (Nat.max (fold_right (fun x n => Nat.max (depth x) n) 0 prev)
                              (fold_right (fun x n => Nat.max (depth x) n) 0 rest))
  | SChoice l _ _ _ => S (fold_right (fun x n => Nat.max (depth x) n) 0 l)
  | _ => 1
  end.

(** Replace the [i]-th element of a list (out of range: unchanged). *)
Fixpoint set_nth {A} (i : nat) (l : list A) (x : A) : list A :=
  match l, i with
  | [], _ => []
  | _ :: t, 0 => x :: t
  | y :: t, S j => y :: set_nth j t x
  end.

(** The [Element] case of [state_seq::allow]: offer the name to
    [*m_next] ([allow_f]) and, while it answers (false, true), advance
    [m_next]; reaching [end()] answers done.  Returns the result, the done
    flag and the new split [prev]/[rest] of [m_states] at [m_next]. *)
Fixpoint seq_go (allow_f : state -> bool * bool * state) (prev rest : list state)
  : bool * bool * list state * list state :=
  match rest with
  | [] => (false, true, prev, [])
  | x :: rest' =>
      let '(r, d, x') := allow_f x in
      if negb r && d then
        match rest' with
        | [] => (false, true, prev ++ [x'], [])
        | _ => seq_go allow_f (prev ++ [x']) rest'
        end
      else (r, d, prev, x' :: rest')
  end.

(** The [Start] case of [state_choice::allow]: try every choice in turn
    (each one is updated by the attempt) and lock on the first that
    accepts; [k] counts the choices tried, [rd] is the last answer. *)
Fixpoint choice_try (allow_f : state -> bool * bool * state) (k : nat)
    (done_ rest : list state) (rd : bool * bool)
  : bool * bool * list state * option nat :=
  match rest with
  | [] => (fst rd, snd rd, done_, None)
  | x :: rest' =>
      let '(r, d, x') := allow_f x in
      if r then (r, d, done_ ++ x' :: rest', Some k)
      else choice_try allow_f (S k) (done_ ++ [x']) rest' (r, d)
  end.

(** [allow(name)] of every state class, returning [(result, done)] and the
    updated state.  [fuel] bounds the nesting depth (the repetition states
    call [allow] again on their [reset] sub-state, which is not a
    syntactic sub-term); [state_allow] supplies [depth s]. *)
Fixpoint allow (fuel : nat) (s : state) (name : string) {struct fuel}
  : bool * bool * state :=
  match fuel with
  | O => (false, false, s)
  | S f =>
    match s with
    | SAny => (true, true, SAny)
    | SEmpty => (false, true, SEmpty)
    | SElement n d =>
        (* if (not m_done and m_name == name) m_done = result = true; *)
        if negb d && String.eqb n name then (true, true, SElement n true)
        else (false, d, SElement n d)
    | SRepeated QOpt sub st =>
        (* state_repeated_zero_or_once::allow *)
        let '(r, d, sub') := allow f sub name in
        match st with
        | O => if r then (r, d, SRepeated QOpt sub' 1)
               else (r, true, SRepeated QOpt sub' 0)
        | _ => (r, d, SRepeated QOpt sub' st)
        end
    | SRepeated QStar sub st =>
        (* state_repeated_any::allow *)
        let '(r, d, sub') := allow f sub name in
        match st with
        | O => if r then (r, d, SRepeated QStar sub' 1)
               else (r, true, SRepeated QStar sub' 0)
        | _ =>
            if negb r && d then
              let '(r2, d2, sub'') := allow f (reset sub') name in
              (r2, if r2 then d2 else true, SRepeated QStar sub'' st)
            else (r, d, SRepeated QStar sub' st)
        end
    | SRepeated QPlus sub st =>
        (* state_repeated_at_least_once::allow *)
        let '(r, d, sub') := allow f sub name in
        match st with
        | O => (r, d, SRepeated QPlus sub' (if r then 1 else 0))
        | 1 =>
            if negb r && d then
              let '(r2, d2, sub'') := allow f (reset sub') name in
              (r2, d2, SRepeated QPlus sub'' (if r2 then 2 else 1))
            else (r, d, SRepeated QPlus sub' 1)
        | _ =>
            if negb r && d then
              let '(r2, d2, sub'') := allow f (reset sub') name in
              (r2, if r2 then d2 else true, SRepeated QPlus sub'' st)
            else (r, d, SRepeated QPlus sub' st)
        end
    | SSeq prev rest st =>
        (* state_seq::allow *)
        let go := seq_go (fun x => allow f x name) in
        match st with
        | O =>
            match prev ++ rest with
            | [] => (false, true, SSeq [] [] 0)
            | all => let '(r, d, p, q) := go [] all in (r, d, SSeq p q 1)
            end
        | _ => let '(r, d, p, q) := go prev rest in (r, d, SSeq p q st)
        end
    | SChoice l m st i =>
        (* state_choice::allow *)
        match st with
        | O =>
            let try_ := choice_try (fun x => allow f x name) in
            match try_ 0 [] l (false, false) with
            | (r, d, l', Some k) => (r, d, SChoice l' m 1 k)
            | (r, d, l', None) => (r, d, SChoice l' m 0 i)
            end
        | _ =>
            let '(r, d, x') := allow f (nth i l SEmpty) name in
            (r, d, SChoice (set_nth i l x') m st i)
        end
    end
  end.

Definition state_allow (s : state) (name : string) : bool * bool * state :=
  allow (depth s) s name.

(** [class validator]: the state and [m_done]. *)
Record validator := mk_validator { v_state : state; v_done : bool }.

(** [validator::validator(content_spec_base &)] *)
Definition validator_init (c : content_spec) : validator :=
  let s := create_state c in mk_validator s (allow_empty s).

(** [validator::allow] *)
Definition validator_allow (v : validator) (name : string) : bool * validator :=
  let '(r, d, s') := state_allow (v_state v) name in (r, mk_validator s' d).

(** Run the validator over a sequence of element names: accepted when
    every [allow] returned true and [done()] holds at the end. *)
Fixpoint run_validator (v : validator) (w : list string) : bool :=
  match w with
  | [] => v_done v
  | n :: w' => let '(r, v') := validator_allow v n in r && run_validator v' w'
  end.

Definition fsm_accepts (c : content_spec) (w : list string) : bool :=
  run_validator (validator_init c) w.

(** Reference matcher: the language of a content spec, read as a regular
    expression over element names. *)
Inductive matches : content_spec -> list string -> Prop :=
| m_any w : matches CAny w
| m_empty : matches CEmpty []
| m_element n : matches (CElement n) [n]
| m_seq_nil : matches (CSeq []) []
| m_seq_cons c l w1 w2 :
    matches c w1 -> matches (CSeq l) w2 -> matches (CSeq (c :: l)) (w1 ++ w2)
| m_choice c l m w : In c l -> matches c w -> matches (CChoice l m) w
| m_mixed_empty l : matches (CChoice l true) []
| m_opt_none c : matches (CRepeated c QOpt) []
| m_opt_one c w : matches c w -> matches (CRepeated c QOpt) w
| m_star_nil c : matches (CRepeated c QStar) []
| m_star_cons c w1 w2 :
    matches c w1 -> matches (CRepeated c QStar) w2 ->
    matches (CRepeated c QStar) (w1 ++ w2)
| m_plus c w1 w2 :
    matches c w1 -> matches (CRepeated c QStar) w2 ->
    matches (CRepeated c QPlus) (w1 ++ w2).

(* ------------------------------------------------------------------ *)
(** *** DTD attribute declarations ([class attribute]) *)

Inductive attribute_type :=
| ACDATA | AID | AIDREF | AIDREFS | AENTITY | AENTITIES
| ANMTOKEN | ANMTOKENS | ANotation | AEnumerated.

Inductive attribute_default := DNone | DRequired | DImplied | DFixed | DDefault.

Record attribute := mk_attribute {
  a_name : string;
  a_type : attribute_type;
  a_default : attribute_default;
  a_default_value : list Z;
  a_enum : list (list Z)
}.

(** An entity of the entity table: its name and [is_parsed()]. *)
Record entity := mk_entity { e_name : list Z; e_parsed : bool }.

Definition nc (b : Z) : bool := Text.is_name_char (Text.char_to_u32 b).
Definition nsc (b : Z) : bool := Text.is_name_start_char (Text.char_to_u32 b).

(** [attribute::is_name]: returns the result and the (trimmed) string. *)
Definition is_name (s : list Z) : bool * list Z :=
  let s := Text.trim s in
  match s with
  | [] => (true, s)
  | c :: cs => (nsc c && forallb nc cs, s)
  end.

(** Split [l] at its first element not satisfying [p]. *)
Fixpoint span {A} (p : A -> bool) (l : list A) : list A * list A :=
  match l with
  | x :: r => if p x then let '(a, b) := span p r in (x :: a, b) else ([], l)
  | [] => ([], [])
  end.

(** The main loop of [attribute::is_names], over the remaining
    characters [cs], building the normalised string [t]. *)
Fixpoint names_loop (fuel : nat) (cs t : list Z) : bool * list Z :=
  match fuel with
  | O => (true, t)
  | S f =>
    match cs with
    | [] => (true, t)
    | c :: cs1 =>
        let r := nsc c in
        let '(tok, cs2) := if r then span nc cs1 else ([], cs1) in
        let t2 := t ++ c :: tok in
        match cs2 with
        | [] => (r, t2)
        | c2 :: cs3 =>
            (* a white space character must follow; it is written as one space *)
            if Text.isspace c2
            then names_loop f (Text.drop_while Text.isspace cs3) (t2 ++ [32%Z])
            else (false, t2 ++ [32%Z])
        end
    end
  end.

(** [attribute::is_names] *)
Definition is_names (s : list Z) : bool * list Z :=
  let s := Text.trim s in
  match s with
  | [] => (true, s)
  | _ => names_loop (length s) s []
  end.

(** [attribute::is_nmtoken]: the loop pre-increments the iterator before
    testing, as the source does. *)
Definition is_nmtoken (s : list Z) : bool * list Z :=
  let s := Text.trim s in
  let result := negb (match s with [] => true | _ => false end) in
  let fix loop (cs : list Z) : bool :=
    (* from the second character on, each must be a name character *)
    match cs with
    | [] => true
    | c :: cs' => nc c && loop cs'
    end in
  match s with
  | [] => (result, s)
  | _ :: rest => (result && loop rest, s)
  end.

(** The main loop of [attribute::is_nmtokens]. *)
Fixpoint nmtokens_loop (fuel : nat) (cs t : list Z) : bool * list Z :=
  match fuel with
  | O => (true, t)
  | S f =>
    match cs with
    | [] => (true, t)
    | _ =>
        let '(tok, cs1) := span nc cs in
        let t1 := t ++ tok in
        match tok, cs1 with
        | [], _ => (false, t1)
        | _, [] => (true, t1)
        | _, _ =>
            let '(sp, cs2) := span (fun b => (b =? 32)%Z) cs1 in
            match sp with
            | [] => (false, t1 ++ [32%Z])
            | _ => nmtokens_loop f cs2 (t1 ++ [32%Z])
            end
        end
    end
  end.

(** [attribute::is_nmtokens]: [s] is replaced by the normalised string only
    on success. *)
Definition is_nmtokens (s : list Z) : bool * list Z :=
  let s := Text.trim s in
  match s with
  | [] => (false, s)
  | _ => let '(r, t) := nmtokens_loop (length s) s [] in (r, if r then t else s)
  end.

(** [attribute::is_unparsed_entity] *)
Definition is_unparsed_entity (s : list Z) (l : list entity) : bool :=
  match find (fun e => Text.bytes_eqb (e_name e) s) l with
  | Some e => negb (e_parsed e)
  | None => false
  end.

(** The tokens [value.substr(i, j - i)] between single spaces. *)
Fixpoint split_space (l : list Z) : list (list Z) :=
  match l with
  | [] => [[]]
  | c :: r =>
      let ws := split_space r in
      if (c =? 32)%Z then [] :: ws
      else match ws with w :: ws' => (c :: w) :: ws' | [] => [[c]] end
  end.

(** [attribute::validate_value]: the result and the (transformed) value. *)
Definition validate_value (a : attribute) (value : list Z) (entities : list entity)
  : bool * list Z :=
  let '(result, value) :=
    match a_type a with
    | ACDATA => (true, value)
    | AENTITY =>
        let '(r, v) := is_name value in
        (r && is_unparsed_entity v entities, v)
    | AID | AIDREF => is_name value
    | AENTITIES =>
        let '(r, v) := is_names value in
        (r && forallb (fun w => is_unparsed_entity w entities) (split_space v), v)
    | AIDREFS => is_names value
    | ANMTOKEN => is_nmtoken value
    | ANMTOKENS => is_nmtokens value
    | AEnumerated | ANotation =>
        let v := Text.trim value in
        (existsb (Text.bytes_eqb v) (a_enum a), v)
    end in
  match a_default a with
  | DFixed => (result && Text.bytes_eqb value (a_default_value a), value)
  | _ => (result, value)
  end.

(** Where [m_next] stands when [state_seq::allow] enters its [Element]
    case: at the front in the [Start] state, where it was otherwise. *)
Definition seq_cursor (prev rest : list state) (st : nat) : list state * list state :=
  match st with
  | O => ([], prev ++ rest)
  | S _ => (prev, rest)
  end.

(** How a sequence advances on one name: starting at [rest], the states
    [old] were passed over, each after answering (false, true); the first
    state of [tail], if any, gave the final answer (not (false, true))
    and stays under [m_next]. *)
Definition seq_advance (af : state -> bool * bool * state)
    (prev rest : list state) (r d : bool) (prev' rest' : list state) : Prop :=
  exists old new tail,
    rest = old ++ tail /\ prev' = prev ++ new /\
    Forall2 (fun y0 y => af y0 = (false, true, y)) old new /\
    ((tail = [] /\ rest' = [] /\ r = false /\ d = true) \/
     (exists y0 y t, tail = y0 :: t /\ af y0 = (r, d, y) /\
        negb r && d = false /\ rest' = y :: t)).

(** How a [Choice] in its [Start] state answers one name: the choices
    [old] in front of the first one that accepts each answered "not
    accepted" (and were updated to [new]); the first choice that accepts,
    [y0], gives the answer and the choice locks on its index.  When none
    accepts, the answer is "not accepted" with the done flag of the last
    choice tried ([false] when there is none) and no choice is locked. *)
Definition choice_commit (af : state -> bool * bool * state) (l : list state)
    (r d : bool) (l' : list state) (locked : option nat) : Prop :=
  exists old new,
    Forall2 (fun y0 y => exists d0, af y0 = (false, d0, y)) old new /\
    ((exists y0 y t, l = old ++ y0 :: t /\ af y0 = (true, d, y) /\ r = true /\
        l' = new ++ y :: t /\ locked = Some (length old)) \/
     (l = old /\ l' = new /\ r = false /\ locked = None /\
      d = last (map (fun y0 => snd (fst (af y0))) l) false)).

(** The example content specs [(a, b) | (a, c)] and [(a, b)]. *)
Definition spec_ab_or_ac : content_spec :=
  CChoice [CSeq [CElement "a"; CElement "b"]; CSeq [CElement "a"; CElement "c"]] false.

Definition spec_ab : content_spec := CSeq [CElement "a"; CElement "b"].

(** A DTD attribute [x NMTOKEN #IMPLIED]. *)
Definition nmtoken_attr : attribute :=
  mk_attribute "x" ANMTOKEN DImplied [] [].

End Doctype.

(* ================================================================== *)
(** ** The DOM (include/mxml/node.hpp, src/src/node.cxx,
       src/src/document.cxx) *)

Module Dom.

(** [class attribute]: qualified name, value and ID flag. *)
Record attribute := mk_attribute {
  at_qname : string;
  at_value : list Z;
  at_id : bool
}.

(** The concrete node classes that can be children of an element or a
    document.  Attributes live in the element's own [attribute_set]. *)
Inductive node :=
| NElement (qname : string) (attrs : list attribute) (children : list node)
| NText (text : list Z)
| NCData (text : list Z)
| NComment (text : list Z)
| NPI (target : string) (text : list Z).

(** [str()]: [element_container::str] concatenates [str()] of all child
    nodes ([nodes()], every kind); [node_with_text::str] (text, cdata,
    comment, processing instruction) returns [m_text]. *)
Fixpoint str (n : node) : list Z :=
  match n with
  | NElement _ _ cs => flat_map str cs
  | NText t | NCData t | NComment t | NPI _ t => t
  end.

(** The descendants of a node in document order (pre-order). *)
Fixpoint descendants (n : node) : list node :=
  match n with
  | NElement _ _ cs => flat_map (fun c => c :: descendants c) cs
  | _ => []
  end.

(** Spec side of C4: the text of text and cdata nodes only. *)
Definition text_or_cdata_text (n : node) : list Z :=
  match n with
  | NText t | NCData t => t
  | _ => []
  end.

(** The payload of every node with text ([node_with_text::m_text]). *)
Definition node_text (n : node) : list Z :=
  match n with
  | NText t | NCData t | NComment t | NPI _ t => t
  | NElement _ _ _ => []
  end.

Definition is_element (n : node) : bool :=
  match n with NElement _ _ _ => true | _ => false end.

(** ---- Insertion into a container ([basic_node_list], [node_list<T>],
    [document]) ---- *)

(** The dynamic type of the container whose [insert_impl] is virtual. *)
Inductive container_kind := KElement | KDocument.

(** Insert before position [pos] of the node list ([end()] is
    [length l]); [None] is a thrown [mxml::exception]. *)
Definition insert_at (l : list node) (pos : nat) (n : node) : list node :=
  firstn pos l ++ n :: skipn pos l.

(** [basic_node_list::insert_impl(p, n)]: [n] is a freshly allocated node
    ([new value_type(...)]), so it has no parent and no siblings and the
    check passes; it is linked in before [p]. *)
Definition basic_insert_impl (l : list node) (pos : nat) (n : node) : option (list node) :=
  Some (insert_at l pos n).

(** [document::child()]: the first element child, if any. *)
Definition child (l : list node) : option node := find is_element l.

(** [document::insert_impl(p, n)] (the override) *)
Definition document_insert_impl (l : list node) (pos : nat) (n : node) : option (list node) :=
  match child l with
  | Some _ => None   (* "Only one child element is allowed in a document" *)
  | None => basic_insert_impl l pos n
  end.

(** The virtual [basic_node_list::insert_impl], dispatched on the
    container's dynamic type. *)
Definition virtual_insert_impl (k : container_kind) : list node -> nat -> node -> option (list node) :=
  match k with
  | KElement => basic_insert_impl
  | KDocument => document_insert_impl
  end.

(** [node_list<T>::insert_impl(const_iterator pos, node* n)]: it calls
    [basic_node_list::insert_impl(&*pos, n)] with a qualified name, which
    suppresses virtual dispatch; the kind [k] of the container plays no
    part.  Overload resolution picks this overload for every [insert]
    taking an iterator (the conversion from iterator to [const node*] is
    [explicit]). *)
Definition node_list_insert_impl (k : container_kind) (l : list node) (pos : nat) (n : node)
  : option (list node) :=
  basic_insert_impl l pos n.

(** Position of [node_list<element>]'s iterator [i] in the full node list
    (the i-th element; [end()] past the last node). *)
Fixpoint element_pos (l : list node) (i : nat) : nat :=
  match l with
  | [] => 0
  | x :: r =>
      if is_element x then
        match i with O => 0 | S j => S (element_pos r j) end
      else S (element_pos r i)
  end.

(** [node_list<element>::insert(pos, e)] / [emplace(pos, args...)]:
    [insert_impl(pos, new element(...))]. *)
Definition insert (k : container_kind) (l : list node) (i : nat) (e : node) : option (list node) :=
  node_list_insert_impl k l (element_pos l i) e.

Definition emplace (k : container_kind) (l : list node) (i : nat) (e : node) : option (list node) :=
  insert k l i e.

(** The number of elements, i.e. the index of [end()]. *)
Definition element_count (l : list node) : nat := length (filter is_element l).

Definition emplace_back (k : container_kind) (l : list node) (e : node) : option (list node) :=
  emplace k l (element_count l) e.

Definition push_back (k : container_kind) (l : list node) (e : node) : option (list node) :=
  emplace k l (element_count l) e.

(** [document::emplace(args...)] is [emplace_back(args...)]. *)
Definition document_emplace (l : list node) (e : node) : option (list node) :=
  emplace_back KDocument l e.

(** ---- [attribute_set] ---- *)

(** [attribute_set::find(key)]: index of the first attribute with that
    qualified name. *)
Fixpoint find_attr (l : list attribute) (key : string) : option nat :=
  match l with
  | [] => None
  | a :: r =>
      if String.eqb (at_qname a) key then Some 0
      else option_map S (find_attr r key)
  end.

(** [attribute_set::emplace(value_type&& a)]: move-assign over the
    attribute found, or append; returns the position and [inserted]. *)
Definition attr_emplace (l : list attribute) (a : attribute) : list attribute * nat * bool :=
  match find_attr l (at_qname a) with
  | Some i => (Doctype.set_nth i l a, i, false)
  | None => (l ++ [a], length l, true)
  end.

(** [node_list<attribute>::insert(pos, a)] / [push_back(a)], inherited
    publicly by [attribute_set]: no check on the name. *)
Definition attr_insert (l : list attribute) (pos : nat) (a : attribute) : list attribute :=
  firstn pos l ++ a :: skipn pos l.

(** [element(qname, std::initializer_list<attribute>)]:
    [m_attributes.assign(first, last)] inserts a copy of each attribute at
    the end, in order. *)
Definition element_ctor (qname : string) (il : list attribute) : node :=
  NElement qname (fold_left (fun l a => attr_insert l (length l) a) il []) [].

End Dom.

(* ================================================================== *)
(** ** Serialization (src/src/node.cxx) *)

Module Serializer.
Local Open Scope Z_scope.

(** [struct version_type { uint8_t major, minor; }] *)
Definition version_type : Type := (Z * Z)%type.

Definition version_eqb (v w : version_type) : bool :=
  (fst v =? fst w) && (snd v =? snd w).

(** [struct format_info] *)
Record format_info := mk_format_info {
  indent : bool;
  indent_attributes : bool;
  collapse_tags : bool;
  suppress_comments : bool;
  escape_white_space : bool;
  escape_double_quote : bool;
  html : bool;
  indent_width : nat;
  indent_level : nat;
  version : version_type
}.

(** The bytes of an ASCII string literal. *)
Fixpoint bytes_of (s : string) : list Z :=
  match s with
  | EmptyString => []
  | String a r => Z.of_nat (nat_of_ascii a) :: bytes_of r
  end.

(** [is_valid_xml_1_0_char] and [is_valid_xml_1_1_char] (text.cxx) *)
Definition is_valid_xml_1_0_char (uc : Z) : bool :=
  (uc =? 9) || (uc =? 10) || (uc =? 13) || Text.in_range 32 55295 uc ||
  Text.in_range 57344 65533 uc || Text.in_range 65536 1114111 uc.

Definition is_valid_xml_1_1_char (uc : Z) : bool :=
  (uc =? 9) || (uc =? 10) || (uc =? 13) || ((32 <=? uc) && (uc <? 127)) ||
  (uc =? 133) || Text.in_range 160 55295 uc ||
  Text.in_range 57344 65533 uc || Text.in_range 65536 1114111 uc.

(** [os << static_cast<int>(c)] for a non-negative [c]: decimal digits. *)
Fixpoint decimal_go (fuel : nat) (n : Z) (acc : list Z) : list Z :=
  match fuel with
  | O => acc
  | S f =>
      let acc' := (48 + n mod 10) :: acc in
      if n <? 10 then acc' else decimal_go f (n / 10) acc'
  end.

Definition decimal (n : Z) : list Z := decimal_go 11 n [].

Section WriteString.
Variables (escape_whitespace escape_quot trim : bool) (version : version_type).

(** One round of the [switch (c)] in [write_string]: the output for the
    character [c], whose encoding is [raw] (the bytes [sb..sp]), and the
    new [last_is_space]; [None] is the exception thrown for NUL. *)
Definition write_char (last_is_space : bool) (c : Z) (raw : list Z) : option (list Z * bool) :=
  if c =? 38 then Some (bytes_of "&amp;", false)
  else if c =? 60 then Some (bytes_of "&lt;", false)
  else if c =? 62 then Some (bytes_of "&gt;", false)
  else if c =? 34 then Some (if escape_quot then bytes_of "&quot;" else [c], false)
  else if c =? 10 then Some (if escape_whitespace then bytes_of "&#10;" else [c], true)
  else if c =? 13 then Some (if escape_whitespace then bytes_of "&#13;" else [c], false)
  else if c =? 9 then Some (if escape_whitespace then bytes_of "&#9;" else [c], false)
  else if c =? 32 then Some (if negb trim || negb last_is_space then [32] else [], true)
  else if c =? 0 then None   (* "Invalid null character in XML content" *)
  else Some (if (c >=? 160) ||
                (if version_eqb version (1, 0) then is_valid_xml_1_0_char c
                 else is_valid_xml_1_1_char c)
             then raw
             else bytes_of "&#" ++ decimal c ++ [59], false).

(** The [while (sp < se)] loop of [write_string], from the state
    [last_is_space] on the remaining bytes [s]; returns the output and the
    final [last_is_space].  [fuel] bounds the number of rounds. *)
Fixpoint write_string_go (fuel : nat) (last_is_space : bool) (s : list Z)
  : option (list Z * bool) :=
  match fuel with
  | O => Some ([], last_is_space)
  | S f =>
      match s with
      | [] => Some ([], last_is_space)
      | b :: rest =>
          match Text.pop_front_char b rest with
          | None => None   (* "Invalid utf-8" *)
          | Some (c, rest') =>
              match write_char last_is_space c (firstn (length s - length rest') s) with
              | None => None
              | Some (out, lis) =>
                  match write_string_go f lis rest' with
                  | None => None
                  | Some (o, lis') => Some (out ++ o, lis')
                  end
              end
          end
      end
  end.

(** [write_string(os, s, escape_whitespace, escape_quot, trim, version)]:
    the bytes written, or [None] if it throws. *)
Definition write_string (s : list Z) : option (list Z) :=
  option_map fst (write_string_go (length s) false s).

End WriteString.

(** [text::write(os, fmt)] *)
Definition text_write (fmt : format_info) (t : list Z) : option (list Z) :=
  write_string (escape_white_space fmt) (escape_double_quote fmt) false (version fmt) t.

(** The loop over [m_text] in [comment::write]. *)
Fixpoint comment_body (last_was_hyphen : bool) (t : list Z) : list Z :=
  match t with
  | [] => []
  | ch :: r =>
      (if (ch =? 45) && last_was_hyphen then [32] else []) ++
      ch :: comment_body (ch =? 45) r
  end.

(** [comment::write(os, fmt)] *)
Definition comment_write (fmt : format_info) (t : list Z) : list Z :=
  if suppress_comments fmt then []
  else bytes_of "<!--" ++ comment_body false t ++ bytes_of "-->" ++
       (if Nat.eqb (indent_width fmt) 0 then [] else [10]).

(** Whether a byte string contains two consecutive hyphens. *)
Fixpoint has_double_hyphen (l : list Z) : bool :=
  match l with
  | x :: (y :: _) as r => ((x =? 45) && (y =? 45)) || has_double_hyphen r
  | _ => false
  end.

(** Whether the last character of a text is a hyphen. *)
Definition ends_with_hyphen (t : list Z) : bool :=
  match rev t with
  | [] => false
  | x :: _ => x =? 45
  end.

(** The default [format_info]. *)
Definition default_format : format_info :=
  mk_format_info false false true false false true false 0 0 (1, 0).

End Serializer.

(* ================================================================== *)
(** ** XPath evaluation (src/src/xpath.cxx).  The expression classes used
       here: root, child-axis name test, path, predicate, variable, literal,
       number and [=]; and the lookup of core function names and
       [xpath_imp::function_call]. *)

Module XPath.
Import QArith_base Qround.
Local Open Scope Z_scope.

(** A [double]: a finite value or NaN (infinities only arise from
    operators not modelled here). *)
Inductive double := DFinite (q : Q) | DNaN.

(** [==] on doubles (NaN is unequal to everything). *)
Definition double_eqb (a b : double) : bool :=
  match a, b with
  | DFinite x, DFinite y => Qeq_bool x y
  | _, _ => false
  end.

(** A node of a document, by the child indices leading to it from the
    document node ([[]] is the document itself). *)
Definition node_ptr : Type := list nat.

(** [enum class object_type] and [class object]. *)
Inductive object :=
| OUndef
| ONodeSet (ns : list node_ptr)
| OBool (b : bool)
| ONumber (d : double)
| OString (s : list Z).

Fixpoint node_at (cs : list Dom.node) (p : node_ptr) : option Dom.node :=
  match p with
  | [] => None
  | i :: p' =>
      match nth_error cs i, p' with
      | Some n, [] => Some n
      | Some (Dom.NElement _ _ cs'), _ => node_at cs' p'
      | _, _ => None
      end
  end.

(** The node as a [context_node] ([node_list<element>]: a document or
    an element), i.e. its list of child nodes. *)
Definition children_of (doc : list Dom.node) (p : node_ptr) : option (list Dom.node) :=
  match p with
  | [] => Some doc
  | _ => match node_at doc p with
         | Some (Dom.NElement _ _ cs) => Some cs
         | _ => None
         end
  end.

(** [n->str()]; the document's [str()] is [element_container::str]. *)
Definition node_str (doc : list Dom.node) (p : node_ptr) : list Z :=
  match p with
  | [] => flat_map Dom.str doc
  | _ => match node_at doc p with Some n => Dom.str n | None => [] end
  end.

(** [node::name()]: the qualified name after the first colon. *)
Fixpoint after_colon (q : string) : option string :=
  match q with
  | EmptyString => None
  | String c r => if Ascii.eqb c ":"%char then Some r else after_colon r
  end.

Definition local_name (q : string) : string :=
  match after_colon q with Some r => r | None => q end.

(** [iterate_child_elements] (not deep) with the predicate of
    [name_test_step_expression]: the element children whose name is
    [name], or all of them for ["*"]. *)
Fixpoint child_elements_go (p : node_ptr) (name : string) (i : nat) (cs : list Dom.node)
  : list node_ptr :=
  match cs with
  | [] => []
  | Dom.NElement q _ _ :: r =>
      (if String.eqb name "*" || String.eqb (local_name q) name then [p ++ [i]] else [])
      ++ child_elements_go p name (S i) r
  | _ :: r => child_elements_go p name (S i) r
  end.

(** [step_expression::evaluate] for [AxisType::Child] with a name test. *)
Definition child_step (doc : list Dom.node) (p : node_ptr) (name : string) : list node_ptr :=
  match children_of doc p with
  | Some cs => child_elements_go p name 0 cs
  | None => []
  end.

(** [expression_context::position()]: counts up to the context node. *)
Fixpoint position_go (n : node_ptr) (ns : list node_ptr) (acc : nat) : nat :=
  match ns with
  | [] => acc
  | m :: r => if list_eq_dec Nat.eq_dec m n then S acc else position_go n r (S acc)
  end.

Definition position (n : node_ptr) (ns : list node_ptr) : option nat :=
  match position_go n ns 0 with
  | O => None   (* "invalid context for position" *)
  | k => Some k
  end.

Definition node_set_eqb (a b : list node_ptr) : bool :=
  if list_eq_dec (list_eq_dec Nat.eq_dec) a b then true else false.

Section Objects.
(** [std::from_chars] into a double and [std::to_string(double)], taken
    as parameters: every result below holds for any of them. *)
Variables (from_chars : list Z -> double) (to_string : double -> list Z).
Variable doc : list Dom.node.

(** [object::as<bool>()] *)
Definition as_bool (o : object) : bool :=
  match o with
  | ONumber (DFinite q) => negb (Qeq_bool q 0)
  | ONumber DNaN => false
  | ONodeSet ns => negb (match ns with [] => true | _ => false end)
  | OString s => negb (match s with [] => true | _ => false end)
  | OBool b => b
  | OUndef => false
  end.

(** [object::as<double>()] *)
Definition as_double (o : object) : double :=
  match o with
  | ONumber d => d
  | ONodeSet [] => DNaN
  | ONodeSet (n :: _) => from_chars (node_str doc n)
  | OString s => from_chars s
  | OBool b => DFinite (if b then 1 else 0)
  | OUndef => DFinite 0
  end.

(** [object::as<std::string>()] *)
Definition as_string (o : object) : list Z :=
  match o with
  | ONumber d => to_string d
  | OString s => s
  | OBool b => Serializer.bytes_of (if b then "true" else "false")
  | ONodeSet ns => flat_map (node_str doc) ns
  | OUndef => []
  end.

Definition type_code (o : object) : nat :=
  match o with
  | OUndef => 0 | ONodeSet _ => 1 | OBool _ => 2 | ONumber _ => 3 | OString _ => 4
  end.

(** [object::operator==] *)
Definition object_eqb (a b : object) : bool :=
  match a, b with
  | ONodeSet x, ONodeSet y => node_set_eqb x y
  | OBool x, OBool y => Bool.eqb x y
  | ONumber x, ONumber y => double_eqb x y
  | OString x, OString y => Text.bytes_eqb x y
  | OUndef, OUndef => false
  | _, _ =>
      if (type_code a =? 3)%nat || (type_code b =? 3)%nat then double_eqb (as_double a) (as_double b)
      else if (type_code a =? 4)%nat || (type_code b =? 4)%nat then Text.bytes_eqb (as_string a) (as_string b)
      else if (type_code a =? 2)%nat || (type_code b =? 2)%nat then Bool.eqb (as_bool a) (as_bool b)
      else false
  end.

End Objects.

(** The expression classes. *)
Inductive expr :=
| ERoot                              (* root_expression *)
| EChildStep (name : string)         (* name_test_step_expression, child axis *)
| EPath (lhs rhs : expr)             (* path_expression *)
| EPredicate (path pred : expr)      (* predicate_expression *)
| EVariable (name : string)          (* variable_expression *)
| ELiteral (s : list Z)              (* literal_expression *)
| ENumber (d : double)               (* number_expression *)
| EEqual (lhs rhs : expr).           (* operator_expression<OperatorEqual> *)

(** [std::map<std::string, object> m_variables]. *)
Definition variables : Type := list (string * object).

(** [context_imp::get(name)]: [m_variables[name]], which default-constructs
    (an [undef] object) a missing entry. *)
Fixpoint get (vars : variables) (name : string) : object :=
  match vars with
  | [] => OUndef
  | (k, v) :: r => if String.eqb k name then v else get r name
  end.

Section Eval.
Variables (from_chars : list Z -> double) (to_string : double -> list Z).
Variables (vars : variables) (doc : list Dom.node).

(** The loop of [path_expression::evaluate] over the left-hand node set. *)
Fixpoint path_loop (f : node_ptr -> option object) (ns : list node_ptr) : option (list node_ptr) :=
  match ns with
  | [] => Some []
  | n :: r =>
      match f n with
      | Some (ONodeSet s) =>
          match path_loop f r with Some acc => Some (s ++ acc) | None => None end
      | _ => None   (* as<const node_set&> throws, or the step threw *)
      end
  end.

(** The loop of [predicate_expression::evaluate]. *)
Fixpoint predicate_loop (f : node_ptr -> option object) (all ns : list node_ptr)
  : option (list node_ptr) :=
  match ns with
  | [] => Some []
  | n :: r =>
      match f n with
      | None => None
      | Some test =>
          let keep :=
            match test with
            | ONumber d =>
                match position n all with
                | Some k => Some (double_eqb (DFinite (inject_Z (Z.of_nat k))) d)
                | None => None
                end
            | _ => Some (as_bool test)
            end in
          match keep, predicate_loop f all r with
          | Some true, Some acc => Some (n :: acc)
          | Some false, Some acc => Some acc
          | _, _ => None
          end
      end
  end.

(** [expression::evaluate(context)] with context node [cur] and context
    node set [cns]; [None] is a thrown [mxml::exception]. *)
Fixpoint eval (e : expr) (cur : node_ptr) (cns : list node_ptr) {struct e} : option object :=
  match e with
  | ERoot => Some (ONodeSet [[]])
  | EChildStep name => Some (ONodeSet (child_step doc cur name))
  | EPath l r =>
      match eval l cur cns with
      | Some (ONodeSet ns) =>
          match path_loop (fun n => eval r n ns) ns with
          | Some res => Some (ONodeSet res)
          | None => None
          end
      | _ => None   (* "filter does not evaluate to a node-set" *)
      end
  | EPredicate pth prd =>
      match eval pth cur cns with
      | Some (ONodeSet ns) =>
          match predicate_loop (fun n => eval prd n ns) ns ns with
          | Some res => Some (ONodeSet res)
          | None => None
          end
      | _ => None
      end
  | EVariable name => Some (get vars name)
  | ELiteral s => Some (OString s)
  | ENumber d => Some (ONumber d)
  | EEqual l r =>
      match eval l cur cns, eval r cur cns with
      | Some v1, Some v2 => Some (OBool (object_eqb from_chars to_string doc v1 v2))
      | _, _ => None
      end
  end.

(** [xpath_imp::evaluate(root, ctxt)]: evaluate at the document node with
    an empty context node set; the result must be a node set. *)
Definition xpath_evaluate (e : expr) : option (list node_ptr) :=
  match eval e [] [] with
  | Some (ONodeSet ns) => Some ns
  | _ => None   (* "object is not of type node-set" *)
  end.

End Eval.

(** [enum class CoreFunction], in declaration order. *)
Inductive core_function :=
| CFLast | CFPosition | CFCount | CFId | CFLocalName | CFNamespaceUri | CFName
| CFString | CFConcat | CFStartsWith | CFContains | CFSubstringBefore
| CFSubstringAfter | CFSubstring | CFStringLength | CFNormalizeSpace | CFTranslate
| CFBoolean | CFNot | CFTrue | CFFalse | CFLang | CFNumber | CFSum | CFFloor
| CFCeiling | CFRound | CFComment.

(** [CoreFunction(i)] for [i < kCoreFunctionCount]. *)
Definition all_core_functions : list core_function :=
  [CFLast; CFPosition; CFCount; CFId; CFLocalName; CFNamespaceUri; CFName;
   CFString; CFConcat; CFStartsWith; CFContains; CFSubstringBefore;
   CFSubstringAfter; CFSubstring; CFStringLength; CFNormalizeSpace; CFTranslate;
   CFBoolean; CFNot; CFTrue; CFFalse; CFLang; CFNumber; CFSum; CFFloor;
   CFCeiling; CFRound; CFComment].

(** [int(function)]. *)
Definition core_function_index (f : core_function) : nat :=
  match f with
  | CFLast => 0 | CFPosition => 1 | CFCount => 2 | CFId => 3 | CFLocalName => 4
  | CFNamespaceUri => 5 | CFName => 6 | CFString => 7 | CFConcat => 8
  | CFStartsWith => 9 | CFContains => 10 | CFSubstringBefore => 11
  | CFSubstringAfter => 12 | CFSubstring => 13 | CFStringLength => 14
  | CFNormalizeSpace => 15 | CFTranslate => 16 | CFBoolean => 17 | CFNot => 18
  | CFTrue => 19 | CFFalse => 20 | CFLang => 21 | CFNumber => 22 | CFSum => 23
  | CFFloor => 24 | CFCeiling => 25 | CFRound => 26 | CFComment => 27
  end.

Definition kOptionalArgument : Z := -100.

(** [kCoreFunctionInfo]: name and [arg_count] of each core function. *)
Definition kCoreFunctionInfo : list (string * Z) :=
  [("last", 0); ("position", 0); ("count", 1); ("id", 0);
   ("local-name", kOptionalArgument); ("namespace-uri", kOptionalArgument);
   ("name", kOptionalArgument); ("string", kOptionalArgument); ("concat", -2);
   ("starts-with", 2); ("contains", 2); ("substring-before", 2);
   ("substring-after", 2); ("substring", -2); ("string-length", kOptionalArgument);
   ("normalize-space", kOptionalArgument); ("translate", 3); ("boolean", 1);
   ("not", 1); ("true", 0); ("false", 0); ("lang", 0);
   ("number", kOptionalArgument); ("sum", 0); ("floor", 1); ("ceiling", 1);
   ("round", 1); ("comment", 1)]%string.

(** The loop of the lexer over [kCoreFunctionInfo]: the first index whose
    name equals [m_token_string]. *)
Fixpoint lookup_loop (i : nat) (info : list (string * Z)) (name : string) : option nat :=
  match info with
  | [] => None
  | (n, _) :: r => if String.eqb name n then Some i else lookup_loop (S i) r name
  end.

(** The function name token of the lexer: [m_token_function]; [None] is
    the thrown ["invalid function"]. *)
Definition lookup_function (name : string) : option core_function :=
  match lookup_loop 0 kCoreFunctionInfo name with
  | Some i => nth_error all_core_functions i
  | None => None
  end.

(** [kCoreFunctionInfo[int(function)].arg_count]. *)
Definition expected_arg_count (f : core_function) : Z :=
  snd (nth (core_function_index f) kCoreFunctionInfo (EmptyString, 0)).

(** A [core_function_expression<F>] built on the parsed arguments. *)
Record call := CoreCall { call_function : core_function; call_args : list expr }.

(** The checks and the [switch] of [xpath_imp::function_call] once the
    arguments are parsed: [None] is a thrown [mxml::exception]; [Some None]
    is the [expression_ptr result] left null by [default: break]. *)
Definition function_call (f : core_function) (args : list expr) : option (option call) :=
  let expected_arg_count := expected_arg_count f in
  let size := Z.of_nat (length args) in
  let switch :=
    match f with
    | CFSubstring => None     (* no case: default *)
    | _ => Some (CoreCall f args)
    end in
  if 0 <? expected_arg_count then
    if negb (size =? expected_arg_count) then None else Some switch
  else if expected_arg_count =? kOptionalArgument then
    if 1 <? size then None else Some switch
  else if (expected_arg_count <? 0) && (size <? - expected_arg_count) then None
  else Some switch.

End XPath.

(* ================================================================== *)
(** ** Further text utilities (src/src/text.cxx) *)

Module TextExt.
Local Open Scope Z_scope.

(** [static_cast<char>(v)] of an [unsigned] value: its low byte. *)
Definition to_char (v : Z) : Z := Z.land v 255.

(** [append(std::string& s, char32_t uc)]: [s] with the UTF-8 encoding
    of [uc] added at the end. *)
Definition append (s : list Z) (uc : Z) : list Z :=
  s ++
  (if uc <? 128 then [to_char uc]
   else if uc <? 2048 then
     [to_char (Z.lor 192 (Z.shiftr uc 6)); to_char (Z.lor 128 (Z.land uc 63))]
   else if uc <? 65536 then
     [to_char (Z.lor 224 (Z.shiftr uc 12));
      to_char (Z.lor 128 (Z.land (Z.shiftr uc 6) 63));
      to_char (Z.lor 128 (Z.land uc 63))]
   else
     [to_char (Z.lor 240 (Z.shiftr uc 18));
      to_char (Z.lor 128 (Z.land (Z.shiftr uc 12) 63));
      to_char (Z.lor 128 (Z.land (Z.shiftr uc 6) 63));
      to_char (Z.lor 128 (Z.land uc 63))]).

(** The [do ... while] loop of [pop_back_char]: [cur] is [*ch] and
    [before] the bytes in front of [ch], nearest first.  Returns
    [result], [o], the byte under [ch] when the loop stops and the bytes in
    front of it; [None] when [--ch] steps in front of [s.begin()] (undefined
    behaviour: a string whose only byte has its high bit set).  The shifts
    are done in [Z]; in the source a shift count of 32 or more (six or more
    continuation bytes) is undefined as well. *)
Fixpoint pop_back_go (fuel : nat) (result o cur : Z) (before : list Z)
  : option (Z * Z * Z * list Z) :=
  match fuel with
  | O => None
  | S f =>
      let result' := Z.lor result (Z.shiftl (Z.land cur 63) o) in
      let o' := o + 6 in
      match before with
      | [] => None
      | c :: before' =>
          if negb (match before' with [] => true | _ => false end) && (Z.land c 192 =? 128)
          then pop_back_go f result' o' c before'
          else Some (result', o', c, before')
      end
  end.

(** [pop_back_char(std::string& s)]: the decoded character and the string
    after the [erase]. *)
Definition pop_back_char (s : list Z) : option (Z * list Z) :=
  match rev s with
  | [] => Some (0, s)
  | last :: before =>
      if Z.land last 128 =? 0 then Some (last, rev before)
      else
        match pop_back_go (length s) 0 0 last before with
        | None => None
        | Some (result, o, lead, before') =>
            let result :=
              if o =? 6 then Z.lor result (Z.shiftl (Z.land lead 31) 6)
              else if o =? 12 then Z.lor result (Z.shiftl (Z.land lead 15) 12)
              else if o =? 18 then Z.lor result (Z.shiftl (Z.land lead 7) 18)
              else result in
            Some (result, rev before')
      end
  end.

End TextExt.

(* ================================================================== *)
(** ** Further element members (src/src/node.cxx, src/include/mxml/node.hpp) *)

Module DomExt.
Import Dom.

(** [element::get_attribute(qname)]: the value of the attribute found by
    [m_attributes.find(qname)], or the empty string. *)
Definition get_attribute (l : list attribute) (qname : string) : list Z :=
  match find_attr l qname with
  | Some i => match nth_error l i with Some a => at_value a | None => [] end
  | None => []
  end.

(** [element::set_attribute(qname, value)]: [m_attributes.emplace(qname,
    value)]; the [attribute] constructor's [id] defaults to [false]. *)
Definition set_attribute (l : list attribute) (qname : string) (value : list Z) : list attribute :=
  fst (fst (attr_emplace l (mk_attribute qname value false))).

(** Unlink the node at position [i] ([basic_node_list::erase_impl]). *)
Fixpoint remove_nth {A : Type} (i : nat) (l : list A) : list A :=
  match l, i with
  | [], _ => []
  | _ :: r, O => r
  | x :: r, S j => x :: remove_nth j r
  end.

(** [element::id()]: the value of the first attribute flagged as an ID,
    or the empty string. *)
Definition element_id (l : list attribute) : list Z :=
  match find at_id l with Some a => at_value a | None => [] end.

(** [attribute_set::erase(key)]: erase the attribute found by [find(key)]
    and return the number erased (0 or 1). *)
Definition attr_erase (l : list attribute) (key : string) : list attribute * nat :=
  match find_attr l key with
  | Some i => (remove_nth i l, 1%nat)
  | None => (l, 0%nat)
  end.

(** [attribute_set::contains(key)]: [find(key) != end()]. *)
Definition attr_contains (l : list attribute) (key : string) : bool :=
  match find_attr l key with Some _ => true | None => false end.

(** [n.type() == node_type::text or n.type() == node_type::cdata] *)
Definition is_text_or_cdata (n : node) : bool :=
  match n with NText _ | NCData _ => true | _ => false end.

(** [element::get_content()]: the concatenated [get_text()] of the text
    and cdata children. *)
Definition get_content (cs : list node) : list Z :=
  flat_map (fun n => match n with NText t | NCData t => t | _ => [] end) cs.

(** [element::add_text(s)]: when [nodes().back()] is a text node, [s] is
    appended to it; otherwise (including the empty list, whose [back()]
    is the list header) a new text node is added at the end. *)
Definition add_text (cs : list node) (s : list Z) : list node :=
  match rev cs with
  | NText t :: r => rev r ++ [NText (t ++ s)]
  | _ => cs ++ [NText s]
  end.

(** The loop of [element::set_content(s)] over the circular node list,
    with the iterator as a position ([length l] is [end()], the header):
    [n = nn.erase(n)] yields the node that followed, and the [++n] of the
    loop header then steps past it; from [end()] [++n] moves to the
    header's successor, the first node. *)
Fixpoint set_content_loop (fuel : nat) (l : list node) (i : nat) : list node :=
  match fuel with
  | O => l
  | S f =>
      match nth_error l i with
      | None => l
      | Some n =>
          if is_text_or_cdata n then
            let l' := remove_nth i l in
            let j := if Nat.eqb i (length l') then O else S i in
            set_content_loop f l' j
          else set_content_loop f l (S i)
      end
  end.

(** [element::set_content(s)]: the loop, then [nn.emplace_back(text(s))].
    The loop ends within [(length l + 1)^2] steps: each step either
    advances the iterator or removes a node. *)
Definition set_content (cs : list node) (s : list Z) : list node :=
  set_content_loop (S (length cs) * S (length cs)) cs O ++ [NText s].

(** [element::flatten_text()]: the node list as the part already passed
    [p] and the part from the iterator on; a text node followed by a text
    node takes over its text and the follower is erased, otherwise
    [n = n->m_next] (the last node's successor is the header, [end()]). *)
Fixpoint flatten_loop (fuel : nat) (p r : list node) : list node :=
  match fuel with
  | O => p ++ r
  | S f =>
      match r with
      | [] => p
      | NText t :: NText u :: r' => flatten_loop f p (NText (t ++ u) :: r')
      | n :: r' => flatten_loop f (p ++ [n]) r'
      end
  end.

Definition flatten_text (cs : list node) : list node :=
  flatten_loop (length cs) [] cs.

(** The part of a qualified name before its first [':'] ([qn.find(':')]
    and [qn.substr(0, s)]), if it has one. *)
Fixpoint before_colon (q : string) : option string :=
  match q with
  | EmptyString => None
  | String c r =>
      if Ascii.eqb c ":"%char then Some EmptyString
      else option_map (String c) (before_colon r)
  end.

(** [node::get_prefix()]: the part before the first colon, else "".
    ([node::name()], the part after it, is [XPath.local_name].) *)
Definition get_prefix (qn : string) : string :=
  match before_colon qn with Some p => p | None => EmptyString end.


Definition is_text (n : node) : bool :=
  match n with NText _ => true | _ => false end.

Definition starts_with_text (l : list node) : bool :=
  match l with NText _ :: _ => true | _ => false end.

(** Two text nodes next to each other somewhere in the list. *)
Fixpoint text_run (l : list node) : bool :=
  match l with
  | [] => false
  | x :: r => (is_text x && starts_with_text r) || text_run r
  end.

Definition starts_with_tc (l : list node) : bool :=
  match l with x :: _ => is_text_or_cdata x | [] => false end.

(** Two text or cdata nodes next to each other somewhere in the list. *)
Fixpoint tc_run (l : list node) : bool :=
  match l with
  | [] => false
  | x :: r => (is_text_or_cdata x && starts_with_tc r) || tc_run r
  end.

Definition not_tc (n : node) : bool := negb (is_text_or_cdata n).

Definition colon_free (s : string) : bool :=
  forallb (fun c => negb (Ascii.eqb c ":"%char)) (list_ascii_of_string s).

Fixpoint ends_with_text (l : list node) : bool :=
  match l with
  | [] => false
  | [x] => is_text x
  | _ :: r => ends_with_text r
  end.

End DomExt.

(* ================================================================== *)
(** ** Attribute and text output and comparison (src/src/node.cxx) *)

Module SerializerExt.
Import Serializer.
Local Open Scope Z_scope.

(** [attribute::write(os, fmt)]: a newline and [indent_width] spaces, or
    one space; then the qualified name, [=] and a double quote, the value through [write_string] with
    [escape_quot] set and [trim] unset, and the closing quote.  [None] is
    the exception [write_string] throws. *)
Definition attribute_write (fmt : format_info) (a : Dom.attribute) : option (list Z) :=
  match write_string (escape_white_space fmt) true false (version fmt) (Dom.at_value a) with
  | None => None
  | Some v =>
      Some ((if Nat.eqb (indent_width fmt) 0 then [32] else 10 :: repeat 32 (indent_width fmt)) ++
            bytes_of (Dom.at_qname a) ++ [61; 34] ++ v ++ [34])
  end.

(** [text::is_space()]: every byte is a space, tab, LF or CR. *)
Definition is_space (t : list Z) : bool :=
  forallb (fun ch => (ch =? 32) || (ch =? 9) || (ch =? 10) || (ch =? 13)) t.

(** [text::equals(n)]: both texts trimmed, then compared. *)
Definition text_equals (t u : list Z) : bool :=
  Text.bytes_eqb (Text.trim t) (Text.trim u).

(** A printable ASCII byte other than the four markup characters. *)
Definition plain_byte (b : Z) : bool :=
  (32 <=? b) && (b <? 127) && negb (b =? 34) && negb (b =? 38) &&
  negb (b =? 60) && negb (b =? 62).

Definition markup_free (eq : bool) (o : list Z) : Prop :=
  forall x, In x o -> x <> 60 /\ x <> 62 /\ (eq = true -> x <> 34).

End SerializerExt.

(* ================================================================== *)
(** ** Core XPath functions (src/src/xpath.cxx) *)

Module XPathExt.
Import QArith_base XPath.
Local Open Scope Z_scope.

(** [std::string::starts_with(t)] on [s]. *)
Fixpoint starts_with (s t : list Z) {struct t} : bool :=
  match t, s with
  | [], _ => true
  | y :: t', x :: s' => (x =? y) && starts_with s' t'
  | _ :: _, [] => false
  end.

(** [s.find(t)]: the first position from [i] on at which [t] occurs
    ([None] is [npos]). *)
Fixpoint string_find_go (s t : list Z) (i : nat) : option nat :=
  if starts_with s t then Some i
  else match s with
       | [] => None
       | _ :: s' => string_find_go s' t (S i)
       end.

Definition string_find (s t : list Z) : option nat := string_find_go s t 0.

(** [f.find(c)] for a single [char]. *)
Fixpoint find_char (f : list Z) (c : Z) : option nat :=
  match f with
  | [] => None
  | x :: r => if x =? c then Some 0%nat else option_map S (find_char r c)
  end.

(** The loop of [normalize-space]: [space] starts true; a white-space
    byte adds one space unless [space] is set, and sets it; any other
    byte is copied and clears it.  Returns the result and [space]. *)
Fixpoint normalize_loop (space : bool) (result s : list Z) : list Z * bool :=
  match s with
  | [] => (result, space)
  | c :: r =>
      if Text.isspace c then
        normalize_loop true (if space then result else result ++ [32]) r
      else normalize_loop false (result ++ [c]) r
  end.

(** [normalize-space]: the loop, then [result.erase(result.end() - 1)]
    when the result is not empty and [space] is set. *)
Definition normalize_space (s : list Z) : list Z :=
  let '(result, space) := normalize_loop true [] s in
  if negb (match result with [] => true | _ => false end) && space
  then removelast result else result.

(** The bytes [normalize_loop space] appends for [s], and its final
    [space] flag. *)
Fixpoint normalize_out (space : bool) (s : list Z) : list Z :=
  match s with
  | [] => []
  | c :: r =>
      if Text.isspace c then (if space then [] else [32]) ++ normalize_out true r
      else c :: normalize_out false r
  end.

Fixpoint normalize_flag (space : bool) (s : list Z) : bool :=
  match s with
  | [] => space
  | c :: r => normalize_flag (Text.isspace c) r
  end.

(** No two spaces next to each other. *)
Fixpoint no_double_space (l : list Z) : bool :=
  match l with
  | x :: ((y :: _) as r) => negb ((x =? 32) && (y =? 32)) && no_double_space r
  | _ => true
  end.

(** A space, or a byte that is not white space. *)
Definition space_or_text (c : Z) : bool := (c =? 32) || negb (Text.isspace c).

Section CoreFunctions.
Variables (to_string : double -> list Z) (doc : list Dom.node).

Local Abbreviation str := (as_string to_string doc).

Definition is_empty (s : list Z) : bool :=
  match s with [] => true | _ => false end.

(** [core_function_expression<StartsWith>::evaluate] on the values of
    its first and last arguments. *)
Definition starts_with_fn (v1 v2 : object) : object :=
  OBool (is_empty (str v2) || starts_with (str v1) (str v2)).

(** [core_function_expression<Contains>::evaluate] *)
Definition contains_fn (v1 v2 : object) : object :=
  OBool (match string_find (str v1) (str v2) with Some _ => true | None => false end).

(** [core_function_expression<SubstringBefore>::evaluate] *)
Definition substring_before_fn (v1 v2 : object) : object :=
  OString (if is_empty (str v2) then []
           else match string_find (str v1) (str v2) with
                | Some p => firstn p (str v1)
                | None => []
                end).

(** [core_function_expression<SubstringAfter>::evaluate] *)
Definition substring_after_fn (v1 v2 : object) : object :=
  OString (if is_empty (str v2) then str v1
           else match string_find (str v1) (str v2) with
                | Some p =>
                    if Nat.ltb (p + length (str v2)) (length (str v1))
                    then skipn (p + length (str v2)) (str v1)
                    else []
                | None => []
                end).

(** [core_function_expression<NormalizeSpace>::evaluate]: the argument's
    string value, or the context node's [str()] without an argument. *)
Definition normalize_space_fn (arg : option object) (cur : node_ptr) : object :=
  OString (normalize_space (match arg with Some v => str v | None => node_str doc cur end)).

(** [core_function_expression<Translate>::evaluate]: the second and
    third values are read with [as<const std::string&>], which throws
    ([None]) unless they are strings; each byte of the first value is
    kept when [f.find(c)] fails, replaced by [r[fi]] when [fi <
    r.length()], and dropped otherwise. *)
Definition translate_fn (v1 v2 v3 : object) : option object :=
  match v2, v3 with
  | OString f, OString r =>
      Some (OString (flat_map (fun c =>
                       match find_char f c with
                       | None => [c]
                       | Some fi => match nth_error r fi with Some d => [d] | None => [] end
                       end) (str v1)))
  | _, _ => None
  end.

End CoreFunctions.

End XPathExt.

(* ================================================================== *)
(** ** Lists of names in attribute values (src/src/doctype.cpp) *)

Module DoctypeExt.
Import Doctype.

(** A name as [attribute::is_name] accepts it: a name start character
    followed by name characters. *)
Definition name_ok (n : list Z) : bool :=
  match n with
  | c :: r => nsc c && forallb nc r
  | [] => false
  end.

(** A non-empty run of white space. *)
Definition sep_ok (w : list Z) : bool :=
  match w with
  | [] => false
  | _ => forallb Text.isspace w
  end.

(** The name [n0] followed by each pair's separator and name. *)
Definition join_ws (n0 : list Z) (rest : list (list Z * list Z)) : list Z :=
  n0 ++ flat_map (fun p => fst p ++ snd p) rest.

(** The same names separated by single spaces. *)
Definition join_sp (n0 : list Z) (rest : list (list Z * list Z)) : list Z :=
  n0 ++ flat_map (fun p => 32%Z :: snd p) rest.

End DoctypeExt.

(* ================================================================== *)
(** * Theorems *)

Module DoctypeFacts.
Import Doctype.

Lemma seq_go_spec (af : state -> bool * bool * state) :
  forall rest prev r d prev' rest',
  seq_go af prev rest = (r, d, prev', rest') ->
  seq_advance af prev rest r d prev' rest'.
Proof.
  unfold seq_advance.
  induction rest as [| x rest IH]; intros prev r d prev' rest' H; simpl in H.
  - inversion H; subst. exists [], [], []. rewrite !app_nil_r.
    split; [reflexivity | split; [reflexivity | split; [constructor | left; auto]]].
  - destruct (af x) as [[r0 d0] x'] eqn:Ex.
    destruct (negb r0 && d0) eqn:Eb.
    + apply andb_true_iff in Eb as [Er Ed]. apply negb_true_iff in Er. subst r0 d0.
      destruct rest as [| z rest2].
      * inversion H; subst. exists [x], [x'], [].
        split; [reflexivity | split; [reflexivity | split; [auto | left; auto]]].
      * apply IH in H as (old & new & tail & E1 & E2 & F & T).
        exists (x :: old), (x' :: new), tail. rewrite <- app_assoc in E2.
        split; [rewrite E1; reflexivity | split; [exact E2 | split; [auto | exact T]]].
    + inversion H; subst. exists [], [], (x :: rest). rewrite !app_nil_r.
      split; [reflexivity | split; [reflexivity | split; [constructor | right]]].
      exists x, x', rest. auto.
Qed.

Lemma last_default {B} (a : B) (M : list B) (d1 d2 : B) :
  last (a :: M) d1 = last (a :: M) d2.
Proof.
  revert a. induction M as [| b M IH]; intros a; [reflexivity |].
  change (last (b :: M) d1 = last (b :: M) d2). apply IH.
Qed.

Lemma last_map_cons {A B} (g : A -> B) (x : A) (l : list A) (dflt : B) :
  last (map g (x :: l)) dflt = last (map g l) (g x).
Proof.
  destruct l as [| y l]; [reflexivity |]. cbn [map].
  change (last (g y :: map g l) dflt = last (g y :: map g l) (g x)). apply last_default.
Qed.

Lemma choice_try_spec (af : state -> bool * bool * state) :
  forall rest k done_ rd r d l' lk,
  fst rd = false ->
  choice_try af k done_ rest rd = (r, d, l', lk) ->
  exists old new,
    Forall2 (fun y0 y => exists d0, af y0 = (false, d0, y)) old new /\
    ((exists y0 y t, rest = old ++ y0 :: t /\ af y0 = (true, d, y) /\ r = true /\
        l' = done_ ++ new ++ y :: t /\ lk = Some (k + length old)) \/
     (rest = old /\ l' = done_ ++ new /\ r = false /\ lk = None /\
      d = last (map (fun y0 => snd (fst (af y0))) rest) (snd rd))).
Proof.
  induction rest as [| x rest IH]; intros k done_ rd r d l' lk Hrd H; simpl in H.
  - injection H as <- <- <- <-. exists [], []. split; [constructor |].
    right. rewrite app_nil_r. auto.
  - destruct (af x) as [[r0 d0] x'] eqn:Ex. destruct r0.
    + injection H as <- <- <- <-. exists [], []. split; [constructor |].
      left. exists x, x', rest. rewrite Nat.add_0_r. auto.
    + apply IH in H as (old & new & F & C); [| reflexivity].
      exists (x :: old), (x' :: new). split; [constructor; [exists d0; exact Ex | exact F] |].
      destruct C as [(y0 & y & t & E1 & E2 & E3 & E4 & E5) | (E1 & E2 & E3 & E4 & E5)].
      * left. exists y0, y, t. rewrite E1, E4, E5, <- app_assoc. cbn [length].
        repeat split; auto; try (f_equal; lia).
      * right. rewrite E2, <- app_assoc. repeat split; auto.
        -- rewrite E1. reflexivity.
        -- rewrite last_map_cons, Ex. exact E5.
Qed.

(** C1 (amended): the compiled FSM matches greedily.  A [Seq] state's
    initial state allows the empty sequence iff all its children do; on
    each name, the [Seq] offers it to its sub-states in order from
    [m_next] (from the first one in the [Start] state), passing over a
    sub-state only after it answered (not accepted, done), and a later
    sub-state answers only then.  A [Choice] in its [Start] state offers
    the name to its choices in order and commits to the first one that
    accepts it: that choice gives the answer and the [Choice] locks on
    it; a [Choice] that has locked on a branch drives only that
    branch. *)
Theorem C1_seq_choice_greedy :
  (forall l, allow_empty (create_state (CSeq l)) =
             forallb (fun c => allow_empty (create_state c)) l) /\
  (forall f prev rest st name r d s',
     allow (S f) (SSeq prev rest st) name = (r, d, s') ->
     exists prev' rest' st', s' = SSeq prev' rest' st' /\
       seq_advance (fun x => allow f x name)
         (fst (seq_cursor prev rest st)) (snd (seq_cursor prev rest st))
         r d prev' rest') /\
  (forall f l m i name r d s',
     allow (S f) (SChoice l m 0 i) name = (r, d, s') ->
     exists l' locked, choice_commit (fun x => allow f x name) l r d l' locked /\
       s' = match locked with
            | Some k => SChoice l' m 1 k
            | None => SChoice l' m 0 i
            end) /\
  (forall f l m k i name r d s',
     allow (S f) (SChoice l m (S k) i) name = (r, d, s') ->
     exists x', allow f (nth i l SEmpty) name = (r, d, x') /\
                s' = SChoice (set_nth i l x') m (S k) i).
Proof.
  split; [| split; [| split]].
  - intro l. simpl. induction l as [| c l IH]; simpl; [reflexivity |]. simpl in IH. rewrite IH. reflexivity.
  - intros f prev rest st name r d s' H. destruct st as [| st]; cbn [allow] in H.
    + simpl. destruct (prev ++ rest) as [| x l] eqn:E.
      * inversion H; subst. exists [], [], 0. split; [reflexivity |].
        exists [], [], []. split; [reflexivity | split; [reflexivity | split; [constructor | left; auto]]].
      * destruct (seq_go (fun x0 => allow f x0 name) [] (x :: l)) as [[[r0 d0] p] q] eqn:G.
        inversion H; subst. exists p, q, 1. split; [reflexivity |].
        apply seq_go_spec. exact G.
    + simpl. destruct (seq_go (fun x0 => allow f x0 name) prev rest) as [[[r0 d0] p] q] eqn:G.
      inversion H; subst. exists p, q, (S st). split; [reflexivity |].
      apply seq_go_spec. exact G.
  - intros f l m i name r d s' H. cbn [allow] in H.
    destruct (choice_try (fun x => allow f x name) 0 [] l (false, false))
      as [[[r0 d0] l0] lk] eqn:G.
    apply choice_try_spec in G as (old & new & F & C); [| reflexivity].
    exists l0, lk. destruct lk as [k |]; injection H as <- <- <-;
      (split; [| reflexivity]); exists old, new; (split; [exact F |]);
      destruct C as [(y0 & y & t & E1 & E2 & E3 & E4 & E5) | (E1 & E2 & E3 & E4 & E5)];
      try discriminate.
    + left. exists y0, y, t. repeat split; auto.
    + right. repeat split; auto.
  - intros f l m k i name r d s' H. simpl in H.
    destruct (allow f (nth i l SEmpty) name) as [[r0 d0] x'] eqn:E.
    inversion H; subst. exists x'. auto.
Qed.

(** C1 counterexample: for [(a, b) | (a, c)] the FSM locks on the first
    branch at [a] and rejects [a c], which the reference matcher accepts. *)
Lemma C1_greedy_choice_rejects :
  fsm_accepts spec_ab_or_ac ["a"; "c"]%string = false /\
  matches spec_ab_or_ac ["a"; "c"]%string.
Proof.
  split.
  - vm_compute. reflexivity.
  - unfold spec_ab_or_ac. apply (m_choice (CSeq [CElement "a"; CElement "c"])).
    + simpl. auto.
    + change ["a"%string; "c"%string] with (app ["a"%string] (app ["c"%string] [])).
      apply m_seq_cons; [apply m_element |].
      apply m_seq_cons; [apply m_element | apply m_seq_nil].
Qed.

(** What [validate_value] checks for an [NMTOKEN] attribute that is not
    [#FIXED]: the trimmed value is non-empty and every character after
    the first is a name character. *)
Lemma nmtoken_validate_spec (a : attribute) (v : list Z) (es : list entity) :
  a_type a = ANMTOKEN -> a_default a <> DFixed ->
  fst (validate_value a v es) =
  match Text.trim v with [] => false | _ :: cs => forallb nc cs end.
Proof.
  intros Ht Hd. unfold validate_value. rewrite Ht.
  unfold is_nmtoken.
  destruct (Text.trim v) as [| c cs] eqn:E;
    destruct (a_default a); try (exfalso; apply Hd; reflexivity); simpl;
    try reflexivity;
    induction cs as [| x cs IH]; simpl; auto.
Qed.

(** C6 (code bug): [is_nmtoken] never tests the first character, so the
    value ["!"] of an [NMTOKEN] attribute is accepted although ['!'] is
    not a name character. *)
Theorem C6_nmtoken_first_char_unchecked :
  validate_value nmtoken_attr [33%Z] [] = (true, [33%Z]) /\
  Text.is_name_char (Text.char_to_u32 33) = false.
Proof. split; reflexivity. Qed.

End DoctypeFacts.

(** Bit-level facts about the bytes of a UTF-8 encoding. *)
Module TextBits.
Import Text TextExt.
Local Open Scope Z_scope.

Lemma range_check (P : Z -> bool) (n : nat) :
  forallb P (map Z.of_nat (seq 0 n)) = true ->
  forall x, 0 <= x < Z.of_nat n -> P x = true.
Proof.
  intros H x Hx. rewrite forallb_forall in H. apply H.
  apply in_map_iff. exists (Z.to_nat x). split.
  - apply Z2Nat.id. lia.
  - apply in_seq. lia.
Qed.

Ltac range_check n x :=
  match goal with
  | |- ?b = true =>
      let Px := eval pattern x in b in
      match Px with
      | ?P _ => exact (range_check P n ltac:(vm_compute; reflexivity) x ltac:(lia))
      end
  end.

Lemma land_mul_pow2 (a b k : Z) :
  0 <= k -> 0 <= b < 2 ^ k -> Z.land (a * 2 ^ k) b = 0.
Proof.
  intros Hk Hb. apply Z.bits_inj'; intros n Hn.
  rewrite Z.land_spec, Z.bits_0.
  destruct (Z.lt_ge_cases n k) as [Hnk | Hnk].
  - rewrite Z.mul_pow2_bits_low by lia. reflexivity.
  - replace (Z.testbit b n) with false; [apply andb_false_r|].
    rewrite <- (Z.add_0_l n), <- Z.div_pow2_bits by lia.
    rewrite Z.div_small; [reflexivity|].
    split; [lia|]. apply Z.lt_le_trans with (2 ^ k); [lia|].
    apply Z.pow_le_mono_r; lia.
Qed.

Lemma lor_mul_pow2 (a b k : Z) :
  0 <= k -> 0 <= b < 2 ^ k -> Z.lor (a * 2 ^ k) b = a * 2 ^ k + b.
Proof.
  intros Hk Hb. pose proof (Z.add_lor_land (a * 2 ^ k) b) as E.
  rewrite land_mul_pow2 in E by assumption. lia.
Qed.

Lemma lor_shiftl (a b k : Z) :
  0 <= k -> 0 <= b < 2 ^ k -> Z.lor (Z.shiftl a k) b = a * 2 ^ k + b.
Proof.
  intros Hk Hb. rewrite Z.shiftl_mul_pow2 by lia. apply lor_mul_pow2; assumption.
Qed.

Ltac lor_perm := apply Z.bits_inj'; intros ? _; rewrite !Z.lor_spec; btauto.

Lemma land63 (x : Z) : Z.land x 63 = x mod 64.
Proof. change 63 with (Z.ones 6). rewrite Z.land_ones by lia. reflexivity. Qed.


Lemma lor_shiftl2 (a b j k : Z) :
  0 <= j -> 0 <= k -> 0 <= b < 2 ^ k ->
  Z.lor (Z.shiftl a (k + j)) (Z.shiftl b j) = Z.shiftl (a * 2 ^ k + b) j.
Proof.
  intros Hj Hk Hb. rewrite <- Z.shiftl_shiftl by lia.
  rewrite <- Z.shiftl_lor, lor_shiftl by assumption. reflexivity.
Qed.

Lemma cont_byte (x : Z) : 0 <= x < 64 ->
  to_char (Z.lor 128 x) = 128 + x /\ Z.land (128 + x) 192 = 128 /\
  Z.land (128 + x) 63 = x /\ Z.land (128 + x) 128 <> 0.
Proof.
  intros Hx.
  assert (E : (to_char (Z.lor 128 x) =? 128 + x) && (Z.land (128 + x) 192 =? 128) &&
                        (Z.land (128 + x) 63 =? x) && negb (Z.land (128 + x) 128 =? 0) = true)
    by range_check 64%nat x.
  cbn beta in E. rewrite !andb_true_iff, negb_true_iff, !Z.eqb_eq, Z.eqb_neq in E. tauto.
Qed.

Lemma lead2_byte (y : Z) : 0 <= y < 32 ->
  to_char (Z.lor 192 y) = 192 + y /\ Z.land (192 + y) 224 = 192 /\
  Z.land (192 + y) 31 = y /\ Z.land (192 + y) 192 <> 128.
Proof.
  intros Hy.
  assert (E : (to_char (Z.lor 192 y) =? 192 + y) && (Z.land (192 + y) 224 =? 192) &&
                        (Z.land (192 + y) 31 =? y) && negb (Z.land (192 + y) 192 =? 128) = true)
    by range_check 32%nat y.
  cbn beta in E. rewrite !andb_true_iff, negb_true_iff, !Z.eqb_eq, Z.eqb_neq in E. tauto.
Qed.

Lemma lead3_byte (y : Z) : 0 <= y < 16 ->
  to_char (Z.lor 224 y) = 224 + y /\ Z.land (224 + y) 224 <> 192 /\
  Z.land (224 + y) 240 = 224 /\ Z.land (224 + y) 15 = y /\ Z.land (224 + y) 192 <> 128.
Proof.
  intros Hy.
  assert (E : (to_char (Z.lor 224 y) =? 224 + y) && negb (Z.land (224 + y) 224 =? 192) &&
                        (Z.land (224 + y) 240 =? 224) && (Z.land (224 + y) 15 =? y) &&
                        negb (Z.land (224 + y) 192 =? 128) = true)
    by range_check 16%nat y.
  cbn beta in E. rewrite !andb_true_iff, !negb_true_iff, !Z.eqb_eq, !Z.eqb_neq in E. tauto.
Qed.

Lemma lead4_byte (y : Z) : 0 <= y < 8 ->
  to_char (Z.lor 240 y) = 240 + y /\ Z.land (240 + y) 224 <> 192 /\
  Z.land (240 + y) 240 <> 224 /\ Z.land (240 + y) 248 = 240 /\
  Z.land (240 + y) 7 = y /\ Z.land (240 + y) 192 <> 128.
Proof.
  intros Hy.
  assert (E : (to_char (Z.lor 240 y) =? 240 + y) && negb (Z.land (240 + y) 224 =? 192) &&
                        negb (Z.land (240 + y) 240 =? 224) && (Z.land (240 + y) 248 =? 240) &&
                        (Z.land (240 + y) 7 =? y) && negb (Z.land (240 + y) 192 =? 128) = true)
    by range_check 8%nat y.
  cbn beta in E. rewrite !andb_true_iff, !negb_true_iff, !Z.eqb_eq, !Z.eqb_neq in E. tauto.
Qed.

Lemma ascii_byte (c : Z) : 0 <= c < 128 -> to_char c = c /\ Z.land c 128 = 0.
Proof.
  intros Hc.
  assert (E : (to_char c =? c) && (Z.land c 128 =? 0) = true) by range_check 128%nat c.
  cbn beta in E. rewrite !andb_true_iff, !Z.eqb_eq in E. tauto.
Qed.

Lemma gtb127 (b : Z) : 127 < b -> (b >? 127) = true.
Proof. intros H. apply Z.gtb_lt. exact H. Qed.

Lemma eqb_true (a b : Z) : a = b -> (a =? b) = true.
Proof. intros ->. apply Z.eqb_refl. Qed.

Lemma eqb_false (a b : Z) : a <> b -> (a =? b) = false.
Proof. apply Z.eqb_neq. Qed.

Lemma uc_div_bounds (uc k m : Z) : 0 <= uc < k * m -> 0 < m -> 0 < k -> 0 <= uc / m < k.
Proof. intros H Hm Hk. split; [apply Z.div_pos; lia | apply Z.div_lt_upper_bound; lia]. Qed.

(** [pop_front_char] decodes the UTF-8 encoding of a code point below
    2^21 back to it and stops right after it. *)
Lemma utf8_encoding_pop_front_char (uc : Z) (rest : list Z) :
  0 <= uc < 2 ^ 21 ->
  exists b bs, utf8_encoding uc = b :: bs /\ pop_front_char b (bs ++ rest) = Some (uc, rest).
Proof.
  intros Hu.
  pose proof (Z.mod_pos_bound uc 64 ltac:(lia)) as Hx.
  pose proof (Z.mod_pos_bound (uc / 64) 64 ltac:(lia)) as Hm.
  pose proof (Z.mod_pos_bound (uc / 4096) 64 ltac:(lia)) as Hn.
  unfold utf8_encoding.
  destruct (Z.ltb_spec uc 128) as [H1|H1];
    [|destruct (Z.ltb_spec uc 2048) as [H2|H2];
      [|destruct (Z.ltb_spec uc 65536) as [H3|H3]]];
    do 2 eexists; split; try reflexivity; unfold pop_front_char; cbn [app].
  - replace (uc >? 127) with false by (rewrite Z.gtb_ltb; symmetry; apply Z.ltb_ge; lia).
    reflexivity.
  - destruct (lead2_byte (uc / 64) ltac:(apply uc_div_bounds; lia)) as [_ [L1 [L2 _]]].
    destruct (cont_byte (uc mod 64) Hx) as [_ [C1 [C2 _]]].
    rewrite gtb127 by (pose proof (Z.div_pos uc 64); lia).
    rewrite eqb_true by exact L1. rewrite C1, Z.eqb_refl. cbn [negb].
    rewrite L2, C2, lor_shiftl by (change (2 ^ 6) with 64; lia).
    f_equal; f_equal. change (2 ^ 6) with 64. Z.div_mod_to_equations. lia.
  - destruct (lead3_byte (uc / 4096) ltac:(apply uc_div_bounds; lia)) as [_ [L0 [L1 [L2 _]]]].
    destruct (cont_byte (uc / 64 mod 64) Hm) as [_ [C1 [C2 _]]].
    destruct (cont_byte (uc mod 64) Hx) as [_ [D1 [D2 _]]].
    rewrite gtb127 by (pose proof (Z.div_pos uc 4096); lia).
    rewrite (eqb_false _ _ L0), (eqb_true _ _ L1), C1, D1, Z.eqb_refl. cbn [negb orb].
    rewrite L2, C2, D2.
    change 12 with (6 + 6). rewrite lor_shiftl2 by (change (2 ^ 6) with 64; lia).
    rewrite lor_shiftl by (change (2 ^ 6) with 64; lia).
    change (2 ^ 6) with 64.
    f_equal; f_equal. change (2 ^ 6) with 64. Z.div_mod_to_equations. lia.
  - destruct (lead4_byte (uc / 262144) ltac:(apply uc_div_bounds; lia))
      as [_ [L0 [L0' [L1 [L2 _]]]]].
    destruct (cont_byte (uc / 4096 mod 64) Hn) as [_ [B1 [B2 _]]].
    destruct (cont_byte (uc / 64 mod 64) Hm) as [_ [C1 [C2 _]]].
    destruct (cont_byte (uc mod 64) Hx) as [_ [D1 [D2 _]]].
    rewrite gtb127 by (pose proof (Z.div_pos uc 262144); lia).
    rewrite (eqb_false _ _ L0), (eqb_false _ _ L0'), (eqb_true _ _ L1), B1, C1, D1, Z.eqb_refl.
    cbn [negb orb].
    rewrite L2, B2, C2, D2.
    change 18 with (6 + 12). rewrite lor_shiftl2 by (change (2 ^ 6) with 64; lia).
    change 12 with (6 + 6). rewrite lor_shiftl2 by (change (2 ^ 6) with 64; lia).
    rewrite lor_shiftl by (change (2 ^ 6) with 64; lia).
    change (2 ^ 6) with 64.
    f_equal; f_equal. change (2 ^ 6) with 64. Z.div_mod_to_equations. lia.
Qed.

End TextBits.

Module TextFacts.
Import Text TextBits.
Local Open Scope Z_scope.

Lemma byte_cases (P : Z -> bool) :
  forallb P (map Z.of_nat (seq 0 256)) = true ->
  forall b, 0 <= b < 256 -> P b = true.
Proof.
  intros H b Hb. rewrite forallb_forall in H. apply H.
  apply in_map_iff. exists (Z.to_nat b). split.
  - apply Z2Nat.id. lia.
  - apply in_seq. lia.
Qed.

Lemma lead_length_high (b : Z) :
  0 <= b < 256 -> (0 < lead_length b)%nat -> (b >? 127) = true.
Proof.
  intros Hb Hl.
  assert (E : implb (Nat.ltb 0 (lead_length b)) (b >? 127) = true)
    by (apply (byte_cases (fun b => implb (Nat.ltb 0 (lead_length b)) (b >? 127)));
        [vm_compute; reflexivity | exact Hb]). apply Nat.ltb_lt in Hl. rewrite Hl in E. exact E.
Qed.

(** C7 (amended): on a non-empty range [b :: rest], [pop_front_char]
    returns an ASCII byte as itself; when the range starts with a valid
    UTF-8 encoded character (the encoding of a Unicode scalar value [uc])
    it returns [uc] and advances exactly past that encoding; on success it
    always advances past the lead byte and at most three more bytes; and
    for a lead byte of the form [110xxxxx], [1110xxxx] or [11110xxx] it
    fails exactly when the 1, 2 or 3 bytes that must follow are missing or
    are not all of the form [10xxxxxx]. *)
Theorem C7_pop_front_char_multibyte (b : Z) (rest : list Z) (Hb : 0 <= b < 256) :
  (b < 128 -> pop_front_char b rest = Some (b, rest)) /\
  (forall uc rest', is_scalar_value uc = true -> b :: rest = utf8_encoding uc ++ rest' ->
     pop_front_char b rest = Some (uc, rest')) /\
  (forall c rest', pop_front_char b rest = Some (c, rest') ->
     exists k, (k <= 3)%nat /\ rest = firstn k rest ++ rest') /\
  ((0 < lead_length b)%nat ->
     (pop_front_char b rest = None <->
      ~ ((lead_length b <= length rest)%nat /\
         forallb is_continuation (firstn (lead_length b) rest) = true))).
Proof.
  split; [| split; [| split]].
  - intro Hlt. unfold pop_front_char.
    replace (b >? 127) with false by (symmetry; rewrite Z.gtb_ltb; apply Z.ltb_ge; lia).
    reflexivity.
  - intros uc rest' Hs E.
    assert (Hu : 0 <= uc < 2 ^ 21).
    { unfold is_scalar_value in Hs. rewrite !andb_true_iff, Z.leb_le, Z.leb_le in Hs. lia. }
    destruct (utf8_encoding_pop_front_char uc rest' Hu) as (b0 & bs & Henc & Hp).
    rewrite Henc in E. cbn [app] in E. injection E as -> ->. exact Hp.
  - intros c rest' H. unfold pop_front_char in H.
    destruct (b >? 127); [| inversion H; subst; exists 0%nat; auto].
    destruct (Z.land b 224 =? 192).
    { destruct rest as [| c0 r]; [discriminate |].
      destruct (Z.land c0 192 =? 128); simpl in H; inversion H; subst.
      exists 1%nat. auto. }
    destruct (Z.land b 240 =? 224).
    { destruct rest as [| c0 [| c1 r]]; try discriminate.
      destruct (Z.land c0 192 =? 128), (Z.land c1 192 =? 128); simpl in H;
        inversion H; subst. exists 2%nat. auto. }
    destruct (Z.land b 248 =? 240).
    { destruct rest as [| c0 [| c1 [| c2 r]]]; try discriminate.
      destruct (Z.land c0 192 =? 128), (Z.land c1 192 =? 128), (Z.land c2 192 =? 128);
        simpl in H; inversion H; subst. exists 3%nat. auto. }
    inversion H; subst. exists 0%nat. auto.
  - intro Hl. pose proof (lead_length_high b Hb Hl) as Hh.
    unfold pop_front_char. rewrite Hh.
    unfold lead_length in *.
    destruct (Z.land b 224 =? 192).
    { destruct rest as [| c0 r]; simpl.
      - split; [intros _ [Hn _]; simpl in Hn; lia | reflexivity].
      - unfold is_continuation. destruct (Z.land c0 192 =? 128); simpl.
        + split; [discriminate | intro Hn; exfalso; apply Hn; split; [lia | reflexivity]].
        + split; [intros _ [_ Hf]; discriminate | reflexivity]. }
    destruct (Z.land b 240 =? 224).
    { destruct rest as [| c0 [| c1 r]]; simpl.
      - split; [intros _ [Hn _]; simpl in Hn; lia | reflexivity].
      - split; [intros _ [Hn _]; simpl in Hn; lia | reflexivity].
      - unfold is_continuation.
        destruct (Z.land c0 192 =? 128), (Z.land c1 192 =? 128); simpl;
          first [ split; [discriminate | intro Hn; exfalso; apply Hn; split; [lia | reflexivity]]
                | split; [intros _ [_ Hf]; discriminate | reflexivity] ]. }
    destruct (Z.land b 248 =? 240).
    { destruct rest as [| c0 [| c1 [| c2 r]]]; simpl;
        try (split; [intros _ [Hn _]; simpl in Hn; lia | reflexivity]).
      unfold is_continuation.
      destruct (Z.land c0 192 =? 128), (Z.land c1 192 =? 128), (Z.land c2 192 =? 128); simpl;
        first [ split; [discriminate | intro Hn; exfalso; apply Hn; split; [lia | reflexivity]]
              | split; [intros _ [_ Hf]; discriminate | reflexivity] ]. }
    simpl in Hl. lia.
Qed.

Lemma C7_pop_front_char_multibyte_witness :
  (0 <= 226 < 256) /\
  ((226 < 128 -> pop_front_char 226 [130; 172] = Some (226, [130; 172])) /\
   (forall uc rest', is_scalar_value uc = true -> [226; 130; 172] = utf8_encoding uc ++ rest' ->
      pop_front_char 226 [130; 172] = Some (uc, rest')) /\
   (forall c rest', pop_front_char 226 [130; 172] = Some (c, rest') ->
      exists k, (k <= 3)%nat /\ [130; 172] = firstn k [130; 172] ++ rest') /\
   ((0 < lead_length 226)%nat ->
      (pop_front_char 226 [130; 172] = None <->
       ~ ((lead_length 226 <= length [130; 172])%nat /\
          forallb is_continuation (firstn (lead_length 226) [130; 172]) = true)))).
Proof.
  split; [lia |].
  apply (C7_pop_front_char_multibyte 226 [130; 172]). lia.
Defined.

(** C7 counterexample: invalid UTF-8 that [pop_front_char] decodes
    without failing: the overlong form [C0 80] of U+0000 and a lone
    continuation byte [80]. *)
Lemma C7_invalid_utf8_accepted :
  pop_front_char 192 [128] = Some (0, []) /\
  pop_front_char 128 [] = Some (128, []).
Proof. split; reflexivity. Qed.

End TextFacts.

Module DomFacts.
Import Dom.

Lemma element_pos_count (l : list node) : element_pos l (element_count l) = length l.
Proof.
  unfold element_count. induction l as [|x r IH]; simpl; [reflexivity|].
  destruct (is_element x); simpl; rewrite IH; reflexivity.
Qed.

Lemma element_count_app (l1 l2 : list node) :
  element_count (l1 ++ l2) = element_count l1 + element_count l2.
Proof. unfold element_count. rewrite filter_app, length_app. reflexivity. Qed.

Lemma str_descendants (n : node) : str n = node_text n ++ flat_map node_text (descendants n).
Proof.
  revert n. fix IH 1. intros n. destruct n as [q a cs| t | t | t | tg t]; simpl;
    try (rewrite app_nil_r; reflexivity).
  induction cs as [|c cs IHcs]; simpl; [reflexivity|].
  rewrite flat_map_app. simpl. rewrite IHcs, (IH c), app_assoc. reflexivity.
Qed.

(** C2 (code_bug).  A document that already has a child element still
    accepts a further element through [emplace] / [emplace_back] (and
    through [insert] at any position): the override [document::insert_impl],
    which would throw, is never reached, because [node_list::insert_impl]
    calls the base version with a qualified name. *)
Theorem C2_document_accepts_second_element (l : list node) (q : string)
    (a : list attribute) (cs : list node) :
  child l <> None ->
  document_insert_impl l (length l) (NElement q a cs) = None /\
  document_emplace l (NElement q a cs) = Some (l ++ [NElement q a cs]) /\
  push_back KDocument l (NElement q a cs) = Some (l ++ [NElement q a cs]) /\
  element_count (l ++ [NElement q a cs]) = S (element_count l) /\
  (forall i, insert KDocument l i (NElement q a cs)
             = Some (insert_at l (element_pos l i) (NElement q a cs))).
Proof.
  intros Hc.
  assert (Hend : insert_at l (length l) (NElement q a cs) = l ++ [NElement q a cs]).
  { unfold insert_at. rewrite firstn_all, skipn_all. reflexivity. }
  split; [|split; [|split; [|split]]].
  - unfold document_insert_impl. destruct (child l); [reflexivity|congruence].
  - unfold document_emplace, emplace_back, emplace, insert, node_list_insert_impl,
      basic_insert_impl. rewrite element_pos_count, Hend. reflexivity.
  - unfold push_back, emplace, insert, node_list_insert_impl,
      basic_insert_impl. rewrite element_pos_count, Hend. reflexivity.
  - rewrite element_count_app. unfold element_count at 2. simpl. lia.
  - intros i. reflexivity.
Qed.

Lemma C2_document_accepts_second_element_witness :
  child [NElement "first" [] []] <> None /\
  (document_insert_impl [NElement "first" [] []] (length [NElement "first" [] []])
     (NElement "second" [] []) = None /\
   document_emplace [NElement "first" [] []] (NElement "second" [] [])
     = Some ([NElement "first" [] []] ++ [NElement "second" [] []]) /\
   push_back KDocument [NElement "first" [] []] (NElement "second" [] [])
     = Some ([NElement "first" [] []] ++ [NElement "second" [] []]) /\
   element_count ([NElement "first" [] []] ++ [NElement "second" [] []])
     = S (element_count [NElement "first" [] []]) /\
   (forall i, insert KDocument [NElement "first" [] []] i (NElement "second" [] [])
      = Some (insert_at [NElement "first" [] []] (element_pos [NElement "first" [] []] i)
                (NElement "second" [] [])))).
Proof.
  split; [simpl; discriminate|].
  apply (C2_document_accepts_second_element [NElement "first" [] []] "second" [] []).
  simpl; discriminate.
Defined.

(** C4 (corrected).  [e.str()] is the concatenation, in document order,
    of the text of every descendant text, cdata, comment and
    processing-instruction node (for a processing instruction its data,
    not its target). *)
Theorem C4_element_str_all_text_nodes (q : string) (a : list attribute) (cs : list node) :
  str (NElement q a cs) = flat_map node_text (descendants (NElement q a cs)).
Proof. rewrite str_descendants. reflexivity. Qed.

(** C4: a comment child contributes to [str()]. *)
Lemma C4_comment_in_str :
  str (NElement "e" [] [NText [97%Z]; NComment [98%Z]]) = [97%Z; 98%Z] /\
  flat_map text_or_cdata_text (descendants (NElement "e" [] [NText [97%Z]; NComment [98%Z]]))
    = [97%Z].
Proof. split; reflexivity. Qed.

Lemma find_attr_some (l : list attribute) (k : string) (i : nat) :
  find_attr l k = Some i -> exists b, nth_error l i = Some b /\ at_qname b = k.
Proof.
  revert i. induction l as [|x r IH]; intros i H; simpl in H; [discriminate|].
  destruct (String.eqb (at_qname x) k) eqn:E.
  - injection H as <-. exists x. split; [reflexivity|]. apply String.eqb_eq; exact E.
  - destruct (find_attr r k) as [j|] eqn:Ej; simpl in H; [|discriminate].
    injection H as <-. destruct (IH j eq_refl) as [b Hb]. exists b. exact Hb.
Qed.

Lemma find_attr_none (l : list attribute) (k : string) :
  find_attr l k = None -> ~ In k (map at_qname l).
Proof.
  induction l as [|x r IH]; simpl; intros H; [tauto|].
  destruct (String.eqb (at_qname x) k) eqn:E; [discriminate|].
  destruct (find_attr r k); simpl in H; [discriminate|].
  intros [Hx|Hin]; [|exact (IH eq_refl Hin)].
  apply String.eqb_neq in E. congruence.
Qed.

Lemma set_nth_length {A} (i : nat) (l : list A) (x : A) : length (Doctype.set_nth i l x) = length l.
Proof. revert i; induction l; intros [|i]; simpl; auto. Qed.

Lemma set_nth_same {A} (i : nat) (l : list A) (x : A) :
  i < length l -> nth_error (Doctype.set_nth i l x) i = Some x.
Proof.
  revert i; induction l; intros [|i] H; simpl in *; try lia; auto.
  apply IHl; lia.
Qed.

Lemma set_nth_other {A} (i j : nat) (l : list A) (x : A) :
  j <> i -> nth_error (Doctype.set_nth i l x) j = nth_error l j.
Proof.
  revert i j; induction l; intros [|i] [|j] H; simpl; auto; try lia.
Qed.

Lemma map_set_nth {A B} (f : A -> B) (i : nat) (l : list A) (x b : A) :
  nth_error l i = Some b -> f b = f x -> map f (Doctype.set_nth i l x) = map f l.
Proof.
  revert i; induction l as [|y t IH]; intros [|i] H Hf; simpl in *; try discriminate.
  - injection H as ->. rewrite Hf. reflexivity.
  - rewrite (IH i H Hf). reflexivity.
Qed.

(** C9 (corrected).  [attribute_set::emplace] replaces the first attribute
    with the same qualified name (the whole attribute: value and ID flag)
    at its position and returns [inserted = false], or appends and returns
    [inserted = true]; it keeps an attribute set free of duplicate names. *)
Theorem C9_emplace_replace_or_append (l : list attribute) (a : attribute) :
  (forall i, find_attr l (at_qname a) = Some i ->
     snd (fst (attr_emplace l a)) = i /\ snd (attr_emplace l a) = false /\
     length (fst (fst (attr_emplace l a))) = length l /\
     nth_error (fst (fst (attr_emplace l a))) i = Some a /\
     (forall j, j <> i -> nth_error (fst (fst (attr_emplace l a))) j = nth_error l j)) /\
  (find_attr l (at_qname a) = None -> attr_emplace l a = (l ++ [a], length l, true)) /\
  (NoDup (map at_qname l) -> NoDup (map at_qname (fst (fst (attr_emplace l a))))).
Proof.
  split; [|split].
  - intros i Hi. unfold attr_emplace. rewrite Hi. simpl.
    destruct (find_attr_some _ _ _ Hi) as [b [Hb _]].
    assert (Hlt : i < length l) by (apply nth_error_Some; congruence).
    split; [reflexivity|]. split; [reflexivity|].
    split; [apply set_nth_length|]. split; [apply set_nth_same; exact Hlt|].
    intros j Hj. apply set_nth_other; exact Hj.
  - intros H. unfold attr_emplace. rewrite H. reflexivity.
  - intros Hnd. unfold attr_emplace. destruct (find_attr l (at_qname a)) as [i|] eqn:Hf; simpl.
    + destruct (find_attr_some _ _ _ Hf) as [b [Hb Hq]].
      rewrite (map_set_nth at_qname i l a b Hb Hq). exact Hnd.
    + rewrite map_app. simpl. apply NoDup_app; [exact Hnd| constructor; [simpl; tauto| constructor] |].
      intros k Hk [Hk'|[]]. subst k. exact (find_attr_none _ _ Hf Hk).
Qed.

(** C9: the element constructor taking an initializer list of attributes
    (and [push_back] / [insert] on the attribute set) does not merge names. *)
Lemma C9_ctor_duplicate_names :
  match element_ctor "e" [mk_attribute "a" [49%Z] false; mk_attribute "a" [50%Z] false] with
  | NElement _ attrs _ => map at_qname attrs = ["a"%string; "a"%string] /\ ~ NoDup (map at_qname attrs)
  | _ => False
  end.
Proof.
  simpl. split; [reflexivity|]. intros H. inversion H as [|x l Hx Hl]. apply Hx. left. reflexivity.
Qed.

End DomFacts.

Module SerializerFacts.
Import Serializer.
Local Open Scope Z_scope.

Ltac split_ifs :=
  repeat match goal with
         | H : context [if ?x then _ else _] |- _ => destruct x eqn:?
         | |- context [if ?x then _ else _] => destruct x eqn:?
         end.

Lemma pop_shape (b : Z) (rest : list Z) (c : Z) (rest' : list Z) :
  Text.pop_front_char b rest = Some (c, rest') ->
  exists k, rest = firstn k rest ++ rest' /\
            forallb Text.is_continuation (firstn k rest) = true /\
            (b <= 127 -> c = b /\ rest' = rest).
Proof.
  intros H. unfold Text.pop_front_char in H. unfold Text.is_continuation.
  destruct (b >? 127) eqn:Hgt.
  2:{ injection H as <- <-. exists 0%nat. simpl. auto. }
  assert (Hb : ~ b <= 127) by (rewrite Z.gtb_ltb, Z.ltb_lt in Hgt; lia).
  destruct (Z.land b 224 =? 192).
  { destruct rest as [| c0 r]; [discriminate |].
    destruct (Z.land c0 192 =? 128) eqn:E0; simpl in H; [|discriminate].
    injection H as <- <-. exists 1%nat. simpl. rewrite E0. split; [reflexivity|].
    split; [reflexivity| intros; lia]. }
  destruct (Z.land b 240 =? 224).
  { destruct rest as [| c0 [| c1 r]]; try discriminate.
    destruct (Z.land c0 192 =? 128) eqn:E0, (Z.land c1 192 =? 128) eqn:E1;
      simpl in H; try discriminate.
    injection H as <- <-. exists 2%nat. simpl. rewrite E0, E1. split; [reflexivity|].
    split; [reflexivity| intros; lia]. }
  destruct (Z.land b 248 =? 240).
  { destruct rest as [| c0 [| c1 [| c2 r]]]; try discriminate.
    destruct (Z.land c0 192 =? 128) eqn:E0, (Z.land c1 192 =? 128) eqn:E1,
      (Z.land c2 192 =? 128) eqn:E2; simpl in H; try discriminate.
    injection H as <- <-. exists 3%nat. simpl. rewrite E0, E1, E2. split; [reflexivity|].
    split; [reflexivity| intros; lia]. }
  injection H as <- <-. exists 0%nat. simpl. split; [reflexivity|]. split; [reflexivity|intros; lia].
Qed.

Lemma pop_app (b : Z) (r t : list Z) (x : Z) (r' : list Z) :
  Text.pop_front_char b r = Some (x, r') ->
  Text.pop_front_char b (r ++ t) = Some (x, r' ++ t).
Proof.
  intros H. unfold Text.pop_front_char in *.
  destruct (b >? 127); [|injection H as <- <-; reflexivity].
  destruct (Z.land b 224 =? 192);
    [|destruct (Z.land b 240 =? 224);
      [|destruct (Z.land b 248 =? 240); [|injection H as <- <-; reflexivity]]];
    destruct r as [|c0 [|c1 [|c2 r]]]; cbn [app] in H |- *; split_ifs; cbn [negb orb] in *;
    try discriminate; inversion H; subst; reflexivity.
Qed.

Lemma pop_boundary (b c : Z) (r t : list Z) (x : Z) (q : list Z) :
  (Z.land c 192 =? 128) = false ->
  Text.pop_front_char b (r ++ c :: t) = Some (x, q) ->
  exists r', Text.pop_front_char b r = Some (x, r') /\ q = r' ++ c :: t.
Proof.
  intros Hc H. unfold Text.pop_front_char in *.
  destruct (b >? 127); [|injection H as <- <-; eexists; split; reflexivity].
  destruct (Z.land b 224 =? 192);
    [|destruct (Z.land b 240 =? 224);
      [|destruct (Z.land b 248 =? 240); [|injection H as <- <-; eexists; split; reflexivity]]];
    destruct r as [|c0 [|c1 [|c2 r]]]; destruct t as [|t0 [|t1 t]]; cbn [app] in H |- *;
    rewrite ?Hc in H; cbn [negb orb] in H; rewrite ?orb_true_r, ?orb_false_r in H;
    split_ifs; cbn [negb orb] in *; try discriminate;
    inversion H; subst; eexists; split; reflexivity.
Qed.

Lemma is_continuation_zero : Text.is_continuation 0 = false.
Proof. reflexivity. Qed.

Lemma raw_app (b : Z) (r1 r1' s2 : list Z) :
  (length r1' <= length r1)%nat ->
  firstn (length (b :: r1 ++ s2) - length (r1' ++ s2)) (b :: r1 ++ s2)
  = firstn (length (b :: r1) - length r1') (b :: r1).
Proof.
  intros H. cbn [length]. rewrite !length_app.
  replace (S (length r1 + length s2) - (length r1' + length s2))%nat
    with (S (length r1) - length r1')%nat by lia.
  change (b :: r1 ++ s2) with ((b :: r1) ++ s2). rewrite firstn_app.
  replace (S (length r1) - length r1' - length (b :: r1))%nat with 0%nat by (cbn [length]; lia).
  rewrite firstn_O, app_nil_r. reflexivity.
Qed.

Lemma pop_length (b : Z) (rest : list Z) (c : Z) (rest' : list Z) :
  Text.pop_front_char b rest = Some (c, rest') -> (length rest' <= length rest)%nat.
Proof.
  intros H. destruct (pop_shape _ _ _ _ H) as [k [Hk _]].
  rewrite Hk. rewrite length_app. lia.
Qed.

Section Loop.
Variables (ew eq tr : bool) (ver : version_type).

Local Abbreviation go := (write_string_go ew eq tr ver).

Lemma go_fuel (f1 f2 : nat) (st : bool) (s : list Z) :
  (length s <= f1)%nat -> (length s <= f2)%nat -> go f1 st s = go f2 st s.
Proof.
  revert f2 st s. induction f1 as [|f1 IH]; intros f2 st s H1 H2.
  - destruct s; [destruct f2; reflexivity | simpl in H1; lia].
  - destruct f2 as [|f2]; [destruct s; [reflexivity | simpl in H2; lia] |].
    destruct s as [|b rest]; [reflexivity |]. cbn [write_string_go].
    destruct (Text.pop_front_char b rest) as [[c rest']|] eqn:Hp; [|reflexivity].
    pose proof (pop_length _ _ _ _ Hp). simpl in H1, H2.
    destruct (write_char ew eq tr ver st c _) as [[out lis]|]; [|reflexivity].
    rewrite (IH f2 lis rest') by lia. reflexivity.
Qed.

Lemma go_app (f : nat) (st : bool) (s1 s2 : list Z) (o1 : list Z) (st1 : bool) :
  (length (s1 ++ s2) <= f)%nat -> go f st s1 = Some (o1, st1) ->
  go f st (s1 ++ s2) = option_map (fun p => (o1 ++ fst p, snd p)) (go f st1 s2).
Proof.
  revert st s1 o1. induction f as [|f IH]; intros st s1 o1 Hl H.
  - destruct s1, s2; simpl in Hl; try lia. simpl in H |- *. injection H as <- <-. reflexivity.
  - destruct s1 as [|b r1].
    + cbn [write_string_go] in H. injection H as <- <-. simpl app.
      destruct (go (S f) st s2) as [[o st']|]; reflexivity.
    + remember (go (S f) st1 s2) as R eqn:HR.
      cbn [write_string_go app] in H |- *.
      destruct (Text.pop_front_char b r1) as [[c r1']|] eqn:Hp; [|discriminate].
      pose proof (pop_length _ _ _ _ Hp) as Hlen.
      rewrite (pop_app _ _ s2 _ _ Hp), (raw_app b r1 r1' s2 Hlen).
      destruct (write_char ew eq tr ver st c _) as [[out lis]|]; [|discriminate].
      destruct (go f lis r1') as [[o st']|] eqn:Hg; [|discriminate].
      injection H as <- <-. simpl in Hl. rewrite length_app in Hl.
      rewrite (IH lis r1' o) by (try rewrite length_app; lia || exact Hg).
      rewrite HR, (go_fuel (S f) f st' s2) by lia.
      destruct (go f st' s2) as [[o2 st2]|]; simpl; [rewrite app_assoc|]; reflexivity.
Qed.

Lemma go_split (f : nat) (st : bool) (s1 : list Z) (c : Z) (s2 : list Z) (r : list Z * bool) :
  (length (s1 ++ c :: s2) <= f)%nat -> (Z.land c 192 =? 128) = false ->
  go f st (s1 ++ c :: s2) = Some r -> exists o1 st1, go f st s1 = Some (o1, st1).
Proof.
  revert st s1 r. induction f as [|f IH]; intros st s1 r Hl Hc H.
  - rewrite length_app in Hl. simpl in Hl. lia.
  - destruct s1 as [|b r1]; [eexists; eexists; reflexivity |].
    cbn [write_string_go app] in H |- *.
    destruct (Text.pop_front_char b (r1 ++ c :: s2)) as [[x q]|] eqn:Hp; [|discriminate].
    destruct (pop_boundary _ _ _ _ _ _ Hc Hp) as [r' [Hp' ->]].
    pose proof (pop_length _ _ _ _ Hp') as Hlen.
    rewrite (raw_app b r1 r' (c :: s2) Hlen) in H. rewrite Hp'.
    destruct (write_char ew eq tr ver st x _) as [[out lis]|]; [|discriminate].
    destruct (go f lis (r' ++ c :: s2)) as [r2|] eqn:Hg; [|discriminate].
    simpl in Hl. rewrite length_app in Hl. simpl in Hl.
    destruct (IH lis r' r2) as [o1 [st1 Ho]];
      [rewrite length_app; simpl; lia | exact Hc | exact Hg |].
    rewrite Ho. eexists; eexists; reflexivity.
Qed.

Lemma go_ascii (f : nat) (st : bool) (c : Z) (s2 : list Z) :
  0 <= c <= 127 ->
  go (S f) st (c :: s2) =
  match write_char ew eq tr ver st c [c] with
  | None => None
  | Some (out, lis) => option_map (fun p => (out ++ fst p, snd p)) (go f lis s2)
  end.
Proof.
  intros Hc. cbn [write_string_go].
  replace (Text.pop_front_char c s2) with (Some (c, s2))
    by (unfold Text.pop_front_char;
        replace (c >? 127) with false by (symmetry; rewrite Z.gtb_ltb; apply Z.ltb_ge; lia);
        reflexivity).
  replace (length (c :: s2) - length s2)%nat with 1%nat by (cbn [length]; lia).
  cbn [firstn].
  destruct (write_char ew eq tr ver st c [c]) as [[out lis]|]; [|reflexivity].
  destruct (go f lis s2) as [[o st']|]; reflexivity.
Qed.

Lemma go_nul (f : nat) (st : bool) (s : list Z) :
  (length s <= f)%nat -> In 0 s -> go f st s = None.
Proof.
  revert st s. induction f as [|f IH]; intros st s Hl Hin.
  - destruct s; [destruct Hin | simpl in Hl; lia].
  - destruct s as [|b rest]; [destruct Hin |]. cbn [write_string_go].
    destruct (Text.pop_front_char b rest) as [[c rest']|] eqn:Hp; [|reflexivity].
    destruct (pop_shape _ _ _ _ Hp) as [k [Hk [Hcont Hlow]]].
    destruct Hin as [Hb | Hin].
    + subst b. destruct (Hlow ltac:(lia)) as [-> _]. reflexivity.
    + rewrite Hk in Hin. apply in_app_or in Hin. destruct Hin as [Hin | Hin].
      * rewrite forallb_forall in Hcont. specialize (Hcont 0 Hin).
        rewrite is_continuation_zero in Hcont. discriminate.
      * destruct (write_char ew eq tr ver st c _) as [[out lis]|]; [|reflexivity].
        pose proof (pop_length _ _ _ _ Hp). simpl in Hl.
        rewrite (IH lis rest') by (lia || exact Hin). reflexivity.
Qed.

Lemma write_string_escape_step (s1 s2 : list Z) (c : Z) (e o1 : list Z) (st1 : bool) :
  0 <= c <= 127 -> (forall st, write_char ew eq tr ver st c [c] = Some (e, false)) ->
  go (length s1) false s1 = Some (o1, st1) ->
  write_string ew eq tr ver (s1 ++ c :: s2)
  = option_map (fun o2 => o1 ++ e ++ o2) (write_string ew eq tr ver s2).
Proof.
  intros Hc Hw H. unfold write_string.
  rewrite (go_fuel (length s1) (length (s1 ++ c :: s2)) false s1) in H
    by (rewrite ?length_app; cbn [length]; lia).
  rewrite (go_app _ _ _ _ _ _ (le_n _) H).
  rewrite length_app. cbn [length]. rewrite Nat.add_succ_r.
  rewrite go_ascii by lia. rewrite Hw.
  rewrite (go_fuel (length s1 + length s2) (length s2) false s2) by lia.
  destruct (go (length s2) false s2) as [[o2 st2]|]; reflexivity.
Qed.

Lemma write_string_prefix (s1 s2 : list Z) (c : Z) (o : list Z) :
  (Z.land c 192 =? 128) = false ->
  write_string ew eq tr ver (s1 ++ c :: s2) = Some o ->
  exists o1 st1, go (length s1) false s1 = Some (o1, st1).
Proof.
  intros Hc H. unfold write_string in H.
  destruct (go (length (s1 ++ c :: s2)) false (s1 ++ c :: s2)) as [r|] eqn:Hg; [|discriminate].
  destruct (go_split _ _ _ _ _ _ (le_n _) Hc Hg) as [o1 [st1 Ho]].
  rewrite (go_fuel _ (length s1) false s1) in Ho by (rewrite ?length_app; cbn [length]; lia).
  eauto.
Qed.

End Loop.

(** C8.  When text is serialized, every [&], [<] and [>] (and every
    double quote when [escape_quot] is set) is written as [&amp;], [&lt;],
    [&gt;] ([&quot;]): the output for [s1 ++ c :: s2] is the output for
    [s1], then the escape, then the output for [s2]; and any NUL byte makes
    [write_string] throw. *)
Theorem C8_write_string_escapes_and_nul (ew eq tr : bool) (ver : version_type) :
  (forall (s1 s2 : list Z) (c : Z) (e o : list Z),
     (c = 38 /\ e = bytes_of "&amp;" \/ c = 60 /\ e = bytes_of "&lt;" \/
      c = 62 /\ e = bytes_of "&gt;" \/ (eq = true /\ c = 34 /\ e = bytes_of "&quot;")) ->
     (write_string ew eq tr ver (s1 ++ c :: s2) = Some o <->
      exists o1 st1 o2,
        write_string_go ew eq tr ver (length s1) false s1 = Some (o1, st1) /\
        write_string ew eq tr ver s2 = Some o2 /\ o = o1 ++ e ++ o2)) /\
  (forall s : list Z, In 0 s -> write_string ew eq tr ver s = None).
Proof.
  split.
  - intros s1 s2 c e o He.
    assert (Hc : 0 <= c <= 127 /\ (Z.land c 192 =? 128) = false /\
                 forall st, write_char ew eq tr ver st c [c] = Some (e, false))
      by (destruct He as [[-> ->]|[[-> ->]|[[-> ->]|[Heq [-> ->]]]]];
          [| | | subst eq]; (split; [lia | split; [reflexivity | intros; reflexivity]])).
    destruct Hc as [Hr [Hc Hw]]. split.
    + intros H. destruct (write_string_prefix ew eq tr ver _ _ _ _ Hc H) as [o1 [st1 Ho]].
      rewrite (write_string_escape_step ew eq tr ver s1 s2 c e o1 st1 Hr Hw Ho) in H.
      destruct (write_string ew eq tr ver s2) as [o2|]; [|discriminate].
      injection H as <-. exists o1, st1, o2. auto.
    + intros [o1 [st1 [o2 [Ho [H2 ->]]]]].
      rewrite (write_string_escape_step ew eq tr ver s1 s2 c e o1 st1 Hr Hw Ho), H2.
      reflexivity.
  - intros s Hin. unfold write_string. rewrite (go_nul ew eq tr ver _ false s (le_n _) Hin).
    reflexivity.
Qed.

Lemma has_dd_tail (x : Z) (l : list Z) :
  has_double_hyphen (x :: l) = false -> has_double_hyphen l = false.
Proof.
  intros H. destruct l as [|y l]; [reflexivity|].
  simpl in H. apply orb_false_elim in H. destruct H as [_ H]. exact H.
Qed.

Lemma has_dd_false (l : list Z) :
  has_double_hyphen l = false -> forall pre post, l <> pre ++ 45 :: 45 :: post.
Proof.
  intros H pre. revert l H. induction pre as [|a pre IH]; intros l H post E; subst l.
  - simpl in H. discriminate.
  - apply has_dd_tail in H. exact (IH _ H post eq_refl).
Qed.

Lemma comment_body_no_dd (t : list Z) (st : bool) :
  has_double_hyphen ((if st then [45] else []) ++ comment_body st t) = false.
Proof.
  revert st. induction t as [|ch r IH]; intros st; [destruct st; reflexivity|].
  cbn [comment_body]. destruct (ch =? 45) eqn:E.
  - apply Z.eqb_eq in E. subst ch. specialize (IH true).
    destruct st; simpl in IH |- *; exact IH.
  - specialize (IH false). simpl in IH.
    destruct st; simpl; rewrite ?E; simpl; destruct (comment_body false r); exact IH.
Qed.

Lemma comment_body_snoc (t : list Z) (st : bool) (c : Z) :
  comment_body st (t ++ [c]) =
  comment_body st t ++
  (if (c =? 45) && match rev t with [] => st | x :: _ => x =? 45 end
   then [32; c] else [c]).
Proof.
  revert st. induction t as [|x r IH]; intros st.
  - simpl. destruct ((c =? 45) && st); reflexivity.
  - cbn [app comment_body]. rewrite IH. rewrite <- app_assoc. cbn [app].
    f_equal. f_equal. f_equal. simpl rev. destruct (rev r); reflexivity.
Qed.

(** C10.  When comments are not suppressed, [comment::write] emits
    [<!--], the body, [-->] (and a newline when indenting); the body has
    a space inserted before every hyphen that follows a hyphen, and so never
    contains two consecutive hyphens. *)
Theorem C10_comment_body_no_double_hyphen (fmt : format_info) (t : list Z) :
  suppress_comments fmt = false ->
  comment_write fmt t =
    bytes_of "<!--" ++ comment_body false t ++ bytes_of "-->" ++
    (if Nat.eqb (indent_width fmt) 0 then [] else [10]) /\
  (forall pre post, comment_body false t <> pre ++ 45 :: 45 :: post) /\
  (forall t' c, t = t' ++ [c] ->
     comment_body false t =
     comment_body false t' ++
     (if (c =? 45) && ends_with_hyphen t' then [32; c] else [c])).
Proof.
  intros Hs. split; [|split].
  - unfold comment_write. rewrite Hs. reflexivity.
  - apply has_dd_false. exact (comment_body_no_dd t false).
  - intros t' c ->. rewrite comment_body_snoc. unfold ends_with_hyphen. reflexivity.
Qed.

Lemma C10_comment_body_no_double_hyphen_witness :
  suppress_comments default_format = false /\
  (comment_write default_format [45; 45] =
     bytes_of "<!--" ++ comment_body false [45; 45] ++ bytes_of "-->" ++
     (if Nat.eqb (indent_width default_format) 0 then [] else [10]) /\
   (forall pre post, comment_body false [45; 45] <> pre ++ 45 :: 45 :: post) /\
   (forall t' c, [45; 45] = t' ++ [c] ->
      comment_body false [45; 45] =
      comment_body false t' ++
      (if (c =? 45) && ends_with_hyphen t' then [32; c] else [c]))).
Proof.
  split; [reflexivity|].
  apply (C10_comment_body_no_double_hyphen default_format [45; 45]). reflexivity.
Defined.

End SerializerFacts.

Module XPathFacts.
Import QArith_base Qround XPath.
Local Open Scope Z_scope.

Lemma get_missing (vars : variables) (name : string) :
  ~ In name (map fst vars) -> get vars name = OUndef.
Proof.
  induction vars as [|[k v] r IH]; simpl; intros H; [reflexivity|].
  destruct (String.eqb k name) eqn:E.
  - apply String.eqb_eq in E. exfalso. apply H. left. exact E.
  - apply IH. intros Hin. apply H. right. exact Hin.
Qed.

Lemma predicate_loop_all (f : node_ptr -> option object) (all ns : list node_ptr) :
  (forall n, f n = Some (OBool true)) -> predicate_loop f all ns = Some ns.
Proof.
  intros Hf. induction ns as [|n r IH]; [reflexivity|].
  simpl. rewrite Hf, IH. reflexivity.
Qed.

(** C3 (corrected).  A variable that was never set evaluates to the
    undefined object, without error: it converts to [false], to the empty
    string and to 0 and compares equal to [''].  An error is raised only
    where a node set is required, e.g. when the whole expression is the
    variable; [/*[$name = '']] selects every element child of the
    document. *)
Theorem C3_unset_variable_is_undef (fc : list Z -> double) (ts : double -> list Z)
    (vars : variables) (doc : list Dom.node) (name : string) :
  ~ In name (map fst vars) ->
  (forall cur cns, eval fc ts vars doc (EVariable name) cur cns = Some OUndef) /\
  as_bool OUndef = false /\ as_string ts doc OUndef = [] /\
  as_double fc doc OUndef = DFinite 0 /\
  object_eqb fc ts doc OUndef (OString []) = true /\
  xpath_evaluate fc ts vars doc (EVariable name) = None /\
  xpath_evaluate fc ts vars doc
    (EPath ERoot (EPredicate (EChildStep "*") (EEqual (EVariable name) (ELiteral []))))
  = Some (child_step doc [] "*").
Proof.
  intros H. pose proof (get_missing vars name H) as Hg.
  split; [intros; simpl; rewrite Hg; reflexivity|].
  split; [reflexivity|]. split; [reflexivity|]. split; [reflexivity|].
  split; [reflexivity|].
  split; [unfold xpath_evaluate; simpl; rewrite Hg; reflexivity|].
  unfold xpath_evaluate. cbn [eval path_loop]. rewrite Hg.
  rewrite predicate_loop_all by reflexivity. rewrite app_nil_r. reflexivity.
Qed.

Lemma C3_unset_variable_is_undef_witness :
  ~ In "x"%string (map fst ([] : variables)) /\
  ((forall cur cns, eval (fun _ => DNaN) (fun _ => []) [] [Dom.NElement "first" [] []]
                      (EVariable "x") cur cns = Some OUndef) /\
   as_bool OUndef = false /\ as_string (fun _ => []) [Dom.NElement "first" [] []] OUndef = [] /\
   as_double (fun _ => DNaN) [Dom.NElement "first" [] []] OUndef = DFinite 0 /\
   object_eqb (fun _ => DNaN) (fun _ => []) [Dom.NElement "first" [] []] OUndef (OString []) = true /\
   xpath_evaluate (fun _ => DNaN) (fun _ => []) [] [Dom.NElement "first" [] []] (EVariable "x") = None /\
   xpath_evaluate (fun _ => DNaN) (fun _ => []) [] [Dom.NElement "first" [] []]
     (EPath ERoot (EPredicate (EChildStep "*") (EEqual (EVariable "x") (ELiteral []))))
   = Some (child_step [Dom.NElement "first" [] []] [] "*")).
Proof.
  split; [simpl; tauto|].
  apply (C3_unset_variable_is_undef (fun _ => DNaN) (fun _ => []) [] [Dom.NElement "first" [] []] "x").
  simpl; tauto.
Defined.

(** C3: with no variables set, [/*[$x = '']] evaluates without error and
    selects the document element. *)
Lemma C3_unset_variable_selects :
  xpath_evaluate (fun _ => DNaN) (fun _ => []) [] [Dom.NElement "first" [] []]
    (EPath ERoot (EPredicate (EChildStep "*") (EEqual (EVariable "x") (ELiteral []))))
  = Some [[0%nat]].
Proof. reflexivity. Qed.

(** C5 (code_bug).  The lexer resolves [substring] to
    [CoreFunction::Substring], whose [arg_count] is [-2]:
    [function_call] throws for fewer than two arguments and accepts two,
    three or more, but its [switch] has no case for [Substring], so the
    expression it returns is null, and evaluating the enclosing
    expression calls [evaluate] through that null pointer.  Every other
    accepted core function call yields its [core_function_expression]. *)
Theorem C5_substring_call_is_null :
  lookup_function "substring" = Some CFSubstring /\
  expected_arg_count CFSubstring = -2 /\
  (forall args, (2 <= length args)%nat -> function_call CFSubstring args = Some None) /\
  (forall args, (length args < 2)%nat -> function_call CFSubstring args = None) /\
  (forall f args c, f <> CFSubstring -> function_call f args = Some c ->
     c = Some (CoreCall f args)).
Proof.
  split; [reflexivity|]. split; [reflexivity|]. split; [|split].
  - intros args H. unfold function_call. cbn [expected_arg_count core_function_index nth
      kCoreFunctionInfo snd].
    replace (Z.of_nat (length args) <? - -2) with false by (symmetry; apply Z.ltb_ge; lia).
    reflexivity.
  - intros args H. unfold function_call. cbn [expected_arg_count core_function_index nth
      kCoreFunctionInfo snd].
    replace (Z.of_nat (length args) <? - -2) with true by (symmetry; apply Z.ltb_lt; lia).
    reflexivity.
  - intros f args c Hf H. unfold function_call in H.
    destruct (0 <? expected_arg_count f);
      [destruct (negb (Z.of_nat (length args) =? expected_arg_count f))
      | destruct (expected_arg_count f =? kOptionalArgument);
        [destruct (1 <? Z.of_nat (length args))
        | destruct ((expected_arg_count f <? 0) && (Z.of_nat (length args) <? - expected_arg_count f))]];
      try discriminate; injection H as <-; destruct f; try reflexivity; contradiction.
Qed.

End XPathFacts.

Module TextExtFacts.
Import Text TextExt TextBits.
Local Open Scope Z_scope.

(** The bytes [append] writes for [uc], split into the 6-bit groups. *)
Lemma append_bytes (uc : Z) : 0 <= uc < 2 ^ 21 ->
  (uc < 128 /\ append [] uc = [uc]) \/
  (128 <= uc < 2048 /\
   append [] uc = [192 + uc / 64; 128 + uc mod 64]) \/
  (2048 <= uc < 65536 /\
   append [] uc = [224 + uc / 4096; 128 + uc / 64 mod 64; 128 + uc mod 64]) \/
  (65536 <= uc /\
   append [] uc = [240 + uc / 262144; 128 + uc / 4096 mod 64; 128 + uc / 64 mod 64;
                   128 + uc mod 64]).
Proof.
  intros Hu. unfold append. cbn [app].
  destruct (uc <? 128) eqn:E1; [left; apply Z.ltb_lt in E1; split; [lia|];
    rewrite (proj1 (ascii_byte uc ltac:(lia))); reflexivity|].
  apply Z.ltb_ge in E1. right.
  rewrite !Z.shiftr_div_pow2 by lia. rewrite !land63.
  destruct (uc <? 2048) eqn:E2.
  { left. apply Z.ltb_lt in E2. split; [lia|].
    rewrite (proj1 (lead2_byte (uc / 2 ^ 6) ltac:(split; [apply Z.div_pos; lia |
      apply Z.div_lt_upper_bound; lia]))).
    rewrite (proj1 (cont_byte (uc mod 64) ltac:(apply Z.mod_pos_bound; lia))). reflexivity. }
  apply Z.ltb_ge in E2. right.
  destruct (uc <? 65536) eqn:E3.
  { left. apply Z.ltb_lt in E3. split; [lia|].
    rewrite (proj1 (lead3_byte (uc / 2 ^ 12) ltac:(split; [apply Z.div_pos; lia |
      apply Z.div_lt_upper_bound; lia]))).
    rewrite (proj1 (cont_byte (uc / 2 ^ 6 mod 64) ltac:(apply Z.mod_pos_bound; lia))).
    rewrite (proj1 (cont_byte (uc mod 64) ltac:(apply Z.mod_pos_bound; lia))). reflexivity. }
  apply Z.ltb_ge in E3. right. split; [lia|].
  rewrite (proj1 (lead4_byte (uc / 2 ^ 18) ltac:(split; [apply Z.div_pos; lia |
    apply Z.div_lt_upper_bound; lia]))).
  rewrite (proj1 (cont_byte (uc / 2 ^ 12 mod 64) ltac:(apply Z.mod_pos_bound; lia))).
  rewrite (proj1 (cont_byte (uc / 2 ^ 6 mod 64) ltac:(apply Z.mod_pos_bound; lia))).
  rewrite (proj1 (cont_byte (uc mod 64) ltac:(apply Z.mod_pos_bound; lia))). reflexivity.
Qed.


(** For every code point below 2^21, [pop_front_char] decodes the bytes
    [append] writes for it back to it and stops right after them. *)
Theorem append_pop_front_char (uc : Z) (rest : list Z) :
  0 <= uc < 2 ^ 21 ->
  exists b bs, append [] uc = b :: bs /\ pop_front_char b (bs ++ rest) = Some (uc, rest).
Proof.
  intros Hu.
  pose proof (Z.mod_pos_bound uc 64 ltac:(lia)) as Hx.
  pose proof (Z.mod_pos_bound (uc / 64) 64 ltac:(lia)) as Hm.
  pose proof (Z.mod_pos_bound (uc / 4096) 64 ltac:(lia)) as Hn.
  destruct (append_bytes uc Hu) as [[H1 ->] | [[H1 ->] | [[H1 ->] | [H1 ->]]]];
    do 2 eexists; split; try reflexivity; unfold pop_front_char; cbn [app].
  - replace (uc >? 127) with false by (rewrite Z.gtb_ltb; symmetry; apply Z.ltb_ge; lia).
    reflexivity.
  - destruct (lead2_byte (uc / 64) ltac:(apply uc_div_bounds; lia)) as [_ [L1 [L2 _]]].
    destruct (cont_byte (uc mod 64) Hx) as [_ [C1 [C2 _]]].
    rewrite gtb127 by (pose proof (Z.div_pos uc 64); lia).
    rewrite eqb_true by exact L1. rewrite C1, Z.eqb_refl. cbn [negb].
    rewrite L2, C2, lor_shiftl by (change (2 ^ 6) with 64; lia).
    f_equal; f_equal. change (2 ^ 6) with 64. Z.div_mod_to_equations. lia.
  - destruct (lead3_byte (uc / 4096) ltac:(apply uc_div_bounds; lia)) as [_ [L0 [L1 [L2 _]]]].
    destruct (cont_byte (uc / 64 mod 64) Hm) as [_ [C1 [C2 _]]].
    destruct (cont_byte (uc mod 64) Hx) as [_ [D1 [D2 _]]].
    rewrite gtb127 by (pose proof (Z.div_pos uc 4096); lia).
    rewrite (eqb_false _ _ L0), (eqb_true _ _ L1), C1, D1, Z.eqb_refl. cbn [negb orb].
    rewrite L2, C2, D2.
    change 12 with (6 + 6). rewrite lor_shiftl2 by (change (2 ^ 6) with 64; lia).
    rewrite lor_shiftl by (change (2 ^ 6) with 64; lia).
    change (2 ^ 6) with 64.
    f_equal; f_equal. change (2 ^ 6) with 64. Z.div_mod_to_equations. lia.
  - destruct (lead4_byte (uc / 262144) ltac:(apply uc_div_bounds; lia))
      as [_ [L0 [L0' [L1 [L2 _]]]]].
    destruct (cont_byte (uc / 4096 mod 64) Hn) as [_ [B1 [B2 _]]].
    destruct (cont_byte (uc / 64 mod 64) Hm) as [_ [C1 [C2 _]]].
    destruct (cont_byte (uc mod 64) Hx) as [_ [D1 [D2 _]]].
    rewrite gtb127 by (pose proof (Z.div_pos uc 262144); lia).
    rewrite (eqb_false _ _ L0), (eqb_false _ _ L0'), (eqb_true _ _ L1), B1, C1, D1, Z.eqb_refl.
    cbn [negb orb].
    rewrite L2, B2, C2, D2.
    change 18 with (6 + 12). rewrite lor_shiftl2 by (change (2 ^ 6) with 64; lia).
    change 12 with (6 + 6). rewrite lor_shiftl2 by (change (2 ^ 6) with 64; lia).
    rewrite lor_shiftl by (change (2 ^ 6) with 64; lia).
    change (2 ^ 6) with 64.
    f_equal; f_equal. change (2 ^ 6) with 64. Z.div_mod_to_equations. lia.
Qed.

(** For every code point below 2^21, [pop_back_char] on a string that
    [append] has just extended returns that code point and the string as
    it was before. *)
Theorem append_pop_back_char (s : list Z) (uc : Z) :
  0 <= uc < 2 ^ 21 -> pop_back_char (append s uc) = Some (uc, s).
Proof.
  intros Hu.
  pose proof (Z.mod_pos_bound uc 64 ltac:(lia)) as Hx.
  pose proof (Z.mod_pos_bound (uc / 64) 64 ltac:(lia)) as Hm.
  pose proof (Z.mod_pos_bound (uc / 4096) 64 ltac:(lia)) as Hn.
  assert (Hs : append s uc = s ++ append [] uc) by reflexivity.
  rewrite Hs. unfold pop_back_char.
  destruct (append_bytes uc Hu) as [[H1 ->] | [[H1 ->] | [[H1 ->] | [H1 ->]]]];
    rewrite rev_app_distr; cbn [rev app].
  - rewrite (proj2 (ascii_byte uc ltac:(lia))), Z.eqb_refl, rev_involutive. reflexivity.
  - destruct (lead2_byte (uc / 64) ltac:(apply uc_div_bounds; lia)) as [_ [_ [L2 L3]]].
    destruct (cont_byte (uc mod 64) Hx) as [_ [_ [C2 C3]]].
    rewrite (eqb_false _ _ C3).
    replace (length (s ++ [192 + uc / 64; 128 + uc mod 64])) with (S (S (length s)))
      by (rewrite length_app; cbn [length]; lia).
    cbn [pop_back_go]. rewrite (eqb_false _ _ L3), andb_false_r.
    change (0 + 6) with 6. cbn [Z.eqb Pos.eqb]. rewrite L2, C2, Z.shiftl_0_r, Z.lor_0_l, rev_involutive.
    rewrite Z.lor_comm, lor_shiftl by (change (2 ^ 6) with 64; lia).
    f_equal; f_equal. change (2 ^ 6) with 64. Z.div_mod_to_equations. lia.
  - destruct (lead3_byte (uc / 4096) ltac:(apply uc_div_bounds; lia)) as [_ [_ [_ [L2 L3]]]].
    destruct (cont_byte (uc / 64 mod 64) Hm) as [_ [C1 [C2 C3]]].
    destruct (cont_byte (uc mod 64) Hx) as [_ [_ [D2 D3]]].
    rewrite (eqb_false _ _ D3).
    replace (length (s ++ [224 + uc / 4096; 128 + uc / 64 mod 64; 128 + uc mod 64]))
      with (S (S (S (length s)))) by (rewrite length_app; cbn [length]; lia).
    cbn [pop_back_go negb]. rewrite C1, Z.eqb_refl, (eqb_false _ _ L3), !andb_false_r.
    change (0 + 6 + 6) with 12. change (0 + 6) with 6. cbn [andb Z.eqb Pos.eqb]. rewrite L2, C2, D2, Z.shiftl_0_r, Z.lor_0_l, rev_involutive.
    match goal with
    | |- Some (?v, _) = _ =>
        replace v with (Z.lor (Z.lor (Z.shiftl (uc / 4096) 12) (Z.shiftl (uc / 64 mod 64) 6))
                              (uc mod 64)) by lor_perm
    end.
    change 12 with (6 + 6). rewrite lor_shiftl2 by (change (2 ^ 6) with 64; lia).
    rewrite lor_shiftl by (change (2 ^ 6) with 64; lia).
    f_equal; f_equal. change (2 ^ 6) with 64. Z.div_mod_to_equations. lia.
  - destruct (lead4_byte (uc / 262144) ltac:(apply uc_div_bounds; lia))
      as [_ [_ [_ [_ [L2 L3]]]]].
    destruct (cont_byte (uc / 4096 mod 64) Hn) as [_ [B1 [B2 B3]]].
    destruct (cont_byte (uc / 64 mod 64) Hm) as [_ [C1 [C2 C3]]].
    destruct (cont_byte (uc mod 64) Hx) as [_ [_ [D2 D3]]].
    rewrite (eqb_false _ _ D3).
    replace (length (s ++ [240 + uc / 262144; 128 + uc / 4096 mod 64; 128 + uc / 64 mod 64;
                           128 + uc mod 64]))
      with (S (S (S (S (length s))))) by (rewrite length_app; cbn [length]; lia).
    cbn [pop_back_go negb]. rewrite B1, C1, Z.eqb_refl, (eqb_false _ _ L3), !andb_false_r.
    change (0 + 6 + 6 + 6) with 18. change (0 + 6 + 6) with 12. change (0 + 6) with 6. cbn [andb Z.eqb Pos.eqb]. rewrite L2, B2, C2, D2, Z.shiftl_0_r, Z.lor_0_l, rev_involutive.
    match goal with
    | |- Some (?v, _) = _ =>
        replace v with (Z.lor (Z.lor (Z.lor (Z.shiftl (uc / 262144) 18)
                         (Z.shiftl (uc / 4096 mod 64) 12)) (Z.shiftl (uc / 64 mod 64) 6))
                         (uc mod 64)) by lor_perm
    end.
    change 18 with (6 + 12). rewrite lor_shiftl2 by (change (2 ^ 6) with 64; lia).
    change 12 with (6 + 6). rewrite lor_shiftl2 by (change (2 ^ 6) with 64; lia).
    rewrite lor_shiftl by (change (2 ^ 6) with 64; lia).
    f_equal; f_equal. change (2 ^ 6) with 64. Z.div_mod_to_equations. lia.
Qed.


Lemma drop_while_spec {A} (p : A -> bool) (l : list A) :
  exists pre, l = pre ++ drop_while p l /\ Forall (fun x => p x = true) pre /\
    (forall x r, drop_while p l = x :: r -> p x = false).
Proof.
  induction l as [| a l IH]; cbn [drop_while].
  - exists []. split; [reflexivity|]. split; [constructor|]. intros x r H; discriminate.
  - destruct (p a) eqn:Ea.
    + destruct IH as [pre [E [F H]]]. exists (a :: pre).
      split; [cbn [app]; rewrite <- E; reflexivity|]. split; [constructor; assumption|]. exact H.
    + exists []. split; [reflexivity|]. split; [constructor|].
      intros x r H. injection H as -> _. exact Ea.
Qed.

Lemma drop_while_stop {A} (p : A -> bool) (l : list A) :
  (forall x r, l = x :: r -> p x = false) -> drop_while p l = l.
Proof. destruct l as [| x r]; [reflexivity|]. intros H. cbn. rewrite (H x r eq_refl). reflexivity. Qed.

(** [trim] cuts [s] into white space, the result and white space; the
    result neither starts nor ends with white space. *)
Lemma trim_shape (s : list Z) :
  exists pre post, s = pre ++ trim s ++ post /\
    Forall (fun b => isspace b = true) pre /\ Forall (fun b => isspace b = true) post /\
    (forall b r, trim s = b :: r -> isspace b = false) /\
    (forall r b, trim s = r ++ [b] -> isspace b = false).
Proof.
  unfold trim.
  destruct (drop_while_spec isspace (rev s)) as [pre1 [E1 [F1 H1]]].
  set (d1 := drop_while isspace (rev s)) in *.
  destruct (drop_while_spec isspace (rev d1)) as [pre2 [E2 [F2 H2]]].
  set (t := drop_while isspace (rev d1)) in *.
  exists pre2, (rev pre1).
  split; [|split; [exact F2|split; [|split; [exact H2|]]]].
  - rewrite <- (rev_involutive s), E1, rev_app_distr, E2, app_assoc. reflexivity.
  - apply Forall_rev. exact F1.
  - intros r b Ht. apply (H1 b (rev (pre2 ++ r))).
    rewrite <- (rev_involutive d1), E2, Ht, app_assoc, rev_app_distr. reflexivity.
Qed.

(** A string that neither starts nor ends with white space is left as it is. *)
Lemma trim_fixed (t : list Z) :
  (forall b r, t = b :: r -> isspace b = false) ->
  (forall r b, t = r ++ [b] -> isspace b = false) -> trim t = t.
Proof.
  intros Hh Hl.
  unfold trim. rewrite (drop_while_stop isspace (rev t)).
  - rewrite rev_involutive. apply drop_while_stop. exact Hh.
  - intros x r Hr. apply (Hl (rev r)). rewrite <- (rev_involutive t), Hr. reflexivity.
Qed.

(** [trim] removes white space only at the two ends: [s] is white space,
    then [trim s], then white space; [trim s] neither starts nor ends with
    white space, so trimming it again changes nothing. *)
Theorem trim_spec (s : list Z) :
  (exists pre post, s = pre ++ trim s ++ post /\
    Forall (fun b => isspace b = true) pre /\ Forall (fun b => isspace b = true) post) /\
  (forall b r, trim s = b :: r -> isspace b = false) /\
  (forall r b, trim s = r ++ [b] -> isspace b = false) /\
  trim (trim s) = trim s.
Proof.
  destruct (trim_shape s) as [pre [post [E [Fp [Fq [Hh Hl]]]]]].
  split; [exists pre, post; auto|]. split; [exact Hh|]. split; [exact Hl|].
  apply trim_fixed; assumption.
Qed.

(** Every character [is_name_char] accepts is a valid XML 1.0 and XML 1.1
    character. *)
Theorem name_char_valid_xml (uc : Z) :
  is_name_char uc = true ->
  Serializer.is_valid_xml_1_0_char uc = true /\ Serializer.is_valid_xml_1_1_char uc = true.
Proof.
  unfold is_name_char, is_name_start_char, Serializer.is_valid_xml_1_0_char,
    Serializer.is_valid_xml_1_1_char, in_range.
  rewrite !orb_true_iff, !andb_true_iff, !Z.eqb_eq, !Z.leb_le, !Z.ltb_lt.
  intros H. lia.
Qed.

Lemma append_pop_front_char_witness :
  exists b bs, append [] 8364 = b :: bs /\ pop_front_char b (bs ++ [65]) = Some (8364, [65]).
Proof. apply (append_pop_front_char 8364 [65]). lia. Defined.

Lemma append_pop_back_char_witness :
  pop_back_char (append [104; 105] 233) = Some (233, [104; 105]).
Proof. apply (append_pop_back_char [104; 105] 233). lia. Defined.

Lemma name_char_valid_xml_witness :
  is_name_char 183 = true /\
  Serializer.is_valid_xml_1_0_char 183 = true /\ Serializer.is_valid_xml_1_1_char 183 = true.
Proof. split; [reflexivity|]. apply name_char_valid_xml. reflexivity. Defined.

End TextExtFacts.


Module DoctypeExtFacts.
Import Doctype DoctypeExt.

Ltac vstep :=
  cbn [run_validator]; unfold validator_allow, state_allow;
  cbn [v_state v_done depth allow reset negb andb Nat.max forallb].

(** The content specs [EMPTY], [ANY] and a single element [n]: the
    validator accepts exactly the empty sequence, every sequence and the
    sequence [n]. *)
Theorem validator_basic_specs (n : string) (w : list string) :
  (fsm_accepts CEmpty w = true <-> w = []) /\
  fsm_accepts CAny w = true /\
  (fsm_accepts (CElement n) w = true <-> w = [n]).
Proof.
  split; [|split].
  - destruct w as [| m w]; [split; reflexivity|].
    split; [discriminate | intros H; discriminate].
  - unfold fsm_accepts. cbn. induction w as [| m w IH]; [reflexivity|]. exact IH.
  - unfold fsm_accepts, validator_init. cbn [create_state allow_empty].
    destruct w as [| m w]; [split; [discriminate | intros H; discriminate]|].
    vstep. destruct (String.eqb n m) eqn:E; cbn [negb andb].
    + apply String.eqb_eq in E; subst m.
      destruct w as [| m' w].
      * split; reflexivity.
      * vstep. split; [discriminate | intros H; discriminate].
    + split; [discriminate|]. intros H. injection H as -> _. rewrite String.eqb_refl in E.
      discriminate.
Qed.

Lemma star_after (n : string) (st : nat) (w : list string) :
  st <> O ->
  run_validator (mk_validator (SRepeated QStar (SElement n true) st) true) w =
  forallb (String.eqb n) w.
Proof.
  intros Hst. induction w as [| m w IH]; [reflexivity|].
  destruct st as [| st']; [contradiction|].
  vstep. destruct (String.eqb n m); cbn [andb negb]; [exact IH|reflexivity].
Qed.

Lemma plus_after (n : string) (w : list string) :
  run_validator (mk_validator (SRepeated QPlus (SElement n true) 2) true) w =
  forallb (String.eqb n) w.
Proof.
  induction w as [| m w IH]; [reflexivity|].
  vstep. destruct (String.eqb n m); cbn [andb negb]; [exact IH|reflexivity].
Qed.

(** The repetitions [n?], [n*] and [n+] of one element [n]: the validator
    accepts at most one [n], any number of [n], and at least one [n]. *)
Theorem validator_repeated_element (n : string) (w : list string) :
  (fsm_accepts (CRepeated (CElement n) QOpt) w = true <-> w = [] \/ w = [n]) /\
  fsm_accepts (CRepeated (CElement n) QStar) w = forallb (String.eqb n) w /\
  fsm_accepts (CRepeated (CElement n) QPlus) w =
    negb (match w with [] => true | _ => false end) && forallb (String.eqb n) w.
Proof.
  unfold fsm_accepts, validator_init. cbn [create_state allow_empty].
  destruct w as [| m w]; [split; [split; [left; reflexivity | reflexivity] | split; reflexivity]|].
  vstep. cbn [forallb]. destruct (String.eqb n m) eqn:E; cbn [negb andb].
  - apply String.eqb_eq in E; subst m.
    split; [|split].
    + destruct w as [| m' w].
      * split; [intros _; right; reflexivity | reflexivity].
      * vstep. split; [discriminate|]. intros [H | H]; discriminate.
    + apply star_after. discriminate.
    + destruct w as [| m w]; [reflexivity|].
      vstep. cbn [forallb]. destruct (String.eqb n m); cbn [andb negb]; [|reflexivity].
      apply plus_after.
  - split; [|split; reflexivity].
    split; [discriminate|]. intros [H | H]; [discriminate|].
    injection H as -> _. rewrite String.eqb_refl in E. discriminate.
Qed.

Lemma span_app {A} (p : A -> bool) (r X : list A) :
  forallb p r = true -> (forall x X', X = x :: X' -> p x = false) ->
  span p (r ++ X) = (r, X).
Proof.
  intros Hr HX. induction r as [|a r IH].
  - destruct X as [|x X']; [reflexivity|]. cbn. rewrite (HX x X' eq_refl). reflexivity.
  - cbn in Hr. apply andb_true_iff in Hr as [Ha Hr].
    cbn. rewrite Ha, (IH Hr). reflexivity.
Qed.

Lemma nsc_nc (c : Z) : nsc c = true -> nc c = true.
Proof.
  unfold nsc, nc, Text.is_name_char. intros H. rewrite H. rewrite !orb_true_r. reflexivity.
Qed.

Lemma nc_not_space (c : Z) : nc c = true -> Text.isspace c = false.
Proof.
  intros H. destruct (Text.isspace c) eqn:E; [|reflexivity].
  exfalso. unfold Text.isspace, Text.in_range in E.
  rewrite orb_true_iff, andb_true_iff, Z.eqb_eq, !Z.leb_le in E.
  assert (c = 32 \/ c = 9 \/ c = 10 \/ c = 11 \/ c = 12 \/ c = 13)%Z as Hc by lia.
  destruct Hc as [H1 | [H1 | [H1 | [H1 | [H1 | H1]]]]]; subst c; discriminate H.
Qed.

Lemma name_ok_in (n : list Z) (b : Z) : name_ok n = true -> In b n -> nc b = true.
Proof.
  destruct n as [|c r]; [discriminate|]. cbn [name_ok].
  intros H Hb. apply andb_true_iff in H as [Hc Hr].
  destruct Hb as [<-|Hb]; [apply nsc_nc; exact Hc|].
  rewrite forallb_forall in Hr. apply Hr, Hb.
Qed.

Lemma ends_in_name (pre nl r : list Z) (b : Z) :
  name_ok nl = true -> pre ++ nl = r ++ [b] -> Text.isspace b = false.
Proof.
  intros Hn E. apply nc_not_space. apply (name_ok_in nl); [exact Hn|].
  destruct nl as [|x nl'] using rev_ind; [discriminate|].
  rewrite app_assoc in E. apply app_inj_tail in E as [_ ->]. apply in_or_app; right; left; reflexivity.
Qed.

Lemma join_ws_last (rest : list (list Z * list Z)) (n0 : list Z) :
  name_ok n0 = true ->
  forallb (fun p => sep_ok (fst p) && name_ok (snd p)) rest = true ->
  exists pre nl, join_ws n0 rest = pre ++ nl /\ name_ok nl = true.
Proof.
  revert n0. induction rest as [|[w n1] rest IH]; intros n0 H0 Hr.
  - exists [], n0. unfold join_ws. cbn. rewrite app_nil_r. auto.
  - cbn in Hr. apply andb_true_iff in Hr as [Hw Hr]. apply andb_true_iff in Hw as [_ Hn1].
    destruct (IH n1 Hn1 Hr) as (pre & nl & E & Hnl).
    exists (n0 ++ w ++ pre), nl. split; [|exact Hnl].
    unfold join_ws in *. cbn [flat_map fst snd]. rewrite <- !app_assoc, E. reflexivity.
Qed.

Lemma drop_space_name (w n X : list Z) :
  forallb Text.isspace w = true -> name_ok n = true ->
  Text.drop_while Text.isspace (w ++ n ++ X) = n ++ X.
Proof.
  intros Hw Hn. induction w as [|a w IH].
  - destruct n as [|c r]; [discriminate|]. cbn [app Text.drop_while].
    cbn [name_ok] in Hn. apply andb_true_iff in Hn as [Hc _].
    rewrite (nc_not_space c (nsc_nc c Hc)). reflexivity.
  - cbn in Hw. apply andb_true_iff in Hw as [Ha Hw]. cbn. rewrite Ha. apply IH, Hw.
Qed.

Lemma names_loop_join (rest : list (list Z * list Z)) :
  forall n0 t f, name_ok n0 = true ->
  forallb (fun p => sep_ok (fst p) && name_ok (snd p)) rest = true ->
  (length (join_ws n0 rest) <= f)%nat ->
  names_loop f (join_ws n0 rest) t = (true, t ++ join_sp n0 rest).
Proof.
  induction rest as [|[w n1] rest IH]; intros n0 t f H0 Hr Hf;
    (destruct n0 as [|c r]; [discriminate|]);
    cbn [name_ok] in H0; apply andb_true_iff in H0 as [Hc Hr0];
    (destruct f as [|f]; [cbn in Hf; lia|]).
  - unfold join_ws, join_sp. cbn [flat_map]. rewrite !app_nil_r.
    cbn [names_loop app]. rewrite Hc.
    rewrite <- (app_nil_r r) at 1. rewrite (span_app nc r []) by (auto; discriminate).
    reflexivity.
  - cbn in Hr. apply andb_true_iff in Hr as [Hw Hr]. apply andb_true_iff in Hw as [Hw Hn1].
    destruct w as [|w0 w']; [discriminate|]. cbn [sep_ok] in Hw.
    cbn in Hw. apply andb_true_iff in Hw as [Hw0 Hw'].
    unfold join_ws, join_sp in *. cbn [flat_map fst snd] in *.
    cbn [names_loop app]. rewrite Hc.
    rewrite <- !app_assoc. cbn [app].
    assert (Nw0 : nc w0 = false).
    { destruct (nc w0) eqn:E; [|reflexivity].
      rewrite (nc_not_space w0 E) in Hw0. discriminate Hw0. }
    rewrite (span_app nc r) by
      (try exact Hr0; intros x X' E; injection E as E _; subst x; exact Nw0).
    rewrite Hw0. rewrite (drop_space_name w' n1 _ Hw' Hn1).
    specialize (IH n1 (t ++ c :: r ++ [32%Z]) f Hn1 Hr).
    unfold join_ws, join_sp in IH. replace ((t ++ c :: r) ++ [32%Z]) with (t ++ c :: r ++ [32%Z])
      by (rewrite <- app_assoc; reflexivity).
    rewrite IH.
    + f_equal. rewrite <- !app_assoc. cbn [app]. rewrite <- !app_assoc. reflexivity.
    + clear IH. simpl in Hf. rewrite !length_app in Hf |- *. cbn [length] in Hf. rewrite !length_app in Hf. lia.
Qed.

(** [attribute::is_names] on names separated by runs of white space
    accepts them and rewrites the value to the same names separated by
    single spaces. *)
Theorem is_names_normalises (n0 : list Z) (rest : list (list Z * list Z)) :
  name_ok n0 = true ->
  forallb (fun p => sep_ok (fst p) && name_ok (snd p)) rest = true ->
  is_names (join_ws n0 rest) = (true, join_sp n0 rest).
Proof.
  intros H0 Hr.
  assert (Tr : Text.trim (join_ws n0 rest) = join_ws n0 rest).
  { apply TextExtFacts.trim_fixed.
    - intros b r E. destruct n0 as [|c r0]; [discriminate|].
      unfold join_ws in E. injection E as <- _.
      cbn [name_ok] in H0. apply andb_true_iff in H0 as [Hc _].
      apply nc_not_space, nsc_nc, Hc.
    - intros r b E. destruct (join_ws_last rest n0 H0 Hr) as (pre & nl & E' & Hnl).
      rewrite E' in E. exact (ends_in_name pre nl r b Hnl E). }
  unfold is_names. rewrite Tr.
  destruct n0 as [|c r0] eqn:En; [discriminate|].
  unfold join_ws at 1. cbn [app].
  change (c :: r0 ++ flat_map (fun p => fst p ++ snd p) rest) with (join_ws (c :: r0) rest).
  rewrite <- En in *. apply (names_loop_join rest n0 [] _ H0 Hr). lia.
Qed.

(** A first token of a single byte is never checked by
    [attribute::is_names]: any byte that is not white space, name start
    character or not, followed by white space and a name, is accepted. *)
Theorem is_names_single_byte_token (c : Z) (w n : list Z) :
  Text.isspace c = false -> sep_ok w = true -> name_ok n = true ->
  is_names (c :: w ++ n) = (true, c :: 32%Z :: n).
Proof.
  intros Hc Hw Hn.
  assert (Tr : Text.trim (c :: w ++ n) = c :: w ++ n).
  { apply TextExtFacts.trim_fixed.
    - intros b r E. injection E as <- _. exact Hc.
    - intros r b E. exact (ends_in_name (c :: w) n r b Hn E). }
  unfold is_names. rewrite Tr.
  destruct w as [|w0 w']; [discriminate|]. cbn [sep_ok] in Hw.
  cbn in Hw. apply andb_true_iff in Hw as [Hw0 Hw'].
  cbn [length app].
  remember (S (length (w' ++ n))) as F eqn:EF.
  cbn [names_loop].
  assert (Tok : (if nsc c then span nc (w0 :: w' ++ n) else ([], w0 :: w' ++ n))
                = ([], w0 :: w' ++ n)).
  { destruct (nsc c); [|reflexivity]. cbn.
    destruct (nc w0) eqn:E; [|reflexivity].
    rewrite (nc_not_space w0 E) in Hw0. discriminate Hw0. }
  rewrite Tok. cbn [app]. rewrite Hw0.
  rewrite <- (app_nil_r n) at 1. rewrite (drop_space_name w' n [] Hw' Hn), app_nil_r.
  pose proof (names_loop_join [] n [c; 32%Z] F Hn eq_refl) as L.
  unfold join_ws, join_sp in L. cbn [flat_map] in L. rewrite !app_nil_r in L.
  rewrite L; [reflexivity|]. rewrite EF, length_app. lia.
Qed.

Lemma high_byte_nsc_nc (b : Z) : (128 <= b < 256)%Z -> nsc b = false /\ nc b = false.
Proof.
  intros Hb. unfold nsc, nc, Text.is_name_char, Text.is_name_start_char, Text.char_to_u32,
    Text.in_range.
  replace (b <? 128)%Z with false by (symmetry; apply Z.ltb_ge; lia).
  split; apply not_true_iff_false;
    rewrite !orb_true_iff, !andb_true_iff, !Z.eqb_eq, !Z.leb_le; lia.
Qed.

(** [attribute::is_name] tests each [char] as a signed value, so a value
    holding a byte from 0x80 on (any UTF-8 encoded non-ASCII character)
    after trimming is never a name. *)
Theorem is_name_rejects_high_byte (s : list Z) (b : Z) :
  (128 <= b < 256)%Z -> In b (Text.trim s) -> is_name s = (false, Text.trim s).
Proof.
  intros Hb Hin. unfold is_name.
  destruct (Text.trim s) as [|c cs]; [destruct Hin|].
  destruct (high_byte_nsc_nc b Hb) as [Ns Nc].
  destruct Hin as [->|Hin].
  - rewrite Ns. reflexivity.
  - replace (forallb nc cs) with false; [rewrite andb_false_r; reflexivity|].
    symmetry. apply not_true_iff_false. rewrite forallb_forall. intros H.
    rewrite (H b Hin) in Nc. discriminate Nc.
Qed.

Lemma is_names_normalises_witness :
  name_ok [97%Z] = true /\
  forallb (fun p => sep_ok (fst p) && name_ok (snd p))
    [([32%Z; 9%Z], [98%Z; 49%Z]); ([10%Z], [99%Z])] = true /\
  is_names (join_ws [97%Z] [([32%Z; 9%Z], [98%Z; 49%Z]); ([10%Z], [99%Z])])
    = (true, [97%Z; 32%Z; 98%Z; 49%Z; 32%Z; 99%Z]).
Proof.
  split; [reflexivity|]. split; [reflexivity|].
  apply (is_names_normalises [97%Z] [([32%Z; 9%Z], [98%Z; 49%Z]); ([10%Z], [99%Z])]);
    reflexivity.
Defined.

Lemma is_names_single_byte_token_witness :
  Text.isspace 49 = false /\ sep_ok [32%Z] = true /\ name_ok [97%Z] = true /\
  is_names (49%Z :: [32%Z] ++ [97%Z]) = (true, [49%Z; 32%Z; 97%Z]).
Proof.
  split; [reflexivity|]. split; [reflexivity|]. split; [reflexivity|].
  apply (is_names_single_byte_token 49%Z [32%Z] [97%Z]); reflexivity.
Defined.

Lemma is_name_rejects_high_byte_witness :
  (128 <= 195 < 256)%Z /\ In 195%Z (Text.trim [32%Z; 195%Z; 169%Z]) /\
  is_name [32%Z; 195%Z; 169%Z] = (false, Text.trim [32%Z; 195%Z; 169%Z]).
Proof.
  split; [lia|]. split; [cbn; auto|].
  apply (is_name_rejects_high_byte [32%Z; 195%Z; 169%Z] 195%Z); [lia|cbn; auto].
Defined.

End DoctypeExtFacts.


Module DomExtFacts.
Import Dom DomExt.

Lemma set_nth_find (l : list attribute) (k k' : string) (i : nat) (a : attribute) :
  find_attr l k = Some i -> at_qname a = k ->
  find_attr (Doctype.set_nth i l a) k' = find_attr l k'.
Proof.
  revert i; induction l as [|b r IH]; intros i H Ha; simpl in H; [discriminate|].
  destruct (String.eqb (at_qname b) k) eqn:E.
  - injection H as <-. simpl. apply String.eqb_eq in E. rewrite Ha, <- E. reflexivity.
  - destruct (find_attr r k) as [j|] eqn:F; simpl in H; [|discriminate].
    injection H as <-. simpl. rewrite (IH j eq_refl Ha). reflexivity.
Qed.

Lemma set_nth_nth (l : list attribute) (i j : nat) (a : attribute) :
  (i < length l)%nat ->
  nth_error (Doctype.set_nth i l a) j = if Nat.eqb i j then Some a else nth_error l j.
Proof.
  revert i j; induction l as [|b r IH]; intros i j Hi; simpl in Hi; [lia|].
  destruct i, j; simpl; try reflexivity.
  apply IH; lia.
Qed.

Lemma find_attr_lt (l : list attribute) (k : string) (i : nat) :
  find_attr l k = Some i -> (i < length l)%nat.
Proof.
  intros H. destruct (DomFacts.find_attr_some l k i H) as (a & Ha & _).
  apply nth_error_Some. rewrite Ha; discriminate.
Qed.

Lemma find_attr_app (l : list attribute) (a : attribute) (k : string) :
  find_attr (l ++ [a]) k =
  match find_attr l k with
  | Some i => Some i
  | None => if String.eqb (at_qname a) k then Some (length l) else None
  end.
Proof.
  induction l as [|b r IH]; simpl; [destruct (String.eqb (at_qname a) k); reflexivity|].
  destruct (String.eqb (at_qname b) k); [reflexivity|].
  rewrite IH. destruct (find_attr r k); [reflexivity|].
  destruct (String.eqb (at_qname a) k); reflexivity.
Qed.

Lemma find_attr_first (l : list attribute) (k : string) (i : nat) :
  find_attr l k = Some i ->
  forall j a, (j < i)%nat -> nth_error l j = Some a -> at_qname a <> k.
Proof.
  revert i; induction l as [|b r IH]; intros i H j a Hj Ha; simpl in H; [discriminate|].
  destruct (String.eqb (at_qname b) k) eqn:E.
  - injection H as <-. lia.
  - destruct (find_attr r k) as [i'|] eqn:F; simpl in H; [|discriminate].
    injection H as <-. destruct j as [|j]; simpl in Ha.
    + injection Ha as <-. intro Hq. apply String.eqb_neq in E. contradiction.
    + apply (IH i' eq_refl j a); [lia|exact Ha].
Qed.

Lemma find_attr_remove_first (l : list attribute) (k k' : string) (i : nat) :
  find_attr l k = Some i -> k' <> k ->
  find_attr (remove_nth i l) k' = None -> find_attr l k' = None.
Proof.
  revert i; induction l as [|b r IH]; intros i H Hne HR; simpl in H; [reflexivity|].
  destruct (String.eqb (at_qname b) k) eqn:E.
  - injection H as <-. simpl in HR |- *. apply String.eqb_eq in E.
    destruct (String.eqb (at_qname b) k') eqn:E'.
    + apply String.eqb_eq in E'. congruence.
    + rewrite HR. reflexivity.
  - destruct (find_attr r k) as [j|] eqn:F; simpl in H; [|discriminate].
    injection H as <-. simpl in HR |- *.
    destruct (String.eqb (at_qname b) k'); [discriminate|].
    destruct (find_attr (remove_nth j r) k') eqn:G; [discriminate|].
    rewrite (IH j eq_refl Hne G). reflexivity.
Qed.

(** [set_attribute] followed by [get_attribute]: the attribute just set
    reads back the value given, and every other name reads as before. *)
Theorem get_set_attribute (l : list attribute) (q : string) (v : list Z) :
  get_attribute (set_attribute l q v) q = v /\
  (forall q', q' <> q -> get_attribute (set_attribute l q v) q' = get_attribute l q').
Proof.
  unfold set_attribute, attr_emplace, get_attribute. cbn [at_qname].
  destruct (find_attr l q) as [i|] eqn:F; cbn [fst].
  - pose proof (find_attr_lt l q i F) as Hi.
    rewrite (set_nth_find l q q i (mk_attribute q v false) F eq_refl), F.
    split.
    + rewrite set_nth_nth by exact Hi. rewrite Nat.eqb_refl. reflexivity.
    + intros q' Hq'. rewrite (set_nth_find l q q' i (mk_attribute q v false) F eq_refl).
      destruct (find_attr l q') as [j|] eqn:F'; [|reflexivity].
      rewrite set_nth_nth by exact Hi.
      destruct (Nat.eqb i j) eqn:E; [|reflexivity].
      apply Nat.eqb_eq in E; subst j.
      destruct (DomFacts.find_attr_some l q i F) as (a & Ha & Hqa).
      destruct (DomFacts.find_attr_some l q' i F') as (a' & Ha' & Hqa').
      rewrite Ha in Ha'. injection Ha' as <-. congruence.
  - rewrite find_attr_app, F. cbn [at_qname]. rewrite String.eqb_refl.
    split.
    + rewrite nth_error_app2 by lia. rewrite Nat.sub_diag. reflexivity.
    + intros q' Hq'. rewrite find_attr_app. cbn [at_qname].
      destruct (find_attr l q') as [j|] eqn:F'.
      * rewrite nth_error_app1 by (eapply find_attr_lt; exact F'). reflexivity.
      * destruct (String.eqb q q') eqn:E; [|reflexivity].
        apply String.eqb_eq in E. congruence.
Qed.

Lemma remove_nth_app {A : Type} (p r : list A) (x : A) :
  remove_nth (length p) (p ++ x :: r) = p ++ r.
Proof. induction p as [|y p IH]; simpl; [reflexivity|]. rewrite IH; reflexivity. Qed.

Lemma find_attr_split (l : list attribute) (k : string) (i : nat) :
  find_attr l k = Some i ->
  exists p a r, l = p ++ a :: r /\ length p = i /\ at_qname a = k /\
    existsb (fun b => String.eqb (at_qname b) k) p = false.
Proof.
  revert i; induction l as [|b l IH]; intros i H; simpl in H; [discriminate|].
  destruct (String.eqb (at_qname b) k) eqn:E.
  - injection H as <-. exists [], b, l. repeat split. apply String.eqb_eq; exact E.
  - destruct (find_attr l k) as [j|] eqn:F; simpl in H; [|discriminate].
    injection H as <-. destruct (IH j eq_refl) as (p & a & r & -> & <- & Ha & Hp).
    exists (b :: p), a, r. simpl. rewrite E, Hp. auto.
Qed.

Lemma contains_existsb (l : list attribute) (k : string) :
  attr_contains l k = existsb (fun b => String.eqb (at_qname b) k) l.
Proof.
  unfold attr_contains. induction l as [|b l IH]; simpl; [reflexivity|].
  destruct (String.eqb (at_qname b) k); [reflexivity|].
  rewrite <- IH. destruct (find_attr l k); reflexivity.
Qed.

Lemma existsb_names_false (l : list attribute) (k : string) :
  ~ In k (map at_qname l) -> existsb (fun b => String.eqb (at_qname b) k) l = false.
Proof.
  induction l as [|b l IH]; simpl; intros H; [reflexivity|].
  destruct (String.eqb (at_qname b) k) eqn:E.
  - apply String.eqb_eq in E. exfalso; apply H; left; exact E.
  - apply IH. intro; apply H; right; assumption.
Qed.

(** [attribute_set::erase(key)] after [set_attribute] of a name the set
    did not contain erases exactly the attribute added: the set is back
    to what it was and the count returned is 1. *)
Theorem attr_erase_set_attribute (l : list attribute) (q : string) (v : list Z) :
  attr_contains l q = false ->
  attr_erase (set_attribute l q v) q = (l, 1%nat).
Proof.
  intros H. unfold attr_contains in H.
  unfold set_attribute, attr_emplace, attr_erase. cbn [at_qname].
  destruct (find_attr l q) eqn:F; [discriminate|]. cbn [fst].
  rewrite find_attr_app, F. cbn [at_qname]. rewrite String.eqb_refl.
  rewrite remove_nth_app. rewrite app_nil_r. reflexivity.
Qed.

Lemma find_attr_at_first (p r : list attribute) (a : attribute) (k : string) :
  at_qname a = k -> existsb (fun b => String.eqb (at_qname b) k) p = false ->
  find_attr (p ++ a :: r) k = Some (length p).
Proof.
  intros Ha. induction p as [|b p IH]; simpl; intros Hp.
  - rewrite Ha, String.eqb_refl. reflexivity.
  - destruct (String.eqb (at_qname b) k); [discriminate|]. rewrite (IH Hp). reflexivity.
Qed.

(** [attribute_set::erase(key)] removes only the first attribute with
    that name: on [p ++ a :: r] with [a] the first attribute named [key]
    it leaves [p ++ r] and returns 1, and on a set without [key] it leaves
    the set as it is and returns 0.  So [contains] of every other name is
    unchanged, and when the names in the set are distinct, [key] is gone. *)
Theorem attr_erase_contains (l : list attribute) (q : string) :
  (forall p a r, l = p ++ a :: r -> at_qname a = q -> attr_contains p q = false ->
     attr_erase l q = (p ++ r, 1%nat)) /\
  (attr_contains l q = false -> attr_erase l q = (l, 0%nat)) /\
  (forall q', q' <> q -> attr_contains (fst (attr_erase l q)) q' = attr_contains l q') /\
  (NoDup (map at_qname l) -> attr_contains (fst (attr_erase l q)) q = false).
Proof.
  split; [|split; [|split]].
  - intros p a r -> Ha Hp. rewrite contains_existsb in Hp. unfold attr_erase.
    rewrite (find_attr_at_first p r a q Ha Hp), remove_nth_app. reflexivity.
  - intros H. unfold attr_contains in H. unfold attr_erase.
    destruct (find_attr l q); [discriminate|reflexivity].
  - intros q' Hq'. unfold attr_erase.
    destruct (find_attr l q) as [i|] eqn:F; [|reflexivity].
    destruct (find_attr_split l q i F) as (p & a & r & -> & <- & Ha & Hp).
    cbn [fst]. rewrite remove_nth_app.
    rewrite !contains_existsb, !existsb_app. cbn [existsb].
    destruct (String.eqb (at_qname a) q') eqn:E; [|reflexivity].
    apply String.eqb_eq in E. congruence.
  - intros Hnd. unfold attr_erase.
    destruct (find_attr l q) as [i|] eqn:F.
    + destruct (find_attr_split l q i F) as (p & a & r & -> & <- & Ha & Hp).
      cbn [fst]. rewrite remove_nth_app.
      rewrite contains_existsb, existsb_app, Hp. cbn [orb].
      apply existsb_names_false. rewrite map_app in Hnd.
      apply NoDup_remove_2 in Hnd. cbn [map] in Hnd. rewrite Ha in Hnd.
      intro Hin; apply Hnd, in_or_app; right; exact Hin.
    + cbn [fst]. unfold attr_contains; rewrite F; reflexivity.
Qed.


Lemma get_content_app (l1 l2 : list node) :
  get_content (l1 ++ l2) = get_content l1 ++ get_content l2.
Proof. unfold get_content. apply flat_map_app. Qed.

Lemma str_app (l1 l2 : list node) :
  flat_map str (l1 ++ l2) = flat_map str l1 ++ flat_map str l2.
Proof. apply flat_map_app. Qed.

(** [element::add_text(s)] adds [s] at the end of the element's content
    and of its string value, and leaves the child elements alone. *)
Theorem add_text_content (cs : list node) (s : list Z) :
  get_content (add_text cs s) = get_content cs ++ s /\
  flat_map str (add_text cs s) = flat_map str cs ++ s /\
  filter is_element (add_text cs s) = filter is_element cs.
Proof.
  unfold add_text.
  assert (Hc : cs = rev (rev cs)) by (symmetry; apply rev_involutive).
  destruct (rev cs) as [|x r] eqn:E.
  - simpl in Hc; subst cs. simpl. rewrite !app_nil_r. auto.
  - assert (Hdef : get_content (cs ++ [NText s]) = get_content cs ++ s /\
                   flat_map str (cs ++ [NText s]) = flat_map str cs ++ s /\
                   filter is_element (cs ++ [NText s]) = filter is_element cs).
    { rewrite get_content_app, str_app, filter_app. simpl. rewrite !app_nil_r. auto. }
    destruct x; try exact Hdef.
    rewrite Hc. simpl.
    rewrite !get_content_app, !str_app, !filter_app. simpl.
    rewrite !app_nil_r, !app_assoc. auto.
Qed.


Lemma ends_with_text_snoc (p : list node) (n : node) :
  ends_with_text (p ++ [n]) = is_text n.
Proof.
  induction p as [|x p IH]; [reflexivity|].
  cbn [app]. rewrite <- IH. destruct (p ++ [n]) eqn:E; [destruct p; discriminate|reflexivity].
Qed.

Lemma text_run_snoc (p : list node) (n : node) :
  text_run (p ++ [n]) = text_run p || (ends_with_text p && is_text n).
Proof.
  induction p as [|x p IH]; [simpl; destruct n; reflexivity|].
  cbn [app text_run]. rewrite IH.
  destruct p as [|y p'].
  - simpl. destruct x, n; reflexivity.
  - change (starts_with_text ((y :: p') ++ [n])) with (starts_with_text (y :: p')).
    change (ends_with_text (x :: y :: p')) with (ends_with_text (y :: p')).
    destruct (is_text x && starts_with_text (y :: p')), (text_run (y :: p')); reflexivity.
Qed.

Lemma flatten_loop_spec (f : nat) (p r : list node) :
  (length r <= f)%nat -> text_run p = false ->
  (ends_with_text p = true -> starts_with_text r = false) ->
  get_content (flatten_loop f p r) = get_content p ++ get_content r /\
  flat_map str (flatten_loop f p r) = flat_map str p ++ flat_map str r /\
  filter is_element (flatten_loop f p r) = filter is_element p ++ filter is_element r /\
  text_run (flatten_loop f p r) = false.
Proof.
  revert p r; induction f as [|f IH]; intros p r Hf Hp He.
  - destruct r; [|simpl in Hf; lia]. simpl. rewrite !app_nil_r. auto.
  - destruct r as [|n r'].
    + simpl. rewrite !app_nil_r. auto.
    + assert (Hadv : forall r'', r'' = r' ->
        (match n with NText _ => starts_with_text r'' = false | _ => True end) ->
        get_content (flatten_loop f (p ++ [n]) r') = get_content p ++ get_content (n :: r') /\
        flat_map str (flatten_loop f (p ++ [n]) r') = flat_map str p ++ flat_map str (n :: r') /\
        filter is_element (flatten_loop f (p ++ [n]) r') = filter is_element p ++ filter is_element (n :: r') /\
        text_run (flatten_loop f (p ++ [n]) r') = false).
      { intros r'' -> Hn.
        destruct (IH (p ++ [n]) r') as (H1 & H2 & H3 & H4).
        - simpl in Hf; lia.
        - rewrite text_run_snoc, Hp. cbn [orb].
          destruct (ends_with_text p) eqn:Ep; [|reflexivity].
          specialize (He eq_refl). destruct n; try reflexivity. discriminate He.
        - rewrite ends_with_text_snoc. destruct n; try discriminate. intros _; exact Hn.
        - change (n :: r') with ([n] ++ r').
          rewrite H1, H2, H3, !get_content_app, !str_app, !filter_app.
          rewrite <- !app_assoc. auto. }
      destruct n as [q a c|t|t|t|tg t]; cbn [flatten_loop];
        try (apply (Hadv r'); [reflexivity|exact I]).
      destruct r' as [|m r''].
      * apply (Hadv []); reflexivity.
      * destruct m as [q a c|u|u|u|tg u];
          try (apply (Hadv _ eq_refl); reflexivity).
        destruct (IH p (NText (t ++ u) :: r'')) as (H1 & H2 & H3 & H4);
          [simpl in Hf |- *; lia|exact Hp|exact He|].
        rewrite H1, H2, H3. simpl. rewrite !app_assoc. auto.
Qed.

Lemma flatten_loop_flat (f : nat) (p r : list node) :
  text_run (p ++ r) = false -> flatten_loop f p r = p ++ r.
Proof.
  revert p r; induction f as [|f IH]; intros p r H; [reflexivity|].
  destruct r as [|n r'].
  - rewrite app_nil_r. reflexivity.
  - assert (Hadv : flatten_loop f (p ++ [n]) r' = p ++ n :: r').
    { rewrite IH; [rewrite <- app_assoc; reflexivity|rewrite <- app_assoc; exact H]. }
    destruct n as [q a c|t|t|t|tg t]; cbn [flatten_loop]; try exact Hadv.
    destruct r' as [|m r'']; [exact Hadv|].
    destruct m; try exact Hadv.
    exfalso. revert H. clear. induction p as [|x p IH]; cbn [app text_run].
    + discriminate.
    + intros H. apply orb_false_iff in H. apply IH, H.
Qed.

(** [element::flatten_text()] keeps the element's content, its string
    value and its child elements, leaves no two text nodes next to each
    other, and changes nothing once that holds (it is idempotent). *)
Theorem flatten_text_spec (cs : list node) :
  get_content (flatten_text cs) = get_content cs /\
  flat_map str (flatten_text cs) = flat_map str cs /\
  filter is_element (flatten_text cs) = filter is_element cs /\
  text_run (flatten_text cs) = false /\
  flatten_text (flatten_text cs) = flatten_text cs.
Proof.
  unfold flatten_text.
  destruct (flatten_loop_spec (length cs) [] cs) as (H1 & H2 & H3 & H4);
    [lia|reflexivity|simpl; discriminate|].
  repeat split; [exact H1|exact H2|exact H3|exact H4|].
  apply (flatten_loop_flat _ [] _ H4).
Qed.

Lemma nth_error_at (p r : list node) :
  nth_error (p ++ r) (length p) = nth_error r 0.
Proof. rewrite nth_error_app2 by lia. rewrite Nat.sub_diag. reflexivity. Qed.

Lemma tc_run_not_tc (p : list node) :
  forallb not_tc p = true -> tc_run p = false.
Proof.
  induction p as [|x p IH]; simpl; [reflexivity|].
  intros H. apply andb_true_iff in H as [Hx Hp]. unfold not_tc in Hx.
  rewrite IH by exact Hp. destruct (is_text_or_cdata x); [discriminate|reflexivity].
Qed.

Lemma filter_not_tc (p : list node) :
  forallb not_tc p = true -> filter not_tc p = p.
Proof.
  induction p as [|x p IH]; simpl; [reflexivity|].
  intros H. apply andb_true_iff in H as [Hx Hp]. rewrite Hx, IH by exact Hp. reflexivity.
Qed.

Lemma set_content_loop_sep (f : nat) (p r : list node) :
  forallb not_tc p = true -> tc_run r = false ->
  (S (length p + length r) * S (length p + length r) <= f + length p)%nat ->
  set_content_loop f (p ++ r) (length p) = filter not_tc (p ++ r).
Proof.
  revert p r; induction f as [|f IH]; intros p r Hp Hr Hf; [nia|].
  cbn [set_content_loop]. rewrite nth_error_at.
  destruct r as [|n r'].
  - cbn [nth_error]. rewrite app_nil_r, filter_not_tc by exact Hp. reflexivity.
  - cbn [nth_error].
    destruct (is_text_or_cdata n) eqn:En.
    + change (p ++ n :: r') with (p ++ n :: r'). rewrite remove_nth_app.
      rewrite filter_app. cbn [filter]. unfold not_tc at 2. rewrite En. cbn [negb].
      rewrite <- filter_app. rewrite length_app.
      destruct r' as [|m r''].
      * rewrite Nat.add_0_r, Nat.eqb_refl, app_nil_r.
        apply (IH [] p); [reflexivity|apply tc_run_not_tc, Hp|simpl in Hf |- *; nia].
      * cbn [length]. replace (Nat.eqb (length p) (length p + S (length r''))) with false
          by (symmetry; apply Nat.eqb_neq; lia).
        cbn [tc_run] in Hr. rewrite En in Hr. cbn [andb starts_with_tc] in Hr.
        apply orb_false_iff in Hr as [Hm Hr].
        replace (p ++ m :: r'') with ((p ++ [m]) ++ r'') by (rewrite <- app_assoc; reflexivity).
        replace (S (length p)) with (length (p ++ [m])) by (rewrite length_app; simpl; lia).
        apply IH.
        -- rewrite forallb_app, Hp. simpl. unfold not_tc. rewrite Hm. reflexivity.
        -- destruct r''; [reflexivity|]. cbn [tc_run] in Hr. apply orb_false_iff in Hr as [_ Hr]. exact Hr.
        -- rewrite length_app. simpl in Hf |- *. nia.
    + replace (p ++ n :: r') with ((p ++ [n]) ++ r') by (rewrite <- app_assoc; reflexivity).
      replace (S (length p)) with (length (p ++ [n])) by (rewrite length_app; simpl; lia).
      apply IH.
      * rewrite forallb_app, Hp. simpl. unfold not_tc. rewrite En. reflexivity.
      * destruct r'; [reflexivity|]. cbn [tc_run] in Hr. apply orb_false_iff in Hr as [_ Hr]. exact Hr.
      * rewrite length_app. simpl in Hf |- *. nia.
Qed.

Lemma get_content_not_tc (l : list node) :
  get_content (filter not_tc l) = [].
Proof.
  induction l as [|x l IH]; [reflexivity|]. cbn [filter].
  unfold not_tc at 1. destruct x; cbn [is_text_or_cdata negb]; exact IH.
Qed.

(** [element::set_content(s)] on a node list with no two text or cdata
    nodes next to each other: every text and cdata child is removed, the
    other children keep their order, and one text node [s] is added at
    the end, so [get_content] then returns [s]. *)
Theorem set_content_separated (cs : list node) (s : list Z) :
  tc_run cs = false ->
  set_content cs s = filter not_tc cs ++ [NText s] /\
  get_content (set_content cs s) = s.
Proof.
  intros H. unfold set_content.
  rewrite (set_content_loop_sep _ [] cs eq_refl H) by (simpl; nia).
  split; [reflexivity|]. rewrite get_content_app, get_content_not_tc. simpl. apply app_nil_r.
Qed.

Lemma set_content_loop_walk (f : nat) (p r : list node) :
  forallb not_tc r = true -> (length r < f)%nat ->
  set_content_loop f (p ++ r) (length p) = p ++ r.
Proof.
  revert p f; induction r as [|n r IH]; intros p f Hr Hf;
    (destruct f as [|f]; [simpl in Hf; lia|]); cbn [set_content_loop]; rewrite nth_error_at.
  - rewrite app_nil_r. reflexivity.
  - cbn [nth_error]. simpl in Hr. apply andb_true_iff in Hr as [Hn Hr].
    unfold not_tc in Hn. destruct (is_text_or_cdata n); [discriminate|].
    replace (p ++ n :: r) with ((p ++ [n]) ++ r) by (rewrite <- app_assoc; reflexivity).
    replace (S (length p)) with (length (p ++ [n])) by (rewrite length_app; simpl; lia).
    apply IH; [exact Hr|simpl in Hf; lia].
Qed.

(** The loop of [element::set_content(s)] steps past the node that
    follows each erased one: when the first two children are text or
    cdata nodes and no other child is, the second one survives and
    [get_content] then returns its text followed by [s]. *)
Theorem set_content_keeps_second (x y : node) (l : list node) (s : list Z) :
  is_text_or_cdata x = true -> is_text_or_cdata y = true ->
  forallb not_tc l = true ->
  set_content (x :: y :: l) s = y :: l ++ [NText s] /\
  get_content (set_content (x :: y :: l) s) = get_content [y] ++ s.
Proof.
  intros Hx Hy Hl. unfold set_content.
  remember (S (length (x :: y :: l)) * S (length (x :: y :: l)))%nat as f eqn:Ef.
  destruct f as [|f]; [simpl in Ef; lia|].
  cbn [set_content_loop nth_error]. rewrite Hx. cbn [remove_nth length].
  change (S (length l)) with (length (y :: l)).
  replace (Nat.eqb 0 (length (y :: l))) with false by reflexivity.
  change (y :: l) with ([y] ++ l). change 1%nat with (length [y]).
  rewrite set_content_loop_walk by (exact Hl || (simpl in Ef; nia)).
  split; [reflexivity|].
  rewrite !get_content_app.
  assert (Hc : get_content l = []).
  { rewrite <- (filter_not_tc l Hl). apply get_content_not_tc. }
  rewrite Hc. simpl. rewrite !app_nil_r. reflexivity.
Qed.

Lemma before_colon_spec (q : string) :
  (before_colon q = None /\ XPath.after_colon q = None /\ colon_free q = true) \/
  (exists p n, before_colon q = Some p /\ XPath.after_colon q = Some n /\
     q = (p ++ String ":"%char n)%string /\ colon_free p = true).
Proof.
  induction q as [|c r IH]; [left; auto|].
  cbn [before_colon XPath.after_colon].
  destruct (Ascii.eqb c ":"%char) eqn:E.
  - right. exists EmptyString, r. apply Ascii.eqb_eq in E. subst c. auto.
  - destruct IH as [(H1 & H2 & H3)|(p & n & H1 & H2 & H3 & H4)].
    + left. rewrite H1, H2. split; [reflexivity|split; [reflexivity|]].
      unfold colon_free in *. simpl. rewrite E, H3. reflexivity.
    + right. exists (String c p), n. rewrite H1, H2.
      split; [reflexivity|split; [reflexivity|split]].
      * simpl. f_equal. exact H3.
      * unfold colon_free in *. simpl. rewrite E. exact H4.
Qed.

Lemma set_nth_app {A : Type} (p r : list A) (a x : A) :
  Doctype.set_nth (length p) (p ++ a :: r) x = p ++ x :: r.
Proof. induction p as [|y p IH]; simpl; [reflexivity|]. rewrite IH; reflexivity. Qed.

Lemma find_app_none {A : Type} (f : A -> bool) (p r : list A) :
  find f p = None -> find f (p ++ r) = find f r.
Proof.
  induction p as [|y p IH]; simpl; [reflexivity|].
  destruct (f y); [discriminate|exact IH].
Qed.

Lemma find_app_some {A : Type} (f : A -> bool) (p r : list A) (y : A) :
  find f p = Some y -> find f (p ++ r) = Some y.
Proof.
  induction p as [|z p IH]; simpl; [discriminate|].
  destruct (f z); [exact (fun H => H)|exact IH].
Qed.

(** Replacing one element by a non-ID attribute, or adding one at the end,
    is the same for [find at_id] as leaving it out. *)
Lemma find_id_skip (p r : list attribute) (x : attribute) :
  at_id x = false -> find at_id (p ++ x :: r) = find at_id (p ++ r).
Proof.
  intros Hx. destruct (find at_id p) as [y|] eqn:E.
  - rewrite !(find_app_some _ _ _ _ E). reflexivity.
  - rewrite !(find_app_none _ _ _ E). cbn. rewrite Hx. reflexivity.
Qed.

Lemma filter_other_names (l : list attribute) (q : string) :
  existsb (fun b => String.eqb (at_qname b) q) l = false ->
  filter (fun b => negb (String.eqb (at_qname b) q)) l = l.
Proof.
  induction l as [|b l IH]; simpl; [reflexivity|].
  destruct (String.eqb (at_qname b) q); [discriminate|]. intros H. rewrite IH by exact H.
  reflexivity.
Qed.

(** [element::set_attribute] stores a fresh [attribute(qname, value)],
    whose ID flag is false, also over an ID attribute: with unique names,
    [id()] afterwards is what it would be with the attribute [q] removed.
    Setting the value of the ID attribute through [set_attribute] loses
    the element's ID. *)
Theorem id_set_attribute (l : list attribute) (q : string) (v : list Z) :
  NoDup (map at_qname l) ->
  element_id (set_attribute l q v) =
  element_id (filter (fun b => negb (String.eqb (at_qname b) q)) l).
Proof.
  intros Hd. unfold element_id, set_attribute, attr_emplace. cbn [at_qname].
  destruct (find_attr l q) as [i|] eqn:F; cbn [fst].
  - destruct (find_attr_split l q i F) as (p & a & r & -> & <- & Ha & Hp).
    rewrite set_nth_app, find_id_skip by reflexivity.
    rewrite map_app in Hd. cbn [map] in Hd. apply NoDup_remove_2 in Hd.
    rewrite Ha in Hd.
    assert (Hr : existsb (fun b => String.eqb (at_qname b) q) r = false).
    { apply existsb_names_false. intros Hin. apply Hd, in_or_app; right; exact Hin. }
    rewrite filter_app. cbn [filter]. rewrite Ha, String.eqb_refl. cbn [negb].
    rewrite !filter_other_names by assumption. reflexivity.
  - rewrite <- (app_nil_r l) at 2. rewrite find_id_skip by reflexivity. rewrite app_nil_r.
    rewrite filter_other_names; [reflexivity|].
    apply existsb_names_false, DomFacts.find_attr_none, F.
Qed.

(** [node::get_prefix()] and [node::name()] split a qualified name at its
    first colon: either there is no colon, the prefix is empty and the
    name is the whole qualified name, or the qualified name is the prefix,
    a colon and the name, with no colon in the prefix. *)
Theorem prefix_name_split (q : string) :
  (colon_free q = true /\ get_prefix q = EmptyString /\ XPath.local_name q = q) \/
  (q = (get_prefix q ++ String ":"%char (XPath.local_name q))%string /\
   colon_free (get_prefix q) = true).
Proof.
  unfold get_prefix, XPath.local_name.
  destruct (before_colon_spec q) as [(H1 & H2 & H3)|(p & n & H1 & H2 & H3 & H4)].
  - left. rewrite H1, H2. auto.
  - right. rewrite H1, H2. auto.
Qed.

Lemma attr_erase_set_attribute_witness :
  attr_contains [mk_attribute "id" [49%Z] true] "lang" = false /\
  attr_erase (set_attribute [mk_attribute "id" [49%Z] true] "lang" [101%Z; 110%Z])
    "lang" = ([mk_attribute "id" [49%Z] true], 1%nat).
Proof.
  split; [reflexivity|].
  apply attr_erase_set_attribute. reflexivity.
Defined.

Lemma set_content_separated_witness :
  tc_run [NText [97%Z]; NElement "b" [] []; NCData [99%Z]] = false /\
  get_content (set_content [NText [97%Z]; NElement "b" [] []; NCData [99%Z]] [100%Z]) = [100%Z].
Proof.
  split; [reflexivity|].
  apply (set_content_separated [NText [97%Z]; NElement "b" [] []; NCData [99%Z]] [100%Z]).
  reflexivity.
Defined.

Lemma set_content_keeps_second_witness :
  get_content (set_content [NText [97%Z]; NCData [98%Z]; NComment [99%Z]] [100%Z]) = [98%Z; 100%Z].
Proof.
  apply (set_content_keeps_second (NText [97%Z]) (NCData [98%Z]) [NComment [99%Z]] [100%Z]);
    reflexivity.
Defined.

Lemma id_set_attribute_witness :
  NoDup (map at_qname [mk_attribute "id" [49%Z] true; mk_attribute "lang" [101%Z] false]) /\
  element_id (set_attribute [mk_attribute "id" [49%Z] true; mk_attribute "lang" [101%Z] false]
    "id" [50%Z]) = [].
Proof.
  split.
  - repeat constructor; cbn; intuition discriminate.
  - rewrite (id_set_attribute [mk_attribute "id" [49%Z] true; mk_attribute "lang" [101%Z] false]
      "id" [50%Z]).
    + reflexivity.
    + repeat constructor; cbn; intuition discriminate.
Defined.

End DomExtFacts.


Module SerializerExtFacts.
Import Serializer SerializerExt.
Local Open Scope Z_scope.


Lemma markup_free_app (eq : bool) (a b : list Z) :
  markup_free eq a -> markup_free eq b -> markup_free eq (a ++ b).
Proof.
  intros Ha Hb x Hx. apply in_app_or in Hx as [Hx|Hx]; auto.
Qed.

Lemma decimal_go_digits (f : nat) (n : Z) (acc : list Z) (x : Z) :
  In x (decimal_go f n acc) -> In x acc \/ 48 <= x <= 57.
Proof.
  revert n acc; induction f as [|f IH]; intros n acc H; [left; exact H|].
  cbn [decimal_go] in H.
  assert (Hd : forall y, In y ((48 + n mod 10) :: acc) -> In y acc \/ 48 <= y <= 57).
  { intros y [<-|Hy]; [right; pose proof (Z.mod_pos_bound n 10); lia|left; exact Hy]. }
  destruct (n <? 10).
  - apply Hd, H.
  - destruct (IH _ _ H) as [H'|H']; [apply Hd, H'|right; exact H'].
Qed.

Lemma write_char_markup_free (ew eq tr : bool) (ver : version_type)
    (st : bool) (c : Z) (raw out : list Z) (st' : bool) :
  (c <> 60 -> c <> 62 -> c <> 34 -> markup_free eq raw) ->
  write_char ew eq tr ver st c raw = Some (out, st') -> markup_free eq out.
Proof.
  intros Hraw H. unfold write_char in H.
  destruct (c =? 38) eqn:E38.
  { injection H as <- _. intros x Hx. simpl in Hx. intuition (subst; discriminate). }
  destruct (c =? 60) eqn:E60.
  { injection H as <- _. intros x Hx. simpl in Hx. intuition (subst; discriminate). }
  destruct (c =? 62) eqn:E62.
  { injection H as <- _. intros x Hx. simpl in Hx. intuition (subst; discriminate). }
  destruct (c =? 34) eqn:E34.
  { injection H as <- _. destruct eq.
    - intros x Hx. simpl in Hx. intuition (subst; discriminate).
    - intros x [<-|[]]. apply Z.eqb_eq in E34. subst c. repeat split; try discriminate. }
  apply Z.eqb_neq in E60, E62, E34.
  assert (Hc : markup_free eq [c]).
  { intros x [<-|[]]. repeat split; auto. }
  destruct (c =? 10).
  { injection H as <- _. destruct ew; [|exact Hc].
    intros x Hx. simpl in Hx. intuition (subst; discriminate). }
  destruct (c =? 13).
  { injection H as <- _. destruct ew; [|exact Hc].
    intros x Hx. simpl in Hx. intuition (subst; discriminate). }
  destruct (c =? 9).
  { injection H as <- _. destruct ew; [|exact Hc].
    intros x Hx. simpl in Hx. intuition (subst; discriminate). }
  destruct (c =? 32).
  { injection H as <- _. destruct (negb tr || negb st).
    - intros x [<-|[]]. repeat split; discriminate.
    - intros x []. }
  destruct (c =? 0); [discriminate|].
  injection H as <- _.
  destruct (_ || _); [apply Hraw; auto|].
  intros x Hx. change (bytes_of "&#") with [38; 35] in Hx.
  destruct Hx as [<-|[<-|Hx]]; [repeat split; discriminate|repeat split; discriminate|].
  apply in_app_or in Hx as [Hx|Hx].
  - destruct (decimal_go_digits _ _ _ _ Hx) as [[]|Hd]. repeat split; lia.
  - simpl in Hx. intuition (subst; discriminate).
Qed.

Lemma continuation_not_markup (x : Z) :
  Text.is_continuation x = true -> x <> 60 /\ x <> 62 /\ x <> 34.
Proof.
  unfold Text.is_continuation. intros H.
  repeat split; intros ->; discriminate H.
Qed.

Lemma raw_markup_free (eq : bool) (b : Z) (rest : list Z) (c : Z) (rest' : list Z) :
  Text.pop_front_char b rest = Some (c, rest') ->
  c <> 60 -> c <> 62 -> c <> 34 ->
  markup_free eq (firstn (length (b :: rest) - length rest') (b :: rest)).
Proof.
  intros Hp H60 H62 H34.
  destruct (SerializerFacts.pop_shape b rest c rest' Hp) as (k & Hr & Hk & Hb).
  remember (firstn k rest) as p eqn:Ep. clear Ep Hp. subst rest.
  assert (Hlen : (length (b :: p ++ rest') - length rest' = S (length p))%nat).
  { cbn [length]. rewrite length_app. lia. }
  rewrite Hlen. cbn [firstn]. rewrite firstn_app, Nat.sub_diag. cbn [firstn].
  rewrite app_nil_r, firstn_all.
  intros x [<-|Hx].
  - destruct (Z_le_gt_dec b 127) as [Hle|Hgt].
    + destruct (Hb Hle) as [Hcb _]. subst c. auto.
    + repeat split; lia.
  - apply forallb_forall with (x := x) in Hk; [|exact Hx].
    destruct (continuation_not_markup x Hk) as (? & ? & ?). auto.
Qed.

Lemma go_markup_free (ew eq tr : bool) (ver : version_type) (f : nat) (st : bool)
    (s o : list Z) (st' : bool) :
  write_string_go ew eq tr ver f st s = Some (o, st') -> markup_free eq o.
Proof.
  revert st s o st'; induction f as [|f IH]; intros st s o st' H.
  - injection H as <- _. intros x [].
  - destruct s as [|b rest]; cbn [write_string_go] in H.
    + injection H as <- _. intros x [].
    + destruct (Text.pop_front_char b rest) as [[c rest']|] eqn:Hp; [|discriminate].
      destruct (write_char ew eq tr ver st c _) as [[out lis]|] eqn:Hw; [|discriminate].
      destruct (write_string_go ew eq tr ver f lis rest') as [[o' lis']|] eqn:Hg; [|discriminate].
      injection H as <- _.
      apply markup_free_app.
      * exact (write_char_markup_free ew eq tr ver st c _ out lis
                 (raw_markup_free eq b rest c rest' Hp) Hw).
      * apply (IH _ _ _ _ Hg).
Qed.

(** [write_string] never writes a [<] or a [>] byte, and with
    [escape_quot] set it never writes a double quote: markup characters
    in the input come out as entities or numeric references, and the
    bytes of multi-byte characters are continuation or lead bytes. *)
Theorem write_string_markup_free (ew eq tr : bool) (ver : version_type) (s o : list Z) :
  write_string ew eq tr ver s = Some o ->
  ~ In 60 o /\ ~ In 62 o /\ (eq = true -> ~ In 34 o).
Proof.
  unfold write_string. intros H.
  destruct (write_string_go ew eq tr ver (length s) false s) as [[o' st]|] eqn:Hg; [|discriminate].
  injection H as <-.
  pose proof (go_markup_free ew eq tr ver _ _ _ _ _ Hg) as Hm.
  repeat split.
  - intros Hin. apply (proj1 (Hm 60 Hin)). reflexivity.
  - intros Hin. apply (proj1 (proj2 (Hm 62 Hin))). reflexivity.
  - intros He Hin. apply (proj2 (proj2 (Hm 34 Hin)) He). reflexivity.
Qed.

(** [attribute::write] writes the qualified name, [=], a double quote, the escaped value
    and a closing quote; the value written holds no double quote, [<] or
    [>], so the attribute value ends exactly at that closing quote. *)
Theorem attribute_write_shape (fmt : format_info) (a : Dom.attribute) (o : list Z) :
  attribute_write fmt a = Some o ->
  exists sep v,
    o = sep ++ bytes_of (Dom.at_qname a) ++ [61; 34] ++ v ++ [34] /\
    (sep = [32] \/ sep = 10 :: repeat 32 (indent_width fmt)) /\
    ~ In 34 v /\ ~ In 60 v /\ ~ In 62 v.
Proof.
  unfold attribute_write. intros H.
  destruct (write_string _ true false _ (Dom.at_value a)) as [v|] eqn:Hw; [|discriminate].
  injection H as <-.
  unfold write_string in Hw.
  destruct (write_string_go _ true false _ _ false _) as [[v' st]|] eqn:Hg; [|discriminate].
  injection Hw as <-.
  pose proof (go_markup_free _ true false _ _ _ _ _ _ Hg) as Hm.
  eexists _, v'. split; [reflexivity|]. split.
  - destruct (Nat.eqb (indent_width fmt) 0); auto.
  - repeat split.
    + intros Hin. apply (proj2 (proj2 (Hm 34 Hin)) eq_refl). reflexivity.
    + intros Hin. apply (proj1 (Hm 60 Hin)). reflexivity.
    + intros Hin. apply (proj1 (proj2 (Hm 62 Hin))). reflexivity.
Qed.

Lemma go_plain (ew eq : bool) (ver : version_type) (f : nat) (st : bool) (s : list Z) :
  (length s <= f)%nat -> forallb plain_byte s = true ->
  exists st', write_string_go ew eq false ver f st s = Some (s, st').
Proof.
  revert f st; induction s as [|b s IH]; intros f st Hf Hs.
  - destruct f; exists st; reflexivity.
  - destruct f as [|f]; [simpl in Hf; lia|].
    simpl in Hs. apply andb_true_iff in Hs as [Hb Hs].
    unfold plain_byte in Hb. rewrite !andb_true_iff, !negb_true_iff in Hb.
    destruct Hb as [[[[[H32 H127] H34] H38] H60] H62].
    apply Z.leb_le in H32. apply Z.ltb_lt in H127.
    cbn [write_string_go].
    assert (Hp : Text.pop_front_char b s = Some (b, s)).
    { unfold Text.pop_front_char. replace (b >? 127) with false by (symmetry; rewrite Z.gtb_ltb; apply Z.ltb_ge; lia).
      reflexivity. }
    rewrite Hp.
    replace (firstn (length (b :: s) - length s) (b :: s)) with [b]
      by (cbn [length]; rewrite Nat.sub_succ_l, Nat.sub_diag by lia; reflexivity).
    assert (Hw : exists lis, write_char ew eq false ver st b [b] = Some ([b], lis)).
    { unfold write_char. rewrite H38, H60, H62, H34.
      replace (b =? 10) with false by (symmetry; apply Z.eqb_neq; lia).
      replace (b =? 13) with false by (symmetry; apply Z.eqb_neq; lia).
      replace (b =? 9) with false by (symmetry; apply Z.eqb_neq; lia).
      destruct (b =? 32) eqn:E32.
      - apply Z.eqb_eq in E32. subst b. eexists; reflexivity.
      - replace (b =? 0) with false by (symmetry; apply Z.eqb_neq; lia).
        replace (if version_eqb ver (1, 0) then is_valid_xml_1_0_char b else is_valid_xml_1_1_char b)
          with true.
        + rewrite orb_true_r. eexists; reflexivity.
        + unfold is_valid_xml_1_0_char, is_valid_xml_1_1_char, Text.in_range.
          replace (32 <=? b) with true by (symmetry; apply Z.leb_le; lia).
          replace (b <=? 55295) with true by (symmetry; apply Z.leb_le; lia).
          replace (b <? 127) with true by (symmetry; apply Z.ltb_lt; lia).
          destruct (version_eqb ver (1, 0)); rewrite !orb_true_r; reflexivity. }
    destruct Hw as [lis Hw]. rewrite Hw.
    destruct (IH f lis ltac:(simpl in Hf; lia) Hs) as [st' Hg]. rewrite Hg.
    exists st'. reflexivity.
Qed.

(** [write_string] with [trim] unset (as [text::write] and
    [attribute::write] call it) copies printable ASCII text without the
    markup characters [&], [<], [>] and the double quote unchanged. *)
Theorem write_string_plain (ew eq : bool) (ver : version_type) (s : list Z) :
  forallb plain_byte s = true -> write_string ew eq false ver s = Some s.
Proof.
  intros Hs. unfold write_string.
  destruct (go_plain ew eq ver (length s) false s (le_n _) Hs) as [st' Hg].
  rewrite Hg. reflexivity.
Qed.

Lemma drop_while_nil (p : Z -> bool) (l : list Z) :
  Text.drop_while p l = [] <-> forallb p l = true.
Proof.
  induction l as [|x l IH]; simpl; [tauto|].
  destruct (p x); simpl; [exact IH|split; discriminate].
Qed.

Lemma drop_while_all (p : Z -> bool) (l : list Z) :
  forallb p (Text.drop_while p l) = true -> forallb p l = true.
Proof.
  induction l as [|x l IH]; simpl; [tauto|].
  destruct (p x) eqn:E; simpl; [exact IH|].
  rewrite E. discriminate.
Qed.

Lemma forallb_rev (p : Z -> bool) (l : list Z) :
  forallb p (rev l) = forallb p l.
Proof.
  induction l as [|x l IH]; simpl; [reflexivity|].
  rewrite forallb_app, IH. simpl. rewrite andb_true_r, andb_comm. reflexivity.
Qed.

Lemma trim_nil (u : list Z) : Text.trim u = [] <-> forallb Text.isspace u = true.
Proof.
  unfold Text.trim. rewrite drop_while_nil, forallb_rev. split.
  - intros H. rewrite <- forallb_rev. apply drop_while_all, H.
  - intros H. rewrite <- forallb_rev in H.
    apply drop_while_nil in H. rewrite H. reflexivity.
Qed.

(** [text::equals] compares trimmed texts, so a text node made only of
    spaces, tabs, LFs and CRs ([text::is_space]) equals exactly the text
    nodes whose bytes are all white space for [std::isspace], which also
    counts vertical tab and form feed. *)
Theorem text_equals_space (t u : list Z) :
  is_space t = true -> (text_equals t u = true <-> forallb Text.isspace u = true).
Proof.
  intros Ht. unfold text_equals.
  assert (Htt : Text.trim t = []).
  { apply trim_nil. unfold is_space in Ht. rewrite forallb_forall in Ht |- *.
    intros x Hin. specialize (Ht x Hin) as Hx. unfold Text.isspace, Text.in_range.
    rewrite !orb_true_iff, !Z.eqb_eq in Hx. rewrite orb_true_iff, Z.eqb_eq, andb_true_iff, !Z.leb_le.
    lia. }
  rewrite Htt, <- trim_nil.
  destruct (Text.trim u); simpl; split; congruence.
Qed.

Lemma write_string_markup_free_witness :
  write_string false true false (1, 0) [60; 34; 195; 169] = Some (bytes_of "&lt;&quot;" ++ [195; 169]) /\
  ~ In 60 (bytes_of "&lt;&quot;" ++ [195; 169]) /\ ~ In 62 (bytes_of "&lt;&quot;" ++ [195; 169]) /\
  (true = true -> ~ In 34 (bytes_of "&lt;&quot;" ++ [195; 169])).
Proof.
  assert (H : write_string false true false (1, 0) [60; 34; 195; 169] = Some (bytes_of "&lt;&quot;" ++ [195; 169]))
    by reflexivity.
  split; [exact H|].
  exact (write_string_markup_free false true false (1, 0) _ _ H).
Defined.

Lemma attribute_write_shape_witness :
  attribute_write default_format (Dom.mk_attribute "title" [97; 60; 34] false) =
    Some (bytes_of " title=" ++ [34] ++ bytes_of "a&lt;&quot;" ++ [34]) /\
  exists sep v,
    bytes_of " title=" ++ [34] ++ bytes_of "a&lt;&quot;" ++ [34] =
      sep ++ bytes_of "title" ++ [61; 34] ++ v ++ [34] /\
    (sep = [32] \/ sep = 10 :: repeat 32 (indent_width default_format)) /\
    ~ In 34 v /\ ~ In 60 v /\ ~ In 62 v.
Proof.
  assert (H : attribute_write default_format (Dom.mk_attribute "title" [97; 60; 34] false) =
                Some (bytes_of " title=" ++ [34] ++ bytes_of "a&lt;&quot;" ++ [34]))
    by reflexivity.
  split; [exact H|].
  exact (attribute_write_shape default_format _ _ H).
Defined.

Lemma write_string_plain_witness :
  forallb plain_byte [104; 105; 32; 33] = true /\
  write_string false false false (1, 0) [104; 105; 32; 33] = Some [104; 105; 32; 33].
Proof.
  split; [reflexivity|].
  apply write_string_plain. reflexivity.
Defined.

Lemma text_equals_space_witness :
  is_space [32; 10] = true /\
  (text_equals [32; 10] [11; 9] = true <-> forallb Text.isspace [11; 9] = true).
Proof.
  split; [reflexivity|].
  apply text_equals_space. reflexivity.
Defined.

End SerializerExtFacts.


Module XPathExtFacts.
Import QArith_base XPath XPathExt.
Local Open Scope Z_scope.

Lemma starts_with_spec (s t : list Z) :
  starts_with s t = true <-> exists r, s = t ++ r.
Proof.
  revert s; induction t as [|y t IH]; intros s; simpl.
  - split; [intros _; exists s; reflexivity|reflexivity].
  - destruct s as [|x s].
    + split; [discriminate|intros [r Hr]; discriminate].
    + rewrite andb_true_iff, Z.eqb_eq, IH. split.
      * intros [-> [r ->]]. exists r. reflexivity.
      * intros [r Hr]. injection Hr as -> ->. split; [reflexivity|exists r; reflexivity].
Qed.

Lemma string_find_go_some (s t : list Z) (i j : nat) :
  string_find_go s t i = Some j ->
  exists a b, s = a ++ t ++ b /\ j = (i + length a)%nat /\
    forall a' b', s = a' ++ t ++ b' -> (length a <= length a')%nat.
Proof.
  revert i; induction s as [|x s IH]; intros i H; cbn [string_find_go] in H.
  - destruct (starts_with [] t) eqn:E; [|discriminate].
    injection H as <-. apply starts_with_spec in E as [r Hr].
    exists [], r. split; [exact Hr|]. split; [simpl; lia|]. intros; simpl; lia.
  - destruct (starts_with (x :: s) t) eqn:E.
    + injection H as <-. apply starts_with_spec in E as [r Hr].
      exists [], r. split; [exact Hr|]. split; [simpl; lia|]. intros; simpl; lia.
    + destruct (IH _ H) as (a & b & Hs & Hj & Hmin).
      exists (x :: a), b. split; [rewrite Hs; reflexivity|]. split; [simpl; lia|].
      intros a' b' Ha'. destruct a' as [|x' a'].
      * exfalso. assert (starts_with (x :: s) t = true) by (apply starts_with_spec; exists b'; exact Ha').
        congruence.
      * injection Ha' as -> Ha'. simpl. specialize (Hmin a' b' Ha'). lia.
Qed.

Lemma string_find_go_none (s t : list Z) (i : nat) :
  string_find_go s t i = None -> ~ exists a b, s = a ++ t ++ b.
Proof.
  revert i; induction s as [|x s IH]; intros i H [a [b Hs]]; cbn [string_find_go] in H.
  - destruct (starts_with [] t) eqn:E; [discriminate|].
    destruct a as [|? a]; [|discriminate].
    assert (starts_with [] t = true) by (apply starts_with_spec; exists b; exact Hs). congruence.
  - destruct (starts_with (x :: s) t) eqn:E; [discriminate|].
    destruct a as [|x' a].
    + assert (starts_with (x :: s) t = true) by (apply starts_with_spec; exists b; exact Hs). congruence.
    + injection Hs as -> Hs. apply (IH _ H). exists a, b. exact Hs.
Qed.

(** [starts-with(s, t)] holds exactly when [t] is a prefix of [s], and
    [contains(s, t)] exactly when [t] occurs in [s] (both true for an
    empty [t]), whatever the types of the two values. *)
Theorem starts_with_contains_spec (ts : double -> list Z) (doc : list Dom.node) (v1 v2 : object) :
  (starts_with_fn ts doc v1 v2 = OBool true <->
     exists r, as_string ts doc v1 = as_string ts doc v2 ++ r) /\
  (contains_fn ts doc v1 v2 = OBool true <->
     exists a b, as_string ts doc v1 = a ++ as_string ts doc v2 ++ b).
Proof.
  split.
  - unfold starts_with_fn. rewrite <- starts_with_spec.
    destruct (as_string ts doc v2) as [|y t] eqn:E2; cbn [is_empty orb].
    + destruct (as_string ts doc v1); simpl; split; reflexivity.
    + split; [intros H; injection H as H; exact H|intros ->; reflexivity].
  - unfold contains_fn, string_find.
    destruct (string_find_go _ _ 0) as [j|] eqn:E.
    + split; [intros _|reflexivity].
      destruct (string_find_go_some _ _ _ _ E) as (a & b & Hs & _). exists a, b. exact Hs.
    + split; [discriminate|]. intros H. exfalso. exact (string_find_go_none _ _ _ E H).
Qed.

(** [substring-before(s, t)] and [substring-after(s, t)]: for an empty
    [t], "" and [s]; when [t] does not occur in [s], both ""; otherwise
    [s] is the part before, [t] and the part after, split at the first
    occurrence of [t] (the part before does not contain [t]). *)
Theorem substring_before_after_spec (ts : double -> list Z) (doc : list Dom.node) (v1 v2 : object) :
  let s := as_string ts doc v1 in
  let t := as_string ts doc v2 in
  (t = [] -> substring_before_fn ts doc v1 v2 = OString [] /\
             substring_after_fn ts doc v1 v2 = OString s) /\
  (contains_fn ts doc v1 v2 = OBool false ->
     substring_before_fn ts doc v1 v2 = OString [] /\ substring_after_fn ts doc v1 v2 = OString []) /\
  (t <> [] -> contains_fn ts doc v1 v2 = OBool true ->
     exists b a, substring_before_fn ts doc v1 v2 = OString b /\
                 substring_after_fn ts doc v1 v2 = OString a /\
                 s = b ++ t ++ a /\ ~ exists x y, b = x ++ t ++ y).
Proof.
  cbv zeta. unfold substring_before_fn, substring_after_fn, contains_fn.
  generalize (as_string ts doc v1) as s. generalize (as_string ts doc v2) as t.
  intros t s. split; [|split].
  - intros Ht. rewrite Ht. split; reflexivity.
  - destruct (string_find s t) eqn:E; [discriminate|]. intros _.
    destruct (is_empty t) eqn:He; split; try reflexivity.
    exfalso. destruct t; [|discriminate He].
    unfold string_find in E. destruct s; cbn in E; discriminate.
  - intros Ht Hc. destruct t as [|y t']; [congruence|]. cbn [is_empty].
    destruct (string_find s (y :: t')) as [j|] eqn:E; [|discriminate Hc].
    destruct (string_find_go_some _ _ _ _ E) as (a & b & Hs & Hj & Hmin).
    simpl in Hj. subst j.
    assert (Hfa : firstn (length a) s = a) by (rewrite Hs, firstn_app, Nat.sub_diag, firstn_all; apply app_nil_r).
    exists a, (if Nat.ltb (length a + length (y :: t')) (length s) then skipn (length a + length (y :: t')) s else []).
    rewrite Hfa. split; [reflexivity|]. split; [reflexivity|]. split.
    + destruct (Nat.ltb _ _) eqn:Hl.
      * assert (Hb : skipn (length a + length (y :: t')) s = b).
        { rewrite Hs. change (a ++ y :: t' ++ b) with (a ++ (y :: t') ++ b).
          rewrite app_assoc, <- length_app. generalize (a ++ y :: t'). intros l.
          induction l; simpl; auto. }
        rewrite Hb. exact Hs.
      * apply Nat.ltb_ge in Hl. rewrite Hs in Hl. rewrite !length_app in Hl.
        destruct b; [rewrite Hs; reflexivity|simpl in Hl; lia].
    + intros (x & z & Hx). specialize (Hmin x (z ++ y :: t' ++ b)).
      assert (Hlen : length a = (length x + length (y :: t') + length z)%nat)
        by (rewrite Hx, !length_app; lia).
      assert (Hs' : s = x ++ (y :: t') ++ z ++ y :: t' ++ b)
        by (rewrite Hs, Hx, <- !app_assoc; reflexivity).
      specialize (Hmin Hs'). simpl in Hlen. lia.
Qed.

Lemma normalize_loop_out (sp : bool) (res s : list Z) :
  normalize_loop sp res s = (res ++ normalize_out sp s, normalize_flag sp s).
Proof.
  revert sp res; induction s as [|c r IH]; intros sp res; simpl.
  - rewrite app_nil_r. reflexivity.
  - destruct (Text.isspace c); rewrite IH; [destruct sp|]; rewrite <- ?app_assoc; reflexivity.
Qed.

Lemma last_rev (o : list Z) (x : Z) : hd_error (rev o) = Some x <-> exists l, o = l ++ [x].
Proof.
  split.
  - intros H. destruct (rev o) as [|y l] eqn:E; [discriminate|].
    injection H as ->. exists (rev l). rewrite <- (rev_involutive o), E. reflexivity.
  - intros [l ->]. rewrite rev_app_distr. reflexivity.
Qed.

Lemma nds_cons (x : Z) (l : list Z) :
  no_double_space (x :: l) =
  negb ((x =? 32) && match l with y :: _ => y =? 32 | [] => false end) && no_double_space l.
Proof. destruct l; [destruct (x =? 32); reflexivity|reflexivity]. Qed.

Lemma isspace_32 (c : Z) : c = 32 -> Text.isspace c = true.
Proof. intros ->. reflexivity. Qed.

Lemma out_ok (sp : bool) (s : list Z) : forallb space_or_text (normalize_out sp s) = true.
Proof.
  revert sp; induction s as [|c r IH]; intros sp; simpl; [reflexivity|].
  destruct (Text.isspace c) eqn:E.
  - destruct sp; simpl; rewrite ?IH; reflexivity.
  - simpl. rewrite IH. unfold space_or_text. rewrite E, orb_true_r. reflexivity.
Qed.

Lemma out_head (s : list Z) : hd_error (normalize_out true s) <> Some 32.
Proof.
  induction s as [|c r IH]; simpl; [discriminate|].
  destruct (Text.isspace c) eqn:E; [exact IH|].
  simpl. intros H. injection H as ->. discriminate E.
Qed.

Lemma out_nds (sp : bool) (s : list Z) : no_double_space (normalize_out sp s) = true.
Proof.
  revert sp; induction s as [|c r IH]; intros sp; simpl; [reflexivity|].
  destruct (Text.isspace c) eqn:E.
  - destruct sp; [apply IH|]. cbn [app]. rewrite nds_cons, IH.
    pose proof (out_head r) as Hh.
    destruct (normalize_out true r) as [|y l]; [reflexivity|].
    destruct (y =? 32) eqn:Ey; [apply Z.eqb_eq in Ey; subst; exfalso; apply Hh; reflexivity|].
    rewrite andb_false_r. reflexivity.
  - rewrite nds_cons, IH. replace (c =? 32) with false; [reflexivity|].
    symmetry. apply Z.eqb_neq. intros ->. discriminate E.
Qed.

Lemma out_flag (sp : bool) (s : list Z) :
  (normalize_flag sp s = true ->
     (normalize_out sp s = [] /\ sp = true) \/ exists l, normalize_out sp s = l ++ [32]) /\
  (normalize_flag sp s = false ->
     (normalize_out sp s = [] /\ sp = false) \/
     exists l c, normalize_out sp s = l ++ [c] /\ Text.isspace c = false).
Proof.
  revert sp; induction s as [|c r IH]; intros sp; simpl.
  - split; intros ->; left; auto.
  - destruct (Text.isspace c) eqn:E; destruct (IH (Text.isspace c)) as [IHt IHf]; rewrite E in IHt, IHf.
    + split.
      * intros Hf. destruct (IHt Hf) as [[Ho _]|[l Ho]]; rewrite Ho.
        -- destruct sp; [left; auto|right; exists []; reflexivity].
        -- right. exists ((if sp then [] else [32]) ++ l). rewrite app_assoc. reflexivity.
      * intros Hf. destruct (IHf Hf) as [[_ Hc]|(l & c' & Ho & Hc)]; [discriminate|].
        right. rewrite Ho. exists ((if sp then [] else [32]) ++ l), c'.
        rewrite app_assoc. auto.
    + split.
      * intros Hf. destruct (IHt Hf) as [[_ Hc]|[l Ho]]; [discriminate|].
        right. rewrite Ho. exists (c :: l). reflexivity.
      * intros Hf. right. destruct (IHf Hf) as [[Ho _]|(l & c' & Ho & Hc)]; rewrite Ho.
        -- exists [], c. auto.
        -- exists (c :: l), c'. auto.
Qed.

Lemma out_filter (sp : bool) (s : list Z) :
  filter (fun c => negb (Text.isspace c)) (normalize_out sp s) =
  filter (fun c => negb (Text.isspace c)) s.
Proof.
  revert sp; induction s as [|c r IH]; intros sp; simpl; [reflexivity|].
  destruct (Text.isspace c) eqn:E; cbn [negb].
  - destruct sp; simpl; apply IH.
  - simpl. rewrite E, IH. reflexivity.
Qed.

Lemma out_fixed (sp : bool) (l : list Z) :
  forallb space_or_text l = true -> no_double_space l = true ->
  (sp = true -> hd_error l <> Some 32) -> normalize_out sp l = l.
Proof.
  revert sp; induction l as [|c r IH]; intros sp Hok Hnd Hh; simpl; [reflexivity|].
  simpl in Hok. apply andb_true_iff in Hok as [Hc Hok].
  rewrite nds_cons in Hnd. apply andb_true_iff in Hnd as [Hcr Hnd].
  destruct (Text.isspace c) eqn:E.
  - unfold space_or_text in Hc. rewrite E, orb_false_r in Hc. apply Z.eqb_eq in Hc. subst c.
    destruct sp; [exfalso; apply (Hh eq_refl); reflexivity|].
    cbn [app]. f_equal. apply IH; [exact Hok|exact Hnd|].
    intros _. destruct r as [|y r']; [discriminate|]. simpl. intros Hy. injection Hy as ->.
    discriminate Hcr.
  - f_equal. apply IH; [exact Hok|exact Hnd|discriminate].
Qed.

Lemma flag_snoc (sp : bool) (l : list Z) (c : Z) :
  normalize_flag sp (l ++ [c]) = Text.isspace c.
Proof. revert sp; induction l as [|x l IH]; intros sp; simpl; [reflexivity|apply IH]. Qed.

Lemma nds_app_l (l1 l2 : list Z) : no_double_space (l1 ++ l2) = true -> no_double_space l1 = true.
Proof.
  induction l1 as [|x l1 IH]; [reflexivity|].
  cbn [app]. rewrite !nds_cons. intros H. apply andb_true_iff in H as [H1 H2].
  rewrite (IH H2), andb_true_r.
  destruct l1; [destruct (x =? 32); reflexivity|exact H1].
Qed.

(** [normalize-space(s)] leaves no leading or trailing space and no two
    spaces in a row, keeps no white space other than single spaces, keeps
    every other byte in order, and is idempotent. *)
Theorem normalize_space_spec (s : list Z) :
  let o := normalize_space s in
  forallb space_or_text o = true /\ no_double_space o = true /\
  hd_error o <> Some 32 /\ hd_error (rev o) <> Some 32 /\
  filter (fun c => negb (Text.isspace c)) o = filter (fun c => negb (Text.isspace c)) s /\
  normalize_space o = o.
Proof.
  assert (Hshape : forall o, forallb space_or_text o = true -> no_double_space o = true ->
            hd_error o <> Some 32 -> hd_error (rev o) <> Some 32 -> normalize_space o = o).
  { intros o Hok Hnd Hh Hl. unfold normalize_space. rewrite normalize_loop_out. cbn [app].
    rewrite (out_fixed true o Hok Hnd (fun _ => Hh)).
    destruct o as [|x0 x _] using rev_ind; [reflexivity|].
    rewrite flag_snoc.
    replace (Text.isspace x0) with false; [rewrite andb_false_r; reflexivity|].
    assert (Hx0 : space_or_text x0 = true).
    { rewrite forallb_app in Hok. apply andb_true_iff in Hok as [_ Hok]. simpl in Hok.
      rewrite andb_true_r in Hok. exact Hok. }
    unfold space_or_text in Hx0. destruct (x0 =? 32) eqn:E.
    - apply Z.eqb_eq in E. subst. exfalso. apply Hl. rewrite rev_app_distr. reflexivity.
    - simpl in Hx0. destruct (Text.isspace x0); [discriminate|reflexivity]. }
  cbv zeta.
  assert (Hcore : forallb space_or_text (normalize_space s) = true /\
                  no_double_space (normalize_space s) = true /\
                  hd_error (normalize_space s) <> Some 32 /\
                  hd_error (rev (normalize_space s)) <> Some 32 /\
                  filter (fun c => negb (Text.isspace c)) (normalize_space s) =
                  filter (fun c => negb (Text.isspace c)) s).
  { unfold normalize_space. rewrite normalize_loop_out. cbn [app].
    pose proof (out_ok true s) as Hok. pose proof (out_nds true s) as Hnd.
    pose proof (out_head s) as Hh. pose proof (out_filter true s) as Hf.
    destruct (out_flag true s) as [Ht Hfl].
    destruct (normalize_flag true s) eqn:Efl.
    - destruct (Ht eq_refl) as [[Ho _]|[l Ho]]; rewrite Ho in *.
      + cbn. repeat split; discriminate || exact Hf.
      + rewrite removelast_last.
        replace (match l ++ [32] with [] => true | _ => false end) with false
          by (destruct l; reflexivity). cbn [negb andb].
        rewrite forallb_app in Hok. apply andb_true_iff in Hok as [Hok _].
        repeat split.
        * exact Hok.
        * apply (nds_app_l _ _ Hnd).
        * destruct l; [discriminate|exact Hh].
        * intros Hl. apply last_rev in Hl as [l' ->].
          rewrite <- app_assoc in Hnd. cbn [app] in Hnd. revert Hnd. clear.
          induction l' as [|x l' IH]; [intros H; discriminate H|]. cbn [app]. rewrite nds_cons.
          intros H. apply andb_true_iff in H as [_ H]. exact (IH H).
        * rewrite <- Hf, filter_app. simpl. rewrite app_nil_r. reflexivity.
    - destruct (Hfl eq_refl) as [[_ Hc]|(l & c & Ho & Hc)]; [discriminate|].
      rewrite Ho in *. rewrite andb_false_r.
      repeat split; try assumption.
      intros Hl. apply last_rev in Hl as [l' Hl']. apply app_inj_tail in Hl' as [_ ->].
      discriminate Hc. }
  destruct Hcore as (H1 & H2 & H3 & H4 & H5).
  repeat split; try assumption.
  apply Hshape; assumption.
Qed.

Lemma find_char_some (f : list Z) (c : Z) (i : nat) :
  find_char f c = Some i -> nth_error f i = Some c.
Proof.
  revert i; induction f as [|x f IH]; intros i H; simpl in H; [discriminate|].
  destruct (x =? c) eqn:E.
  - injection H as <-. apply Z.eqb_eq in E. subst. reflexivity.
  - destruct (find_char f c) as [j|] eqn:F; simpl in H; [|discriminate].
    injection H as <-. simpl. apply IH. reflexivity.
Qed.

Lemma find_char_none (f : list Z) (c : Z) :
  find_char f c = None <-> existsb (Z.eqb c) f = false.
Proof.
  induction f as [|x f IH]; simpl; [tauto|].
  rewrite (Z.eqb_sym c x). destruct (x =? c); simpl; [split; intros H; discriminate H|].
  rewrite <- IH. destruct (find_char f c); simpl; split; congruence.
Qed.

(** [translate(s, f, r)] throws unless its second and third values are
    strings; its result is never longer than [s]; [translate(s, f, f)] is
    [s]; and [translate(s, f, '')] removes from [s] every byte of [f]. *)
Theorem translate_spec (ts : double -> list Z) (doc : list Dom.node) (v1 v2 v3 : object) :
  (translate_fn ts doc v1 v2 v3 = None <-> ~ exists f r, v2 = OString f /\ v3 = OString r) /\
  (forall o, translate_fn ts doc v1 v2 v3 = Some o ->
     exists r, o = OString r /\ (length r <= length (as_string ts doc v1))%nat) /\
  (forall f, translate_fn ts doc v1 (OString f) (OString f) = Some (OString (as_string ts doc v1))) /\
  (forall f, translate_fn ts doc v1 (OString f) (OString []) =
             Some (OString (filter (fun c => negb (existsb (Z.eqb c) f)) (as_string ts doc v1)))).
Proof.
  unfold translate_fn. split; [|split; [|split]].
  - destruct v2, v3; split; intros H;
      try discriminate H; try reflexivity;
      try (destruct H as (f & r & H1 & H2); congruence);
      try (intros (f & r & H1 & H2); congruence).
    exfalso. apply H. eauto.
  - intros o H. destruct v2 as [| | | |f], v3 as [| | | |r]; try discriminate.
    injection H as <-. eexists; split; [reflexivity|].
    induction (as_string ts doc v1) as [|c l IH]; [reflexivity|].
    cbn [flat_map]. rewrite length_app. cbn [length].
    destruct (find_char f c) as [fi|]; [destruct (nth_error r fi)|]; cbn [length]; lia.
  - intros f. f_equal. f_equal.
    induction (as_string ts doc v1) as [|c l IH]; [reflexivity|].
    cbn [flat_map]. rewrite IH.
    destruct (find_char f c) as [fi|] eqn:E; [|reflexivity].
    rewrite (find_char_some f c fi E). reflexivity.
  - intros f. f_equal. f_equal.
    induction (as_string ts doc v1) as [|c l IH]; [reflexivity|].
    cbn [flat_map filter]. rewrite IH.
    destruct (find_char f c) as [fi|] eqn:E.
    + destruct (existsb (Z.eqb c) f) eqn:Ex.
      * destruct fi; reflexivity.
      * apply find_char_none in Ex. congruence.
    + apply find_char_none in E. rewrite E. reflexivity.
Qed.

Lemma Qeq_bool_inject_Z (x y : Z) : Qeq_bool (inject_Z x) (inject_Z y) = (x =? y).
Proof.
  destruct (Qeq_bool (inject_Z x) (inject_Z y)) eqn:E; destruct (x =? y) eqn:E'; try reflexivity.
  - apply Qeq_bool_iff in E. unfold Qeq in E. simpl in E. apply Z.eqb_neq in E'. lia.
  - apply Qeq_bool_neq in E. apply Z.eqb_eq in E'. subst. exfalso. apply E. reflexivity.
Qed.

Lemma position_go_at (n : node_ptr) (pre post : list node_ptr) (acc : nat) :
  ~ In n pre -> position_go n (pre ++ n :: post) acc = S (acc + length pre).
Proof.
  revert acc; induction pre as [|m pre IH]; intros acc Hn; simpl.
  - destruct (list_eq_dec Nat.eq_dec n n) as [_|C]; [f_equal; lia|congruence].
  - destruct (list_eq_dec Nat.eq_dec m n) as [E|_].
    + exfalso. apply Hn. left. exact E.
    + rewrite IH by (intro; apply Hn; right; assumption). f_equal. lia.
Qed.

Lemma predicate_loop_number (fc : list Z -> double) (ts : double -> list Z) (k : nat)
    (pre rest : list node_ptr) :
  NoDup (pre ++ rest) ->
  predicate_loop (fun _ => Some (ONumber (DFinite (inject_Z (Z.of_nat k))))) (pre ++ rest) rest =
  Some (match nth_error rest (k - S (length pre)) with
        | Some n => if Nat.leb (S (length pre)) k then [n] else []
        | None => []
        end).
Proof.
  revert pre; induction rest as [|n r IH]; intros pre Hnd.
  - simpl. destruct (k - S (length pre))%nat; reflexivity.
  - cbn [predicate_loop]. unfold position.
    rewrite position_go_at by (apply NoDup_remove_2 in Hnd; intro; apply Hnd, in_or_app; left; assumption).
    cbn [double_eqb]. rewrite Qeq_bool_inject_Z.
    replace (pre ++ n :: r) with ((pre ++ [n]) ++ r) by (rewrite <- app_assoc; reflexivity).
    rewrite (IH (pre ++ [n])) by (rewrite <- app_assoc; exact Hnd).
    rewrite length_app. cbn [length]. rewrite Nat.add_0_l.
    destruct (Z.of_nat (S (length pre)) =? Z.of_nat k) eqn:E.
    + apply Z.eqb_eq, Nat2Z.inj in E. subst k.
      rewrite Nat.sub_diag, Nat.leb_refl. cbn [nth_error].
      replace (Nat.leb (S (length pre + 1)) (S (length pre))) with false
        by (symmetry; apply Nat.leb_gt; lia).
      destruct (nth_error r _); reflexivity.
    + apply Z.eqb_neq in E. assert (k <> S (length pre)) by (intro; subst; apply E; reflexivity).
      destruct (Nat.leb (S (length pre)) k) eqn:L.
      * apply Nat.leb_le in L.
        replace (k - S (length pre))%nat with (S (k - S (length pre + 1))) by lia.
        cbn [nth_error].
        replace (Nat.leb (S (length pre + 1)) k) with true by (symmetry; apply Nat.leb_le; lia).
        destruct (nth_error r _); reflexivity.
      * apply Nat.leb_gt in L.
        replace (Nat.leb (S (length pre + 1)) k) with false by (symmetry; apply Nat.leb_gt; lia).
        destruct (nth_error r _), (nth_error (n :: r) _); reflexivity.
Qed.

Lemma child_elements_go_in (p : node_ptr) (name : string) (i : nat) (cs : list Dom.node) (x : node_ptr) :
  In x (child_elements_go p name i cs) -> exists j, x = p ++ [j] /\ (i <= j)%nat.
Proof.
  revert i; induction cs as [|c cs IH]; intros i H; simpl in H; [contradiction|].
  destruct c; try (destruct (IH _ H) as (j & -> & Hj); exists j; split; [reflexivity|lia]).
  apply in_app_or in H as [H|H].
  - destruct (_ || _); [|contradiction]. destruct H as [<-|[]]. exists i. auto.
  - destruct (IH _ H) as (j & -> & Hj). exists j. split; [reflexivity|lia].
Qed.

Lemma child_elements_go_nodup (p : node_ptr) (name : string) (i : nat) (cs : list Dom.node) :
  NoDup (child_elements_go p name i cs).
Proof.
  revert i; induction cs as [|c cs IH]; intros i; simpl; [constructor|].
  destruct c; try apply IH.
  destruct (_ || _); [|apply IH].
  cbn [app]. constructor; [|apply IH].
  intros Hin. destruct (child_elements_go_in _ _ _ _ _ Hin) as (j & Hj & Hij).
  apply app_inv_head in Hj. injection Hj as ->. lia.
Qed.

(** A numeric predicate [name[k]] on the child axis selects the [k]-th
    child element with that name (counting from 1), and nothing when [k]
    is 0 or larger than their number. *)
Theorem child_step_number_predicate (fc : list Z -> double) (ts : double -> list Z)
    (vars : variables) (doc : list Dom.node) (cur : node_ptr) (cns : list node_ptr)
    (name : string) (k : nat) :
  eval fc ts vars doc (EPredicate (EChildStep name) (ENumber (DFinite (inject_Z (Z.of_nat k))))) cur cns =
  Some (ONodeSet (match k with
                  | O => []
                  | S j => match nth_error (child_step doc cur name) j with Some n => [n] | None => [] end
                  end)).
Proof.
  cbn [eval].
  assert (Hnd : NoDup (child_step doc cur name)).
  { unfold child_step. destruct (children_of doc cur); [apply child_elements_go_nodup|constructor]. }
  pose proof (predicate_loop_number fc ts k [] (child_step doc cur name) Hnd) as H.
  cbn [app length] in H. rewrite H.
  destruct k as [|j]; [destruct (nth_error _ _); reflexivity|].
  rewrite Nat.sub_1_r. cbn [pred]. replace (Nat.leb 1 (S j)) with true by reflexivity.
  reflexivity.
Qed.

End XPathExtFacts.
